(** * GeoQuarry: a quadtree persisted node by node in a key-value store

    Shallow embedding of [src/DiskQuadTree.js] (the variant with [update])
    and verification of the properties its specification states.

    Conventions of the embedding.
    - The program is embedded once, over any carrier [num] that offers the
      operations the code applies to JavaScript numbers (class [Arith]).
      The instance [binary64] is the arithmetic the program runs on: IEEE
      754 double precision with round-to-nearest, NaN, infinities and
      signed zeros.  The instance [exact] computes over the rationals; it
      says what the program would do if no operation ever rounded.
    - The LevelDB handle, the uuid generator and the order of the [put]
      calls form the [world] that every operation threads explicitly.
      The store is modelled as keeping a record as it was put.  Its JSON
      encoding changes a number on the way only if the number is -0, NaN or
      infinite ([n_survives]): what is proved of records read back after a
      write holds of the program when the numbers written survive, and the
      amended claims state this as a hypothesis.
    - [async] functions become computations in a state-and-exception monad;
      recursion through the store is bounded by a fuel argument, and running
      out of fuel is an outcome of its own ([OutOfFuel]), distinct from a
      normal return and from a thrown exception. *)

From Stdlib Require Import QArith Qabs Lqa Floats.
From stdpp Require Import base option list strings gmap.

Set Default Proof Using "Type".

(** ** Numbers *)

(** The operations of the program on numbers, and the literals it uses. *)
Class Arith (num : Type) : Type :=
  { n_add : num → num → num;        (* a + b *)
    n_sub : num → num → num;        (* a - b *)
    n_mul : num → num → num;        (* a * b *)
    n_div : num → num → num;        (* a / b *)
    n_sqr : num → num;              (* a ** 2 *)
    n_abs : num → num;              (* Math.abs(a) *)
    n_leb : num → num → bool;       (* a <= b *)
    n_ltb : num → num → bool;       (* a < b *)
    n_eqb : num → num → bool;       (* a === b *)
    n_survives : num → bool;        (* JSON.parse(JSON.stringify(a)) is a *)
    n_zero : num;                   (* 0 *)
    n_one : num;                    (* 1 *)
    n_minus_one : num;              (* -1 *)
    n_two : num;                    (* 2 *)
    n_hundred : num }.              (* 100 *)

Declare Scope num_scope.
Delimit Scope num_scope with num.
Infix "+" := n_add : num_scope.
Infix "-" := n_sub : num_scope.
Infix "*" := n_mul : num_scope.
Infix "/" := n_div : num_scope.
Infix "<=?" := n_leb : num_scope.
Infix "<?" := n_ltb : num_scope.
Infix "=?" := n_eqb : num_scope.

(** JavaScript numbers: binary64.  ECMAScript leaves the precision of
    [**] to the implementation; [a ** 2] is taken to be the correctly
    rounded square, which is what [a * a] computes.  The store encodes its
    values as JSON, which turns -0 into 0 and NaN and the infinities into
    null: a number survives when it is finite and not -0. *)
#[global] Instance binary64 : Arith float :=
  {| n_add := PrimFloat.add;
     n_sub := PrimFloat.sub;
     n_mul := PrimFloat.mul;
     n_div := PrimFloat.div;
     n_sqr := λ a, PrimFloat.mul a a;
     n_abs := PrimFloat.abs;
     n_leb := PrimFloat.leb;
     n_ltb := PrimFloat.ltb;
     n_eqb := PrimFloat.eqb;
     n_survives := λ a, is_finite a && negb (is_zero a && get_sign a);
     n_zero := 0%float;
     n_one := 1%float;
     n_minus_one := (-1)%float;
     n_two := 2%float;
     n_hundred := 100%float |}.

(** Arithmetic without rounding, over the rationals. *)
#[global] Instance exact : Arith Q :=
  {| n_add := Qplus;
     n_sub := Qminus;
     n_mul := Qmult;
     n_div := Qdiv;
     n_sqr := λ a, (a ^ 2)%Q;
     n_abs := Qabs;
     n_leb := Qle_bool;
     n_ltb := λ a b, negb (Qle_bool b a);
     n_eqb := Qeq_bool;
     n_survives := λ _, true;
     n_zero := 0%Q;
     n_one := 1%Q;
     n_minus_one := (-1)%Q;
     n_two := 2%Q;
     n_hundred := 100%Q |}.

(** The rational a binary64 number stands for; NaN and the infinities
    stand for no rational. *)
Definition exact_value (a : float) : option Q :=
  match Prim2SF a with
  | S754_zero _ => Some 0%Q
  | S754_finite sign m e =>
      let v := (inject_Z (Z.pos m) * Qpower 2 e)%Q in
      Some (if sign then Qopp v else v)
  | S754_infinity _ | S754_nan => None
  end.

(** ** JSON payloads *)

(** The payload attached to a point is an arbitrary JSON-serialisable
    value; [JUndefined] is the value of an omitted argument.  The program
    never computes with a payload; a JSON number is kept as the rational
    its literal denotes. *)
Unset Elimination Schemes.
Inductive jsval : Type :=
  | JUndefined
  | JNull
  | JBool (b : bool)
  | JNum (q : Q)
  | JStr (s : string)
  | JArr (l : list jsval)
  | JObj (fields : list (string * jsval)).
Set Elimination Schemes.

(** ** Geometry *)

Module Point.
Record t (num : Type) : Type := mk { x : num; y : num; data : jsval }.
Arguments mk {num} x y data.
Arguments x {num} t.
Arguments y {num} t.
Arguments data {num} t.

(** [p.data = d] *)
Definition set_data {num : Type} (p : t num) (d : jsval) : t num :=
  {| x := x p; y := y p; data := d |}.
End Point.

Module Rectangle.
Record t (num : Type) : Type := mk { x : num; y : num; w : num; h : num }.
Arguments mk {num} x y w h.
Arguments x {num} t.
Arguments y {num} t.
Arguments w {num} t.
Arguments h {num} t.

(** Modelled from the spec: [Geometry.js] (class [Rectangle], method
    [contains]) is not among the sources.  "contains(p) iff
    |p.x - centerX| <= halfWidth and |p.y - centerY| <= halfHeight
    (closed boundary)". *)
Definition contains {num : Type} {arith : Arith num} (r : t num)
    (p : Point.t num) : bool :=
  (n_abs (Point.x p - x r) <=? w r)%num
  && (n_abs (Point.y p - y r) <=? h r)%num.

(** Modelled from the spec: [Geometry.js] (method [intersects]) is not
    among the sources.  "intersects(other) iff the two boxes' projections
    overlap on both axes (closed-interval overlap test)". *)
Definition intersects {num : Type} {arith : Arith num} (a b : t num) : bool :=
  (x a - w a <=? x b + w b)%num && (x b - w b <=? x a + w a)%num
  && (y a - h a <=? y b + h b)%num && (y b - h b <=? y a + h a)%num.
End Rectangle.

(** ** Node records *)

Definition uuid : Type := nat.

(** The four quadrant tags, in the order the source iterates over them. *)
Inductive dir : Type := ne | nw | se | sw.

Definition dirs : list dir := [ne; nw; se; sw].

Definition dir_eq_dec : EqDecision dir.
Proof. solve_decision. Defined.
#[global] Existing Instance dir_eq_dec.

(** [dir.includes('e')] and [dir.includes('s')] *)
Definition includes_e (d : dir) : bool :=
  match d with ne | se => true | nw | sw => false end.
Definition includes_s (d : dir) : bool :=
  match d with se | sw => true | ne | nw => false end.

(** The object [{ne: id, nw: id, se: id, sw: id}]. *)
Record Children : Type :=
  { c_ne : uuid; c_nw : uuid; c_se : uuid; c_sw : uuid }.

Definition child (c : Children) (d : dir) : uuid :=
  match d with ne => c_ne c | nw => c_nw c | se => c_se c | sw => c_sw c end.

Inductive key : Type :=
  | MetaRoot                (* 'meta:root' *)
  | NodeKey (i : uuid).     (* `node:${id}` *)

Inductive error : Type :=
  | NotFoundError       (* db.get on an absent key *)
  | TypeError           (* property access on undefined *)
  | PointNotFound.      (* new Error('Point not found') *)

Inductive outcome (A : Type) : Type :=
  | Done (a : A)
  | Throw (e : error)
  | OutOfFuel.
Arguments Done {A} a.
Arguments Throw {A} e.
Arguments OutOfFuel {A}.

Record DiskQuadTree : Type := { rootId : uuid; capacity : nat }.

Declare Scope qt_scope.
Delimit Scope qt_scope with qt.
Local Open Scope qt_scope.

Section Model.
Context {num : Type} {arith : Arith num}.

(** A persisted node.  [children] is [None] while the field is absent. *)
Record Node : Type :=
  { id : uuid;
    boundary : Rectangle.t num;
    points : list (Point.t num);
    divided : bool;
    children : option Children }.

(** ** The world: store, identifier source, write trace *)

Record world : Type :=
  { meta_root : option uuid;        (* value under 'meta:root' *)
    nodes : gmap uuid Node;         (* values under `node:${id}` *)
    next_uuid : uuid;               (* the next identifier uuidv4() yields *)
    puts : list key }.              (* keys written so far, oldest first *)

Definition M (A : Type) : Type := world → outcome A * world.

Definition ret {A} (a : A) : M A := λ s, (Done a, s).
Definition throw {A} (e : error) : M A := λ s, (Throw e, s).
Definition out_of_fuel {A} : M A := λ s, (OutOfFuel, s).
Definition bind {A B} (m : M A) (k : A → M B) : M B :=
  λ s, match m s with
       | (Done a, s') => k a s'
       | (Throw e, s') => (Throw e, s')
       | (OutOfFuel, s') => (OutOfFuel, s')
       end.

Notation "'let*' x ':=' m 'in' k" := (bind m (λ x, k))
  (at level 10, x name, m at level 100, k at level 200) : qt_scope.
Notation "'await' m 'in' k" := (bind m (λ _, k))
  (at level 10, m at level 100, k at level 200) : qt_scope.

(** [await db.get(`node:${id}`)] *)
Definition db_get (i : uuid) : M Node :=
  λ s, match nodes s !! i with
       | Some n => (Done n, s)
       | None => (Throw NotFoundError, s)
       end.

(** [await db.put(`node:${id}`, node)] *)
Definition db_put (i : uuid) (n : Node) : M unit :=
  λ s, (Done tt,
        {| meta_root := meta_root s;
           nodes := <[i := n]> (nodes s);
           next_uuid := next_uuid s;
           puts := puts s ++ [NodeKey i] |}).

(** [await db.put('meta:root', rootId)] *)
Definition db_put_meta (r : uuid) : M unit :=
  λ s, (Done tt,
        {| meta_root := Some r;
           nodes := nodes s;
           next_uuid := next_uuid s;
           puts := puts s ++ [MetaRoot] |}).

(** [uuidv4()]: an identifier never handed out before. *)
Definition uuidv4 : M uuid :=
  λ s, (Done (next_uuid s),
        {| meta_root := meta_root s;
           nodes := nodes s;
           next_uuid := S (next_uuid s);
           puts := puts s |}).

(** ** Loops over the quadrant tags *)

(** [for (const dir of [...]) { const r = await f(dir); if (r) return r; }]
    followed by [return fallback]: the first truthy result ends the loop. *)
Fixpoint for_dirs_return {A} (truthy : A → bool) (f : dir → M A)
    (fallback : A) (ds : list dir) : M A :=
  match ds with
  | [] => ret fallback
  | d :: ds =>
      let* r := f d in
      if truthy r then ret r else for_dirs_return truthy f fallback ds
  end.

(** [for (const dir of [...]) await f(dir, found);] where every call
    pushes into the one array [found]. *)
Fixpoint for_dirs_push {B} (f : dir → B → M B) (ds : list dir) (found : B)
  : M B :=
  match ds with
  | [] => ret found
  | d :: ds => let* found := f d found in for_dirs_push f ds found
  end.

Definition truthy_bool (b : bool) : bool := b.
Definition truthy_object {A} (o : option A) : bool :=
  if o is Some _ then true else false.

(** ** The tree handle and its operations *)

(** [static async init(path, boundary, capacity = 4)]; the store opened
    at [path] is the current world. *)
Definition init (bnd : Rectangle.t num) (cap : option nat)
  : M DiskQuadTree :=
  let capacity := default 4%nat cap in
  λ s, match meta_root s with
       | Some r => (Done {| rootId := r; capacity := capacity |}, s)
       | None =>
           (let* r := uuidv4 in
            await db_put_meta r in
            await db_put r {| id := r; boundary := bnd; points := [];
                              divided := false; children := None |} in
            ret {| rootId := r; capacity := capacity |}) s
       end.

Section Operations.
Variable this : DiskQuadTree.

(** The boundary of the child created for quadrant [d]. *)
Definition child_boundary (b : Rectangle.t num) (d : dir) : Rectangle.t num :=
  let dx := if includes_e d then n_one else n_minus_one in
  let dy := if includes_s d then n_one else n_minus_one in
  {| Rectangle.x := (Rectangle.x b + dx * Rectangle.w b / n_two)%num;
     Rectangle.y := (Rectangle.y b + dy * Rectangle.h b / n_two)%num;
     Rectangle.w := (Rectangle.w b / n_two)%num;
     Rectangle.h := (Rectangle.h b / n_two)%num |}.

(** One iteration of the loop of [_subdivide]: a fresh child for [d]. *)
Definition make_child (node : Node) (d : dir) : M uuid :=
  let* i := uuidv4 in
  await db_put i {| id := i; boundary := child_boundary (boundary node) d;
                    points := []; divided := false; children := None |} in
  ret i.

(** [async _subdivide(node)]; the node object is mutated in place, so the
    mutated object is returned to the caller. *)
Definition _subdivide (node : Node) : M Node :=
  let* i_ne := make_child node ne in
  let* i_nw := make_child node nw in
  let* i_se := make_child node se in
  let* i_sw := make_child node sw in
  let node' :=
    {| id := id node; boundary := boundary node; points := points node;
       divided := true;
       children := Some {| c_ne := i_ne; c_nw := i_nw;
                           c_se := i_se; c_sw := i_sw |} |} in
  await db_put (id node) node' in
  ret node'.

(** [async _insert(nodeId, point)] *)
Fixpoint _insert (fuel : nat) (nodeId : uuid) (point : Point.t num) : M bool :=
  match fuel with
  | O => out_of_fuel
  | S fuel =>
      let* node := db_get nodeId in
      if negb (Rectangle.contains (boundary node) point) then ret false
      else if (length (points node) <? capacity this)%nat
              && negb (divided node) then
        await db_put nodeId
          {| id := id node; boundary := boundary node;
             points := points node ++ [point];
             divided := divided node; children := children node |} in
        ret true
      else
        let* node := (if negb (divided node) then _subdivide node else ret node) in
        match children node with
        | None => throw TypeError
        | Some ch =>
            for_dirs_return truthy_bool
              (λ d, _insert fuel (child ch d) point) false dirs
        end
  end.

(** [async insert(x, y, data)]: the boolean of [_insert] is dropped. *)
Definition insert (fuel : nat) (x y : num) (data : jsval) : M unit :=
  let point := Point.mk x y data in
  await _insert fuel (rootId this) point in
  ret tt.

(** [async _query(nodeId, range, found = [])]; [found] is the array the
    recursive calls all push into. *)
Fixpoint _query (fuel : nat) (nodeId : uuid) (range : Rectangle.t num)
    (found : list (Point.t num)) : M (list (Point.t num)) :=
  match fuel with
  | O => out_of_fuel
  | S fuel =>
      let* node := db_get nodeId in
      if negb (Rectangle.intersects (boundary node) range) then ret found
      else
        let found :=
          found ++ List.filter (Rectangle.contains range) (points node) in
        if divided node then
          match children node with
          | None => throw TypeError
          | Some ch =>
              for_dirs_push (λ d, _query fuel (child ch d) range) dirs found
          end
        else ret found
  end.

(** [async range(minX, minY, maxX, maxY)] *)
Definition query_rectangle (minX minY maxX maxY : num) : Rectangle.t num :=
  {| Rectangle.x := ((minX + maxX) / n_two)%num;
     Rectangle.y := ((minY + maxY) / n_two)%num;
     Rectangle.w := ((maxX - minX) / n_two)%num;
     Rectangle.h := ((maxY - minY) / n_two)%num |}.

Definition range (fuel : nat) (minX minY maxX maxY : num)
  : M (list (Point.t num)) :=
  _query fuel (rootId this) (query_rectangle minX minY maxX maxY) [].

(** The comparator of [nearest]: [da - db]. *)
Definition dist2 (x y : num) (a : Point.t num) : num :=
  (n_sqr (Point.x a - x) + n_sqr (Point.y a - y))%num.

Definition compare_dist (x y : num) (a b : Point.t num) : num :=
  (dist2 x y a - dist2 x y b)%num.

(** [Array.prototype.sort(cmp)]: a stable sort.  [a] stays before [b]
    unless [cmp(a, b) > 0]; a NaN result counts as 0.  ECMAScript fixes
    the sorted order only for a consistent comparator, and then it is the
    one of this insertion sort. *)
Fixpoint sort_insert (cmp : Point.t num → Point.t num → num)
    (a : Point.t num) (l : list (Point.t num)) : list (Point.t num) :=
  match l with
  | [] => [a]
  | b :: l' =>
      if (n_zero <? cmp a b)%num then b :: sort_insert cmp a l'
      else a :: b :: l'
  end.

Definition array_sort (cmp : Point.t num → Point.t num → num)
    (l : list (Point.t num)) : list (Point.t num) :=
  foldr (sort_insert cmp) [] l.

(** [async nearest(x, y, radius = 100)]; [None] is [null]. *)
Definition nearest (fuel : nat) (x y : num) (radius : option num)
  : M (option (Point.t num)) :=
  let radius := default n_hundred radius in
  let* candidates :=
    range fuel (x - radius)%num (y - radius)%num
      (x + radius)%num (y + radius)%num in
  let candidates := array_sort (compare_dist x y) candidates in
  ret (head candidates).

(** [p.x === x && p.y === y] *)
Definition same_location (x y : num) (p : Point.t num) : bool :=
  (Point.x p =? x)%num && (Point.y p =? y)%num.

(** [async _findPoint(nodeId, x, y)]; [None] is [null]. *)
Fixpoint _findPoint (fuel : nat) (nodeId : uuid) (x y : num)
  : M (option (Point.t num)) :=
  match fuel with
  | O => out_of_fuel
  | S fuel =>
      let* node := db_get nodeId in
      if negb (Rectangle.contains (boundary node) (Point.mk x y JUndefined))
      then ret None
      else
        match List.find (same_location x y) (points node) with
        | Some p => ret (Some p)
        | None =>
            if divided node then
              match children node with
              | None => throw TypeError
              | Some ch =>
                  for_dirs_return truthy_object
                    (λ d, _findPoint fuel (child ch d) x y) None dirs
              end
            else ret None
        end
  end.

(** The first argument of [_findNodeIdRecursive] is a node object on the
    call from [_findNodeId] and whatever [node.children[dir]] holds, an
    identifier string, on the recursive calls. *)
Inductive node_arg : Type :=
  | NodeObject (n : Node)
  | IdString (i : uuid).

(** [async _findNodeIdRecursive(node, x, y)]; reading [node.boundary.x]
    off a string throws a TypeError. *)
Fixpoint _findNodeIdRecursive (fuel : nat) (arg : node_arg) (x y : num)
  : M (option uuid) :=
  match fuel with
  | O => out_of_fuel
  | S fuel =>
      match arg with
      | IdString _ => throw TypeError
      | NodeObject node =>
          if negb (Rectangle.contains (boundary node)
                     (Point.mk x y JUndefined))
          then ret None
          else if existsb (same_location x y) (points node)
          then ret (Some (id node))
          else if divided node then
            match children node with
            | None => throw TypeError
            | Some ch =>
                for_dirs_return truthy_object
                  (λ d, _findNodeIdRecursive fuel (IdString (child ch d)) x y)
                  None dirs
            end
          else ret None
      end
  end.

(** [async _findNodeId(x, y)] *)
Definition _findNodeId (fuel : nat) (x y : num) : M (option uuid) :=
  let* node := db_get (rootId this) in
  _findNodeIdRecursive fuel (NodeObject node) x y.

(** [node.points[pointIndex].data = newJsonData] at the index
    [findIndex] returns; [None] when [findIndex] returns -1. *)
Fixpoint set_first_data (x y : num) (d : jsval) (l : list (Point.t num))
  : option (list (Point.t num)) :=
  match l with
  | [] => None
  | p :: l' =>
      if same_location x y p then Some (Point.set_data p d :: l')
      else cons p <$> set_first_data x y d l'
  end.

(** [async _updateNode(x, y, newJsonData)]; a [null] node id makes
    [db.get('node:null')] fail. *)
Definition _updateNode (fuel : nat) (x y : num) (newJsonData : jsval)
  : M unit :=
  let* nodeId := _findNodeId fuel x y in
  match nodeId with
  | None => throw NotFoundError
  | Some nodeId =>
      let* node := db_get nodeId in
      match set_first_data x y newJsonData (points node) with
      | Some pts =>
          db_put nodeId
            {| id := id node; boundary := boundary node; points := pts;
               divided := divided node; children := children node |}
      | None => ret tt
      end
  end.

(** [async update(x, y, newJsonData)]; the assignment [point.data =
    newJsonData] changes the object [db.get] deserialised, not the store. *)
Definition update (fuel : nat) (x y : num) (newJsonData : jsval) : M bool :=
  let* point := _findPoint fuel (rootId this) x y in
  match point with
  | None => throw PointNotFound
  | Some point =>
      await _updateNode fuel (Point.x point) (Point.y point) newJsonData in
      ret true
  end.
End Operations.

(** The store of a path never opened before. *)
Definition empty_world : world :=
  {| meta_root := None; nodes := ∅; next_uuid := 0; puts := [] |}.

(** * Vocabulary of the properties *)

(** The state of a single node record: an undivided node has no
    [children] field and holds at most [cap] points. *)
Definition node_state (cap : nat) (n : Node) : Prop :=
  divided n = false → children n = None ∧ length (points n) ≤ cap.

Definition node_inv (cap : nat) (s : world) : Prop :=
  ∀ k n, nodes s !! k = Some n → node_state cap n.

(** The shape of the store: every record sits under its own identifier,
    identifiers come from the generator, and the children of a divided node
    are younger records that carry the four quadrants of its boundary. *)
Record store_wf (s : world) : Prop :=
  { wf_key : ∀ k n, nodes s !! k = Some n → id n = k ∧ k < next_uuid s;
    wf_children : ∀ k n, nodes s !! k = Some n → divided n = true →
      ∃ ch, children n = Some ch ∧
        ∀ d, k < child ch d ∧
             ∃ c, nodes s !! child ch d = Some c ∧
                  boundary c = child_boundary (boundary n) d }.

(** [grows p s s']: [s'] extends [s]; records are only added, a divided
    record is never rewritten, an undivided one keeps its identity and the
    points it had, and the only point that may be new is [p]. *)
Record grows (p : Point.t num) (s s' : world) : Prop :=
  { grows_next : next_uuid s ≤ next_uuid s';
    grows_meta : meta_root s' = meta_root s;
    grows_old : ∀ k n, nodes s !! k = Some n →
      ∃ n', nodes s' !! k = Some n' ∧ id n' = id n ∧
            boundary n' = boundary n ∧
            (∃ l, points n' = points n ++ l) ∧
            (divided n = true → n' = n);
    grows_new : ∀ k n' q, nodes s' !! k = Some n' → q ∈ points n' →
      q = p ∨ ∃ n, nodes s !! k = Some n ∧ q ∈ points n }.

(** The store after [db.put] of a record that differs from the stored one
    in its points only. *)
Definition put_world (k : uuid) (n : Node) (s : world) : world :=
  snd (db_put k n s).

(** [node.points.push(point)] *)
Definition push_point (n : Node) (p : Point.t num) : Node :=
  {| id := id n; boundary := boundary n; points := points n ++ [p];
     divided := divided n; children := children n |}.

Definition new_child (b : Rectangle.t num) (d : dir) (i : uuid) : Node :=
  {| id := i; boundary := child_boundary b d; points := [];
     divided := false; children := None |}.

(** The identifiers the four calls of [uuidv4()] return. *)
Definition fresh_children (s : world) : Children :=
  {| c_ne := next_uuid s; c_nw := S (next_uuid s);
     c_se := S (S (next_uuid s)); c_sw := S (S (S (next_uuid s))) |}.

(** [node.divided = true; node.children = children] *)
Definition divide (n : Node) (ch : Children) : Node :=
  {| id := id n; boundary := boundary n; points := points n;
     divided := true; children := Some ch |}.

Definition subdivided (node : Node) (s : world) : world :=
  snd (_subdivide node s).

Definition insert_post (cap : nat) (p : Point.t num) (s s' : world) : Prop :=
  store_wf s' ∧ node_inv cap s' ∧ grows p s s'.

(** [holds s k p]: the subtree under [k] stores [p] in a node that is
    reached through boundaries that all contain [p]. *)
Inductive holds (s : world) : uuid → Point.t num → Prop :=
  | holds_here k n p :
      nodes s !! k = Some n → Rectangle.contains (boundary n) p = true →
      p ∈ points n → holds s k p
  | holds_child k n ch d p :
      nodes s !! k = Some n → Rectangle.contains (boundary n) p = true →
      divided n = true → children n = Some ch →
      holds s (child ch d) p → holds s k p.

(** [stored s p]: some record of the store lists [p]. *)
Definition stored (s : world) (p : Point.t num) : Prop :=
  ∃ k n, nodes s !! k = Some n ∧ p ∈ points n.

(** The store after the bootstrap of [init] on a store without a root. *)
Definition root_node (r : uuid) (bnd : Rectangle.t num) : Node :=
  {| id := r; boundary := bnd; points := []; divided := false;
     children := None |}.

Definition bootstrapped (bnd : Rectangle.t num) (s : world) : world :=
  {| meta_root := Some (next_uuid s);
     nodes := <[next_uuid s := root_node (next_uuid s) bnd]> (nodes s);
     next_uuid := S (next_uuid s);
     puts := (puts s ++ [MetaRoot]) ++ [NodeKey (next_uuid s)] |}.

(** [for (const p of pts) await tree.insert(p.x, p.y, p.data)] *)
Fixpoint insert_all (this : DiskQuadTree) (fuel : nat) (pts : list (Point.t num))
  : M unit :=
  match pts with
  | [] => ret tt
  | p :: pts =>
      await insert this fuel (Point.x p) (Point.y p) (Point.data p) in
      insert_all this fuel pts
  end.

(** Open the store, insert [pts] in order, then ask for a range. *)
Definition insert_then_range (fuel : nat) (bnd : Rectangle.t num)
    (cap : option nat) (pts : list (Point.t num)) (minX minY maxX maxY : num)
  : M (list (Point.t num)) :=
  let* tree := init bnd cap in
  await insert_all tree fuel pts in
  range tree fuel minX minY maxX maxY.

(** The boundary [b] and the boundaries that at most [n] subdivisions
    derive from it. *)
Fixpoint quadrants (n : nat) (b : Rectangle.t num) : list (Rectangle.t num) :=
  b :: match n with
       | O => []
       | S n => flat_map (λ d, quadrants n (child_boundary b d)) dirs
       end.

(** [covers b p]: if [b] contains [p], one of the four child boundaries
    of [b] contains [p], all tests as the program computes them. *)
Definition covers (b : Rectangle.t num) (p : Point.t num) : bool :=
  implb (Rectangle.contains b p)
    (existsb (λ d, Rectangle.contains (child_boundary b d) p) dirs).

(** [nests b p]: a child boundary of [b] contains [p] only if [b] does. *)
Definition nests (b : Rectangle.t num) (p : Point.t num) : bool :=
  forallb (λ d, implb (Rectangle.contains (child_boundary b d) p)
                  (Rectangle.contains b p)) dirs.

(** [meets b q p]: if [b] and [q] both contain [p], the overlap test
    finds that they intersect. *)
Definition meets (b q : Rectangle.t num) (p : Point.t num) : bool :=
  implb (Rectangle.contains b p && Rectangle.contains q p)
    (Rectangle.intersects b q).

(** The three conditions on every record of a store. *)
Definition store_covers (s : world) (p : Point.t num) : Prop :=
  ∀ k n, nodes s !! k = Some n → covers (boundary n) p = true.

Definition store_nests (s : world) (p : Point.t num) : Prop :=
  ∀ k n, nodes s !! k = Some n → nests (boundary n) p = true.

Definition store_meets (s : world) (q : Rectangle.t num) (p : Point.t num)
  : Prop :=
  ∀ k n, nodes s !! k = Some n → meets (boundary n) q p = true.

(** The same conditions on the quadrants that [n] subdivisions can derive
    from the universe [bnd], for the points [pts]: rounding does no harm
    when [pts] are inserted ([splits_well], [nests_well]) and then
    looked for in [q] ([meets_well]). *)
Definition on_quadrants (n : nat) (bnd : Rectangle.t num)
    (pts : list (Point.t num)) (ok : Rectangle.t num → Point.t num → bool)
  : bool :=
  forallb (λ b, forallb (ok b) pts) (quadrants n bnd).

Definition splits_well (n : nat) (bnd : Rectangle.t num)
    (pts : list (Point.t num)) : bool :=
  on_quadrants n bnd pts covers.

Definition nests_well (n : nat) (bnd : Rectangle.t num)
    (pts : list (Point.t num)) : bool :=
  on_quadrants n bnd pts nests.

Definition meets_well (n : nat) (bnd q : Rectangle.t num)
    (pts : list (Point.t num)) : bool :=
  on_quadrants n bnd pts (λ b, meets b q).

(** The numbers of a point and of a rectangle are read back from the
    store as they were written. *)
Definition point_survives (p : Point.t num) : bool :=
  n_survives (Point.x p) && n_survives (Point.y p).

Definition rectangle_survives (r : Rectangle.t num) : bool :=
  n_survives (Rectangle.x r) && n_survives (Rectangle.y r)
  && n_survives (Rectangle.w r) && n_survives (Rectangle.h r).

(** [stores_well n bnd pts]: the store keeps every number that inserts of
    [pts] into the universe [bnd] can write, the coordinates of the points
    and of the quadrants. *)
Definition stores_well (n : nat) (bnd : Rectangle.t num)
    (pts : list (Point.t num)) : bool :=
  forallb rectangle_survives (quadrants n bnd) && forallb point_survives pts.

(** [writes_survive s p]: the store keeps every number that an insert of
    [p] into [s] can write, the coordinates of [p] and of the quadrants of a
    stored boundary. *)
Definition writes_survive (s : world) (p : Point.t num) : Prop :=
  point_survives p = true
  ∧ ∀ k n d, nodes s !! k = Some n →
             rectangle_survives (child_boundary (boundary n) d) = true.

(** What the comparator [f(a) - f(b)] says of [a] and [b]: [a] sorts
    after [b] when the result is above 0, before [b] when it is below 0,
    and the two are the same to it otherwise; a NaN result counts as 0. *)
Definition sorts_after (f : Point.t num → num) (a b : Point.t num) : bool :=
  (n_zero <? f a - f b)%num.

Definition sorts_before (f : Point.t num → num) (a b : Point.t num) : bool :=
  (f a - f b <? n_zero)%num.

Definition sorts_same (f : Point.t num → num) (a b : Point.t num) : bool :=
  negb (sorts_before f a b) && negb (sorts_after f a b).

(** [consistent f l]: on the elements of [l] the comparator [f(a) - f(b)]
    is a consistent comparator in the sense of ECMAScript: "same" is
    reflexive, symmetric and transitive, "before" and "after" are
    transitive, and no result is both below and above 0. *)
Definition consistent (f : Point.t num → num) (l : list (Point.t num))
  : bool :=
  forallb (λ a, forallb (λ b, forallb (λ c,
    sorts_same f a a
    && negb (sorts_before f a b && sorts_after f a b)
    && implb (sorts_same f a b) (sorts_same f b a)
    && implb (sorts_same f a b && sorts_same f b c) (sorts_same f a c)
    && implb (sorts_before f a b && sorts_before f b c) (sorts_before f a c)
    && implb (sorts_after f a b && sorts_after f b c) (sorts_after f a c))
    l) l) l.

(** What is known of the store once [pts] have been inserted into the
    tree [this] over the universe [bnd]. *)
Record filled (this : DiskQuadTree) (bnd : Rectangle.t num)
    (pts : list (Point.t num)) (s : world) : Prop :=
  { filled_wf : store_wf s;
    filled_inv : node_inv (capacity this) s;
    filled_root : ∃ n, nodes s !! rootId this = Some n ∧ boundary n = bnd;
    filled_holds : ∀ p, p ∈ pts → holds s (rootId this) p;
    filled_stored : ∀ p, stored s p → p ∈ pts;
    filled_next : next_uuid s - rootId this ≤ 1 + 4 * length pts;
    filled_quadrant : ∀ k n, nodes s !! k = Some n →
      boundary n ∈ quadrants (length pts) bnd }.

(** [raises r]: the run [r] ended with a thrown exception. *)
Definition raises {A} (r : outcome A * world) : Prop :=
  ∃ e, fst r = Throw e.

(** [in_subtree s k k']: [k'] is [k] or a descendant of [k] along the
    [children] maps of divided nodes. *)
Inductive in_subtree (s : world) : uuid → uuid → Prop :=
  | in_subtree_here k : in_subtree s k k
  | in_subtree_child k n ch d k' :
      nodes s !! k = Some n → divided n = true → children n = Some ch →
      in_subtree s (child ch d) k' → in_subtree s k k'.

(** [node.points = pts], everything else as it was. *)
Definition with_points (n : Node) (pts : list (Point.t num)) : Node :=
  {| id := id n; boundary := boundary n; points := pts;
     divided := divided n; children := children n |}.

(** [divided_kept s s']: no record divided in [s] is missing or
    undivided in [s']. *)
Definition divided_kept (s s' : world) : Prop :=
  ∀ k n, nodes s !! k = Some n → divided n = true →
         ∃ n', nodes s' !! k = Some n' ∧ divided n' = true.

Definition outcome_map {A B} (f : A → B) (o : outcome A) : outcome B :=
  match o with
  | Done a => Done (f a)
  | Throw e => Throw e
  | OutOfFuel => OutOfFuel
  end.

(** The calls a client can make on a tree handle. *)
Inductive operation : Type :=
  | Insert (x y : num) (data : jsval)
  | Update (x y : num) (data : jsval)
  | Range (minX minY maxX maxY : num)
  | Nearest (x y : num) (radius : option num).

(** The store a call leaves behind, whatever its outcome. *)
Definition run (this : DiskQuadTree) (fuel : nat) (op : operation)
    (s : world) : world :=
  match op with
  | Insert x y data => snd (insert this fuel x y data s)
  | Update x y data => snd (update this fuel x y data s)
  | Range minX minY maxX maxY => snd (range this fuel minX minY maxX maxY s)
  | Nearest x y radius => snd (nearest this fuel x y radius s)
  end.

(** The stores a tree handle can see: the one [init] leaves on a fresh
    store, and those any sequence of calls leads to from there. *)
Inductive reachable (this : DiskQuadTree) (bnd : Rectangle.t num)
  : world → Prop :=
  | reachable_init s0 cap s :
      meta_root s0 = None → nodes s0 = ∅ →
      init bnd cap s0 = (Done this, s) → reachable this bnd s
  | reachable_step s fuel op :
      reachable this bnd s → reachable this bnd (run this fuel op s).

(** The store after an insertion of [p] that ends in the undivided node
    [leaf], stored under [l]: the leaf takes the point when it has room;
    otherwise it is subdivided and the first new child whose boundary
    contains the point takes it. *)
Definition pushed (l : uuid) (leaf : Node) (p : Point.t num) (s : world) : world :=
  put_world l (push_point leaf p) s.

Definition split_pushed (leaf : Node) (d : dir) (p : Point.t num) (s : world)
  : world :=
  let c := child (fresh_children s) d in
  put_world c (push_point (new_child (boundary leaf) d c) p)
    (subdivided leaf s).

Definition insert_effect (cap : nat) (p : Point.t num) (s : world)
    (l : uuid) (leaf : Node) (s' : world) : Prop :=
  nodes s !! l = Some leaf ∧ divided leaf = false
  ∧ Rectangle.contains (boundary leaf) p = true
  ∧ ((length (points leaf) < cap ∧ s' = pushed l leaf p s)
     ∨ (cap ≤ length (points leaf)
        ∧ ∃ d, Rectangle.contains (child_boundary (boundary leaf) d) p = true
               ∧ s' = split_pushed leaf d p s)).

(** The shape of a subtree: the identifiers of its records, laid out as
    the [children] maps link them. *)
Inductive shape : Type :=
  | SLeaf (k : uuid)
  | SNode (k : uuid) (t_ne t_nw t_se t_sw : shape).

Definition root_of (t : shape) : uuid :=
  match t with SLeaf k | SNode k _ _ _ _ => k end.

(** The identifiers of a subtree in pre-order. *)
Fixpoint ids (t : shape) : list uuid :=
  match t with
  | SLeaf k => [k]
  | SNode k a b c d => k :: ids a ++ ids b ++ ids c ++ ids d
  end.

Fixpoint depth (t : shape) : nat :=
  match t with
  | SLeaf _ => 1
  | SNode _ a b c d =>
      S (Nat.max (Nat.max (depth a) (depth b)) (Nat.max (depth c) (depth d)))
  end.

(** [repr s t]: the records of [s] are linked as [t] says. *)
Fixpoint repr (s : world) (t : shape) : Prop :=
  match t with
  | SLeaf k => ∃ n, nodes s !! k = Some n ∧ divided n = false
  | SNode k a b c d =>
      ∃ n, nodes s !! k = Some n ∧ divided n = true
           ∧ children n = Some {| c_ne := root_of a; c_nw := root_of b;
                                  c_se := root_of c; c_sw := root_of d |}
           ∧ repr s a ∧ repr s b ∧ repr s c ∧ repr s d
  end.

(** The points listed by the record under [k]. *)
Definition points_at (s : world) (k : uuid) : list (Point.t num) :=
  match nodes s !! k with Some n => points n | None => [] end.

(** All points of a subtree, in pre-order. *)
Definition all_points (s : world) (t : shape) : list (Point.t num) :=
  flat_map (points_at s) (ids t).

(** What a query collects from a subtree. *)
Fixpoint collected (s : world) (q : Rectangle.t num) (t : shape)
  : list (Point.t num) :=
  match nodes s !! root_of t with
  | Some n =>
      if Rectangle.intersects (boundary n) q then
        List.filter (Rectangle.contains q) (points n)
        ++ match t with
           | SLeaf _ => []
           | SNode _ a b c d =>
               collected s q a ++ collected s q b
               ++ collected s q c ++ collected s q d
           end
      else []
  | None => []
  end.

(** Every stored point lies in the boundary of the record that lists it. *)
Definition points_inside (s : world) : Prop :=
  ∀ k n p, nodes s !! k = Some n → p ∈ points n →
           Rectangle.contains (boundary n) p = true.

(** [graft l new t]: the shape [t] with the leaf [l] replaced by [new]. *)
Fixpoint graft (l : uuid) (new : shape) (t : shape) : shape :=
  match t with
  | SLeaf j => if decide (j = l) then new else SLeaf j
  | SNode j a b c d =>
      SNode j (graft l new a) (graft l new b) (graft l new c) (graft l new d)
  end.

(** The shape of a leaf that was just subdivided. *)
Definition split_shape (l : uuid) (ch : Children) : shape :=
  SNode l (SLeaf (c_ne ch)) (SLeaf (c_nw ch)) (SLeaf (c_se ch))
    (SLeaf (c_sw ch)).

(** [counted this pts s]: the tree under the root of [this] lists exactly
    the points [pts], each as often as [pts] does, every record of the tree
    is reached along one path only, and every point lies in the boundary of
    its record. *)
Definition counted (this : DiskQuadTree) (pts : list (Point.t num)) (s : world)
  : Prop :=
  points_inside s
  ∧ ∃ t, root_of t = rootId this ∧ repr s t ∧ NoDup (ids t)
         ∧ all_points s t ≡ₚ pts.
End Model.

Notation "'let*' x ':=' m 'in' k" := (bind m (λ x, k))
  (at level 10, x name, m at level 100, k at level 200) : qt_scope.
Notation "'await' m 'in' k" := (bind m (λ _, k))
  (at level 10, m at level 100, k at level 200) : qt_scope.

(** ** The scenario of the command shell, in exact arithmetic *)

(** The universe [0,100] x [0,100]. *)
Definition universe : Rectangle.t Q := Rectangle.mk 50%Q 50%Q 50%Q 50%Q.

Definition five_points : list (Point.t Q) :=
  [ Point.mk 10%Q 10%Q (JStr "a"); Point.mk 20%Q 20%Q (JStr "b");
    Point.mk 30%Q 30%Q (JStr "c"); Point.mk 40%Q 40%Q (JStr "d");
    Point.mk 15%Q 15%Q (JStr "e") ].

(** The tree handle and the store of the scenario: capacity 4, the five
    points inserted in order, the fifth one forcing the root to subdivide. *)
Definition five_tree : DiskQuadTree := {| rootId := 0; capacity := 4 |}.

Definition five_world : world :=
  snd (insert_all five_tree 30 five_points (bootstrapped universe empty_world)).

(** The root of the scenario just before the fifth insert. *)
Definition four_world : world :=
  snd (insert_all five_tree 30 (take 4 five_points)
         (bootstrapped universe empty_world)).

(** [strictly_inside r p]: [p] lies in the interior of [r]. *)
Definition strictly_inside (r : Rectangle.t Q) (p : Point.t Q) : Prop :=
  (Rectangle.x r - Rectangle.w r < Point.x p
   ∧ Point.x p < Rectangle.x r + Rectangle.w r
   ∧ Rectangle.y r - Rectangle.h r < Point.y p
   ∧ Point.y p < Rectangle.y r + Rectangle.h r)%Q.

(** ** The same scenario, and three others, in binary64 *)

Definition universe64 : Rectangle.t float :=
  Rectangle.mk 50%float 50%float 50%float 50%float.

Definition five_points64 : list (Point.t float) :=
  [ Point.mk 10%float 10%float (JStr "a");
    Point.mk 20%float 20%float (JStr "b");
    Point.mk 30%float 30%float (JStr "c");
    Point.mk 40%float 40%float (JStr "d");
    Point.mk 15%float 15%float (JStr "e") ].

Definition five_world64 : world :=
  snd (insert_all five_tree 30 five_points64
         (bootstrapped universe64 empty_world)).

Definition four_world64 : world :=
  snd (insert_all five_tree 30 (take 4 five_points64)
         (bootstrapped universe64 empty_world)).

(** The double nearest to 65.7. *)
Definition c65_7 : float := 0x1.06ccccccccccdp+6%float.

(** Forty-nine points at (65.7, 65.7); the last one carries another
    payload. *)
Definition crowd : list (Point.t float) :=
  replicate 48 (Point.mk c65_7 c65_7 (JStr "a"))
  ++ [Point.mk c65_7 c65_7 (JStr "b")].

(** The double nearest to 1e-9, and the smallest positive double,
    5e-324. *)
Definition c1e_9 : float := 0x1.12e0be826d695p-30%float.
Definition c5e_324 : float := 0x1p-1074%float.

(** Two points whose squared distances from the origin both round to 25. *)
Definition far_point : Point.t float := Point.mk 5%float c1e_9 (JStr "far").
Definition near_point : Point.t float := Point.mk 3%float 4%float (JStr "near").

Definition two_world : world :=
  snd (insert_all five_tree 30 [far_point; near_point]
         (bootstrapped universe64 empty_world)).

(** The doubles nearest to 0.2, 0.3 and 0.8, and the double just below
    the one nearest to 0.2. *)
Definition c0_2 : float := 0x1.999999999999ap-3%float.
Definition c0_3 : float := 0x1.3333333333333p-2%float.
Definition c0_8 : float := 0x1.999999999999ap-1%float.
Definition below_0_2 : float := 0x1.9999999999999p-3%float.

(** The universe [0,1] x [0,1] with one point just left of x = 0.2. *)
Definition unit_square : Rectangle.t float :=
  Rectangle.mk 0.5%float 0.5%float 0.5%float 0.5%float.

Definition edge_point : Point.t float :=
  Point.mk below_0_2 0.5%float (JStr "edge").

Definition edge_world : world :=
  snd (insert_all five_tree 30 [edge_point]
         (bootstrapped unit_square empty_world)).

(** The universe [0.2,0.8] x [0.2,0.8] and a point on its left edge. *)
Definition narrow_square : Rectangle.t float :=
  Rectangle.mk 0.5%float 0.5%float c0_3 c0_3.

Definition left_point : Point.t float :=
  Point.mk c0_2 0.5%float (JStr "left").

(** The quadrant that forty-seven subdivisions of [universe64] reach
    around (65.7, 65.7): its half-extent is 50 / 2^47. *)
Definition tiny_square : Rectangle.t float :=
  Rectangle.mk c65_7 c65_7 0x1.9p-42%float 0x1.9p-42%float.

(** The squared distance of [p] from [(x, y)] without rounding. *)
Definition exact_dist2 (x y : float) (p : Point.t float) : option Q :=
  match exact_value x, exact_value y,
        exact_value (Point.x p), exact_value (Point.y p) with
  | Some x, Some y, Some px, Some py =>
      Some ((px - x) ^ 2 + (py - y) ^ 2)%Q
  | _, _, _, _ => None
  end.

(** * Properties of the program, whatever the arithmetic *)

Section Generic.
Context {num : Type} {arith : Arith num}.
Local Abbreviation world := (world (num:=num)) (only parsing).
Local Abbreviation Node := (Node (num:=num)) (only parsing).
Local Abbreviation M := (M (num:=num)) (only parsing).
Implicit Types (s : world) (n : Node) (p : Point.t num).

(** ** Geometry *)

Lemma covers_spec (b : Rectangle.t num) (p : Point.t num) :
  covers b p = true → Rectangle.contains b p = true →
  ∃ d, Rectangle.contains (child_boundary b d) p = true.
Proof.
  unfold covers. intros H Hc. rewrite Hc in H. cbn [implb] in H.
  apply existsb_exists in H as (d & _ & Hd). eauto.
Qed.

Lemma nests_spec (b : Rectangle.t num) (p : Point.t num) (d : dir) :
  nests b p = true → Rectangle.contains (child_boundary b d) p = true →
  Rectangle.contains b p = true.
Proof.
  unfold nests. rewrite forallb_forall. intros H Hc.
  specialize (H d). rewrite Hc in H. apply H.
  unfold dirs. destruct d; simpl; tauto.
Qed.

Lemma meets_spec (b q : Rectangle.t num) (p : Point.t num) :
  meets b q p = true → Rectangle.contains b p = true →
  Rectangle.contains q p = true → Rectangle.intersects b q = true.
Proof. unfold meets. intros H Hb Hq. by rewrite Hb, Hq in H. Qed.

Lemma quadrants_here (n : nat) (b : Rectangle.t num) : b ∈ quadrants n b.
Proof. destruct n; simpl; apply elem_of_cons; by left. Qed.

Lemma quadrants_S (n : nat) (b : Rectangle.t num) :
  quadrants (S n) b
  = b :: flat_map (λ d, quadrants n (child_boundary b d)) dirs.
Proof. done. Qed.

Lemma elem_of_quadrants_S (n : nat) (b b' : Rectangle.t num) :
  b' ∈ quadrants (S n) b
  ↔ b' = b ∨ ∃ d, b' ∈ quadrants n (child_boundary b d).
Proof.
  rewrite quadrants_S, elem_of_cons, list_elem_of_In, in_flat_map.
  split; (intros [?|H]; [by left|right]).
  - destruct H as (d & _ & H). exists d. by apply list_elem_of_In.
  - destruct H as (d & H). exists d.
    split; [unfold dirs; destruct d; simpl; tauto|by apply list_elem_of_In].
Qed.

Lemma quadrants_mono (n m : nat) (b b' : Rectangle.t num) :
  n ≤ m → b' ∈ quadrants n b → b' ∈ quadrants m b.
Proof.
  revert m b. induction n as [|n IH]; intros m b Hle Hin.
  - apply list_elem_of_singleton in Hin as ->. apply quadrants_here.
  - destruct m as [|m]; [lia|].
    apply elem_of_quadrants_S in Hin as [->|[d Hin]];
      apply elem_of_quadrants_S; [by left|right].
    exists d. apply IH; [lia|done].
Qed.

Lemma quadrants_child (n : nat) (b b' : Rectangle.t num) (d : dir) :
  b' ∈ quadrants n b → child_boundary b' d ∈ quadrants (S n) b.
Proof.
  revert b. induction n as [|n IH]; intros b Hin.
  - apply list_elem_of_singleton in Hin as ->.
    apply elem_of_quadrants_S. right. exists d. apply quadrants_here.
  - apply elem_of_quadrants_S in Hin as [->|[d' Hin]];
      apply elem_of_quadrants_S; right.
    + exists d. apply quadrants_here.
    + exists d'. by apply IH.
Qed.

Lemma on_quadrants_spec (n : nat) (bnd : Rectangle.t num) (pts : list (Point.t num))
    ok b p :
  on_quadrants n bnd pts ok = true → b ∈ quadrants n bnd → p ∈ pts →
  ok b p = true.
Proof.
  unfold on_quadrants. rewrite forallb_forall. intros H Hb Hp.
  apply list_elem_of_In in Hb, Hp.
  specialize (H b Hb). rewrite forallb_forall in H. auto.
Qed.

Lemma on_quadrants_mono (n m : nat) (bnd : Rectangle.t num) pts pts' ok :
  n ≤ m → pts ⊆ pts' →
  on_quadrants m bnd pts' ok = true → on_quadrants n bnd pts ok = true.
Proof.
  intros Hle Hsub H. unfold on_quadrants.
  apply forallb_forall. intros b Hb. apply forallb_forall. intros p Hp.
  apply (on_quadrants_spec m bnd pts'); [done| |].
  - apply (quadrants_mono n); [done|]. by apply list_elem_of_In.
  - apply Hsub. by apply list_elem_of_In.
Qed.


(** ** Store invariants *)

Lemma grows_refl p s : grows p s s.
Proof.
  split; [lia | done | | eauto].
  intros k n Hk. exists n. repeat split; auto. exists []. by rewrite app_nil_r.
Qed.

Lemma grows_trans p s1 s2 s3 : grows p s1 s2 → grows p s2 s3 → grows p s1 s3.
Proof.
  intros [N1 M1 O1 W1] [N2 M2 O2 W2]. split.
  - lia.
  - congruence.
  - intros k n Hk.
    destruct (O1 k n Hk) as (n2 & Hk2 & Hi2 & Hb2 & [l2 Hl2] & Hd2).
    destruct (O2 k n2 Hk2) as (n3 & Hk3 & Hi3 & Hb3 & [l3 Hl3] & Hd3).
    exists n3. repeat split; try congruence.
    + exists (l2 ++ l3). rewrite Hl3, Hl2. by rewrite app_assoc.
    + intros Hd. specialize (Hd2 Hd). subst n2. auto.
  - intros k n3 q Hk3 Hq.
    destruct (W2 k n3 q Hk3 Hq) as [?|(n2 & Hk2 & Hq2)]; [by left|].
    eauto.
Qed.

Lemma store_wf_put_same s k n n1 :
  store_wf s → nodes s !! k = Some n →
  id n1 = id n → boundary n1 = boundary n →
  divided n1 = divided n → children n1 = children n →
  store_wf (put_world k n1 s).
Proof.
  intros [Hkey Hch] Hk Hi Hb Hd Hc. split; simpl.
  - intros j m. rewrite lookup_insert. case_decide as Hj.
    + intros [= <-]. subst j. rewrite Hi. eauto.
    + eauto.
  - intros j m. rewrite lookup_insert. case_decide as Hj.
    + intros [= <-] Hdiv. subst j. rewrite Hd in Hdiv.
      destruct (Hch k n Hk Hdiv) as (ch & Hch1 & Hch2).
      exists ch. split; [congruence|]. intros d.
      destruct (Hch2 d) as (Hlt & c & Hc1 & Hc2). split; [done|].
      rewrite lookup_insert_ne by lia. exists c. split; [done|congruence].
    + intros Hm Hdiv. destruct (Hch j m Hm Hdiv) as (ch & Hch1 & Hch2).
      exists ch. split; [done|]. intros d.
      destruct (Hch2 d) as (Hlt & c & Hc1 & Hc2). split; [done|].
      rewrite lookup_insert. case_decide as Hcd.
      * exists n1. split; [done|]. rewrite <- Hcd in Hc1. congruence.
      * eauto.
Qed.

Lemma node_inv_put cap s k n1 :
  node_inv cap s → node_state cap n1 → node_inv cap (put_world k n1 s).
Proof.
  intros Hinv Hn1 j m. simpl. rewrite lookup_insert.
  case_decide; [by intros [= <-]|]. apply Hinv.
Qed.

Lemma grows_put_push p s k n :
  nodes s !! k = Some n → divided n = false →
  grows p s (put_world k (push_point n p) s).
Proof.
  intros Hk Hd. split; simpl; [lia | done | |].
  - intros j m Hj. rewrite lookup_insert. case_decide as Hjk.
    + subst j. assert (m = n) as -> by congruence.
      exists (push_point n p). repeat split; eauto. congruence.
    + exists m. repeat split; auto. exists []. by rewrite app_nil_r.
  - intros j m q. rewrite lookup_insert. case_decide as Hjk.
    + intros [= <-]. simpl. rewrite elem_of_app, list_elem_of_singleton.
      intros [?|?]; [right|by left]. subst j. eauto.
    + eauto.
Qed.

(** ** Subdivision, computed *)

Lemma _subdivide_done node s :
  _subdivide node s = (Done (divide node (fresh_children s)), subdivided node s).
Proof. reflexivity. Qed.

Lemma child_fresh s d : next_uuid s ≤ child (fresh_children s) d < 4 + next_uuid s.
Proof. destruct d; simpl; lia. Qed.

Lemma child_fresh_inj s d d' :
  child (fresh_children s) d = child (fresh_children s) d' → d = d'.
Proof. destruct d, d'; simpl; intros; (done || lia). Qed.

Lemma subdivided_lookup_parent node s :
  nodes (subdivided node s) !! id node = Some (divide node (fresh_children s)).
Proof. simpl. by rewrite lookup_insert_eq. Qed.

Lemma subdivided_lookup_child node s d :
  id node < next_uuid s →
  nodes (subdivided node s) !! child (fresh_children s) d
  = Some (new_child (boundary node) d (child (fresh_children s) d)).
Proof.
  intros Hlt. simpl. rewrite lookup_insert_ne by (destruct d; simpl; lia).
  destruct d; simpl;
    repeat (first [rewrite lookup_insert_eq | rewrite lookup_insert_ne by lia]);
    reflexivity.
Qed.

Lemma subdivided_lookup_old node s j :
  j ≠ id node → j < next_uuid s →
  nodes (subdivided node s) !! j = nodes s !! j.
Proof.
  intros Hne Hlt. simpl. by rewrite !lookup_insert_ne by lia.
Qed.

(** Every record of the subdivided store is the rewritten parent, one of
    the four new children or an untouched old record. *)
Lemma subdivided_lookup_inv node s j m :
  nodes (subdivided node s) !! j = Some m →
  (j = id node ∧ m = divide node (fresh_children s))
  ∨ (∃ d, j = child (fresh_children s) d ∧ m = new_child (boundary node) d j)
  ∨ (nodes s !! j = Some m ∧ j ≠ id node).
Proof.
  simpl. rewrite lookup_insert. case_decide as H0; [intros [= <-]; auto|].
  rewrite lookup_insert. case_decide as H1.
  { intros [= <-]. right; left. exists sw. by subst j. }
  rewrite lookup_insert. case_decide as H2.
  { intros [= <-]. right; left. exists se. by subst j. }
  rewrite lookup_insert. case_decide as H3.
  { intros [= <-]. right; left. exists nw. by subst j. }
  rewrite lookup_insert. case_decide as H4.
  { intros [= <-]. right; left. exists ne. by subst j. }
  intros Hj. right; right. auto.
Qed.

Lemma store_wf_subdivided s k node :
  store_wf s → nodes s !! k = Some node →
  store_wf (subdivided node s).
Proof.
  intros Hwf Hk. destruct (wf_key s Hwf k node Hk) as [Hid Hlt].
  split.
  - intros j m Hj. apply subdivided_lookup_inv in Hj.
    destruct Hj as [[-> ->]|[(d & Hd & ->)|[Hj Hne]]].
    + simpl. split; [done|lia].
    + simpl. split; [done|]. pose proof (child_fresh s d). lia.
    + destruct (wf_key s Hwf j m Hj). split; [done|]. simpl. lia.
  - intros j m Hj Hdiv. apply subdivided_lookup_inv in Hj.
    destruct Hj as [[-> ->]|[(d & Hd & ->)|[Hj Hne]]].
    + exists (fresh_children s). split; [done|]. intros d.
      pose proof (child_fresh s d). split; [lia|].
      rewrite subdivided_lookup_child by lia. eauto.
    + done.
    + destruct (wf_children s Hwf j m Hj Hdiv) as (ch & Hch1 & Hch2).
      exists ch. split; [done|]. intros d.
      destruct (Hch2 d) as (Hlt' & c & Hc1 & Hc2). split; [done|].
      destruct (wf_key s Hwf _ c Hc1) as [_ Hclt].
      destruct (decide (child ch d = id node)) as [Heq|Hneq].
      * rewrite Heq, subdivided_lookup_parent. eexists; split; [done|].
        simpl. rewrite <- Hc2. rewrite Heq, Hid in Hc1. congruence.
      * rewrite subdivided_lookup_old by done. eauto.
Qed.

Lemma node_inv_subdivided cap s node :
  node_inv cap s → node_inv cap (subdivided node s).
Proof.
  intros Hinv j m Hj. apply subdivided_lookup_inv in Hj.
  destruct Hj as [[-> ->]|[(d & Hd & ->)|[Hj Hne]]].
  - intros Hd. done.
  - intros _. simpl. split; [done|lia].
  - eauto.
Qed.

Lemma grows_subdivided p s k node :
  store_wf s → nodes s !! k = Some node → divided node = false →
  grows p s (subdivided node s).
Proof.
  intros Hwf Hk Hund. destruct (wf_key s Hwf k node Hk) as [Hid Hlt].
  split.
  - simpl. lia.
  - done.
  - intros j m Hj. destruct (wf_key s Hwf j m Hj) as [_ Hjlt].
    destruct (decide (j = id node)) as [->|Hne].
    + rewrite subdivided_lookup_parent. rewrite Hid in Hj.
      assert (m = node) as -> by congruence.
      eexists; split; [done|]. simpl. repeat split; auto.
      * exists []. by rewrite app_nil_r.
      * congruence.
    + rewrite subdivided_lookup_old by done.
      exists m. repeat split; auto. exists []. by rewrite app_nil_r.
  - intros j m q Hj Hq. apply subdivided_lookup_inv in Hj.
    destruct Hj as [[-> ->]|[(d & Hd & ->)|[Hj Hne]]].
    + right. exists node. split; [congruence|done].
    + simpl in Hq. by apply elem_of_nil in Hq.
    + eauto.
Qed.

(** ** One step of [_insert] *)

Section InsertSteps.
Variable this : DiskQuadTree.
Variables (fuel : nat) (k : uuid) (p : Point.t num) (s : world).

Lemma _insert_missing :
  nodes s !! k = None →
  _insert this (S fuel) k p s = (Throw NotFoundError, s).
Proof. intros Hk. simpl. unfold bind, db_get. by rewrite Hk. Qed.

Lemma _insert_reject n :
  nodes s !! k = Some n → Rectangle.contains (boundary n) p = false →
  _insert this (S fuel) k p s = (Done false, s).
Proof. intros Hk Hc. simpl. unfold bind, db_get. by rewrite Hk, Hc. Qed.

Lemma _insert_push n :
  nodes s !! k = Some n → Rectangle.contains (boundary n) p = true →
  length (points n) < capacity this → divided n = false →
  _insert this (S fuel) k p s = (Done true, put_world k (push_point n p) s).
Proof.
  intros Hk Hc Hlen Hd. unfold put_world, push_point. simpl.
  unfold bind at 1, db_get. rewrite Hk, Hc.
  apply Nat.ltb_lt in Hlen. rewrite Hlen, Hd. reflexivity.
Qed.

Lemma _insert_split n :
  nodes s !! k = Some n → Rectangle.contains (boundary n) p = true →
  capacity this ≤ length (points n) → divided n = false →
  _insert this (S fuel) k p s
  = for_dirs_return truthy_bool
      (λ d, _insert this fuel (child (fresh_children s) d) p) false dirs
      (subdivided n s).
Proof.
  intros Hk Hc Hlen Hd. simpl. unfold bind at 1, db_get. rewrite Hk, Hc.
  apply Nat.ltb_ge in Hlen. rewrite Hlen, Hd. reflexivity.
Qed.

Lemma _insert_descend n ch :
  nodes s !! k = Some n → Rectangle.contains (boundary n) p = true →
  divided n = true → children n = Some ch →
  _insert this (S fuel) k p s
  = for_dirs_return truthy_bool
      (λ d, _insert this fuel (child ch d) p) false dirs s.
Proof.
  intros Hk Hc Hd Hch. simpl. unfold bind at 1, db_get. rewrite Hk, Hc, Hd.
  rewrite andb_false_r. simpl. unfold bind at 1, ret. by rewrite Hch.
Qed.

Lemma _insert_no_children n :
  nodes s !! k = Some n → Rectangle.contains (boundary n) p = true →
  divided n = true → children n = None →
  _insert this (S fuel) k p s = (Throw TypeError, s).
Proof.
  intros Hk Hc Hd Hch. simpl. unfold bind at 1, db_get. rewrite Hk, Hc, Hd.
  rewrite andb_false_r. simpl. unfold bind at 1, ret. by rewrite Hch.
Qed.
End InsertSteps.

Lemma for_dirs_return_inv {A} (I : world → Prop) truthy (f : dir → M A) fb ds s :
  (∀ d s, I s → I (snd (f d s))) → I s →
  I (snd (for_dirs_return truthy f fb ds s)).
Proof.
  intros Hf. revert s. induction ds as [|d ds IH]; intros s Hs; simpl; [done|].
  unfold bind. specialize (Hf d s Hs).
  destruct (f d s) as [[r|e|] s1]; simpl in *; auto.
  destruct (truthy r); simpl; auto.
Qed.

Lemma insert_post_refl cap p s :
  store_wf s → node_inv cap s → insert_post cap p s s.
Proof. intros. split; [done|]. split; [done|apply grows_refl]. Qed.

Lemma insert_post_trans cap p s1 s2 s3 :
  insert_post cap p s1 s2 → insert_post cap p s2 s3 → insert_post cap p s1 s3.
Proof.
  intros (?&?&?) (?&?&?). split; [done|]. split; [done|].
  by eapply grows_trans.
Qed.

Lemma _insert_inv this fuel k p s :
  store_wf s → node_inv (capacity this) s →
  insert_post (capacity this) p s (snd (_insert this fuel k p s)).
Proof.
  revert k s. induction fuel as [|fuel IH]; intros k s Hwf Hinv.
  { by apply insert_post_refl. }
  assert (Hloop : ∀ ch s1, insert_post (capacity this) p s s1 →
    insert_post (capacity this) p s
      (snd (for_dirs_return truthy_bool
              (λ d, _insert this fuel (child ch d) p) false dirs s1))).
  { intros ch s1 Hs1. apply for_dirs_return_inv; [|done].
    intros d s2 Hs2. eapply insert_post_trans; [done|].
    destruct Hs2 as (?&?&?). by apply IH. }
  destruct (nodes s !! k) as [node|] eqn:Hk.
  2:{ rewrite _insert_missing by done. by apply insert_post_refl. }
  destruct (Rectangle.contains (boundary node) p) eqn:Hc.
  2:{ erewrite _insert_reject by done. by apply insert_post_refl. }
  destruct (divided node) eqn:Hd.
  - destruct (children node) as [ch|] eqn:Hch.
    + erewrite _insert_descend by done. apply Hloop.
      by apply insert_post_refl.
    + erewrite _insert_no_children by done.
      by apply insert_post_refl.
  - destruct (decide (length (points node) < capacity this)) as [Hlen|Hlen].
    + erewrite _insert_push by done. split; [|split].
      * eapply store_wf_put_same; eauto.
      * apply node_inv_put; [done|]. intros _. simpl.
        destruct (Hinv k node Hk Hd) as [-> _]. split; [done|].
        rewrite length_app. simpl. lia.
      * by apply grows_put_push.
    + erewrite _insert_split by (done || lia). apply Hloop. split; [|split].
      * eapply store_wf_subdivided; eauto.
      * by apply node_inv_subdivided.
      * eapply grows_subdivided; eauto.
Qed.

(** ** Where an inserted point ends up *)

Lemma holds_grows q s s' k p : grows q s s' → holds s k p → holds s' k p.
Proof.
  intros Hg. induction 1 as [k n p Hk Hc Hp|k n ch d p Hk Hc Hd Hch _ IH].
  - destruct (grows_old q s s' Hg k n Hk) as (n' & Hk' & _ & Hb & [l Hl] & _).
    eapply holds_here; [done|congruence|].
    rewrite Hl. apply elem_of_app. by left.
  - destruct (grows_old q s s' Hg k n Hk) as (n' & Hk' & _ & _ & _ & Hsame).
    rewrite (Hsame Hd) in Hk'. by eapply holds_child.
Qed.

(** The loop of [_insert] stops at the first quadrant that accepts. *)
Lemma for_dirs_return_first (f : dir → M bool) (P : dir → bool)
    (Q : dir → world → Prop) (s : world) (ds : list dir) :
  (∃ d, d ∈ ds ∧ P d = true) →
  (∀ d, P d = false → f d s = (Done false, s)) →
  (∀ d, P d = true → ∃ s', f d s = (Done true, s') ∧ Q d s') →
  ∃ d s', for_dirs_return truthy_bool f false ds s = (Done true, s') ∧ Q d s'.
Proof.
  intros Hex Hrej Hacc. induction ds as [|d ds IH].
  { destruct Hex as (d & Hd & _). by apply elem_of_nil in Hd. }
  simpl. unfold bind. destruct (P d) eqn:HP.
  - destruct (Hacc d HP) as (s' & -> & HQ). simpl. eauto.
  - rewrite (Hrej d HP). simpl. apply IH.
    destruct Hex as (d' & Hd' & HP'). exists d'. split; [|done].
    apply elem_of_cons in Hd' as [->|?]; [congruence|done].
Qed.

Lemma elem_of_dirs d : d ∈ dirs.
Proof. unfold dirs. destruct d; set_solver. Qed.

(** A point inside the boundary of node [k] is accepted below [k], given
    fuel for the depth of the store ([next_uuid s - k] bounds it, since
    children are younger than their parent). *)
Lemma _insert_accepts this fuel k p s n :
  store_wf s → node_inv (capacity this) s → 1 ≤ capacity this →
  store_covers s p →
  nodes s !! k = Some n → Rectangle.contains (boundary n) p = true →
  next_uuid s - k < fuel →
  ∃ s', _insert this fuel k p s = (Done true, s')
        ∧ holds s' k p ∧ next_uuid s' ≤ 4 + next_uuid s.
Proof.
  revert k s n.
  induction fuel as [|fuel IH];
    intros k s n Hwf Hinv Hcap Hcov Hk Hc Hfuel; [lia|].
  destruct (wf_key s Hwf k n Hk) as [Hid Hlt].
  destruct (divided n) eqn:Hd.
  - (* an internal node: descend into the quadrant of [p] *)
    destruct (wf_children s Hwf k n Hk Hd) as (ch & Hch & Hlinks).
    erewrite _insert_descend by done.
    destruct (for_dirs_return_first
                (λ d, _insert this fuel (child ch d) p)
                (λ d, Rectangle.contains (child_boundary (boundary n) d) p)
                (λ d s', holds s' (child ch d) p
                         ∧ next_uuid s' ≤ 4 + next_uuid s
                         ∧ grows p s s') s dirs)
      as (d & s' & Hrun & Hh & Hn & Hg).
    + destruct (covers_spec _ _ (Hcov k n Hk) Hc) as [d Hd']. exists d.
      split; [apply elem_of_dirs|done].
    + intros d Hrej. destruct (Hlinks d) as (Hkd & c & Hcd & Hcb).
      destruct fuel as [|fuel]; [lia|].
      eapply _insert_reject; [done|]. by rewrite Hcb.
    + intros d Hacc. destruct (Hlinks d) as (Hkd & c & Hcd & Hcb).
      destruct (IH (child ch d) s c) as (s' & Hrun & Hh & Hn);
        [done|done|done|done|done|by rewrite Hcb|lia|].
      exists s'. split; [done|]. split; [done|]. split; [done|].
      pose proof (_insert_inv this fuel (child ch d) p s Hwf Hinv) as Hpost.
      rewrite Hrun in Hpost. apply Hpost.
    + exists s'. split; [done|]. split; [|done].
      destruct (grows_old p s s' Hg k n Hk) as (n' & Hk' & _ & _ & _ & Hsame).
      rewrite (Hsame Hd) in Hk'. by eapply holds_child.
  - destruct (decide (length (points n) < capacity this)) as [Hlen|Hlen].
    + (* a leaf with room *)
      erewrite _insert_push by done. eexists. split; [done|].
      split; [|simpl; lia].
      eapply holds_here; [apply lookup_insert_eq|done|].
      simpl. apply elem_of_app. right. by apply list_elem_of_singleton.
    + (* a full leaf: subdivide, then one of the new leaves accepts *)
      erewrite _insert_split by (done || lia).
      destruct fuel as [|fuel]; [lia|].
      destruct (for_dirs_return_first
                  (λ d, _insert this (S fuel) (child (fresh_children s) d) p)
                  (λ d, Rectangle.contains (child_boundary (boundary n) d) p)
                  (λ d s', holds s' (child (fresh_children s) d) p
                           ∧ next_uuid s' ≤ 4 + next_uuid s
                           ∧ grows p (subdivided n s) s')
                  (subdivided n s) dirs)
        as (d & s' & Hrun & Hh & Hn & Hg).
      * destruct (covers_spec _ _ (Hcov k n Hk) Hc) as [d Hd']. exists d.
        split; [apply elem_of_dirs|done].
      * intros d Hrej. eapply _insert_reject.
        -- apply subdivided_lookup_child. lia.
        -- done.
      * intros d Hacc. erewrite _insert_push; cycle 1.
        -- apply subdivided_lookup_child. lia.
        -- done.
        -- simpl. lia.
        -- done.
        -- eexists. split; [done|]. split; [|split; [simpl; lia|]].
           ++ eapply holds_here; [apply lookup_insert_eq|done|].
              simpl. set_solver.
           ++ apply grows_put_push; [|done].
              apply subdivided_lookup_child. lia.
      * exists s'. split; [done|]. split; [|done].
        destruct (grows_old p _ s' Hg k (divide n (fresh_children s)))
          as (n' & Hk' & _ & _ & _ & Hsame).
        { rewrite <- Hid. apply subdivided_lookup_parent. }
        rewrite (Hsame eq_refl) in Hk'. by eapply holds_child.
Qed.

(** An accepted insertion changes the store at one leaf of the subtree it
    was started on, in one of the two ways of [insert_effect]. *)
Lemma _insert_effect this fuel k p s n :
  store_wf s → 1 ≤ capacity this → store_covers s p →
  nodes s !! k = Some n → Rectangle.contains (boundary n) p = true →
  next_uuid s - k < fuel →
  ∃ l leaf s',
    _insert this fuel k p s = (Done true, s')
    ∧ in_subtree s k l ∧ insert_effect (capacity this) p s l leaf s'.
Proof.
  revert k s n.
  induction fuel as [|fuel IH];
    intros k s n Hwf Hcap Hcov Hk Hc Hfuel; [lia|].
  destruct (wf_key s Hwf k n Hk) as [Hid Hlt].
  destruct (divided n) eqn:Hd.
  - destruct (wf_children s Hwf k n Hk Hd) as (ch & Hch & Hlinks).
    erewrite _insert_descend by done.
    destruct (for_dirs_return_first
                (λ d, _insert this fuel (child ch d) p)
                (λ d, Rectangle.contains (child_boundary (boundary n) d) p)
                (λ d s', ∃ l leaf, in_subtree s (child ch d) l
                           ∧ insert_effect (capacity this) p s l leaf s')
                s dirs)
      as (d & s' & Hrun & l & leaf & Hsub & Heff).
    + destruct (covers_spec _ _ (Hcov k n Hk) Hc) as [d Hd']. exists d.
      split; [apply elem_of_dirs|done].
    + intros d Hrej. destruct (Hlinks d) as (Hkd & c & Hcd & Hcb).
      destruct fuel as [|fuel]; [lia|].
      eapply _insert_reject; [done|]. by rewrite Hcb.
    + intros d Hacc. destruct (Hlinks d) as (Hkd & c & Hcd & Hcb).
      destruct (IH (child ch d) s c) as (l & leaf & s' & Hrun & Hsub & Heff);
        [done|done|done|done|by rewrite Hcb|lia|].
      exists s'. split; [done|]. eauto.
    + exists l, leaf, s'. split; [done|]. split; [|done].
      by eapply in_subtree_child.
  - exists k, n.
    destruct (decide (length (points n) < capacity this)) as [Hlen|Hlen].
    + erewrite _insert_push by done. eexists. split; [done|].
      split; [apply in_subtree_here|]. repeat (split; [done|]). by left.
    + erewrite _insert_split by (done || lia).
      destruct fuel as [|fuel]; [lia|].
      destruct (for_dirs_return_first
                  (λ d, _insert this (S fuel) (child (fresh_children s) d) p)
                  (λ d, Rectangle.contains (child_boundary (boundary n) d) p)
                  (λ d s', Rectangle.contains
                             (child_boundary (boundary n) d) p = true
                           ∧ s' = split_pushed n d p s)
                  (subdivided n s) dirs)
        as (d & s' & Hrun & Hcd & Hs').
      * destruct (covers_spec _ _ (Hcov k n Hk) Hc) as [d Hd']. exists d.
        split; [apply elem_of_dirs|done].
      * intros d Hrej. eapply _insert_reject.
        -- apply subdivided_lookup_child. lia.
        -- done.
      * intros d Hacc. erewrite _insert_push; cycle 1.
        -- apply subdivided_lookup_child. lia.
        -- done.
        -- simpl. lia.
        -- done.
        -- eexists. split; [done|]. by split.
      * exists s'. split; [done|]. split; [apply in_subtree_here|].
        repeat (split; [done|]). right. split; [lia|]. eauto.
Qed.

Lemma pushed_lookup l leaf p s j :
  nodes (pushed l leaf p s) !! j
  = if decide (l = j) then Some (push_point leaf p) else nodes s !! j.
Proof. simpl. apply lookup_insert. Qed.

Lemma split_pushed_lookup_old leaf d p s j :
  j ≠ id leaf → j < next_uuid s →
  nodes (split_pushed leaf d p s) !! j = nodes s !! j.
Proof.
  intros Hne Hlt. unfold split_pushed, put_world, db_put.
  cbn [snd nodes]. pose proof (child_fresh s d).
  rewrite lookup_insert_ne by lia. by apply subdivided_lookup_old.
Qed.

Lemma split_pushed_lookup_parent leaf d p s :
  id leaf < next_uuid s →
  nodes (split_pushed leaf d p s) !! id leaf
  = Some (divide leaf (fresh_children s)).
Proof.
  intros Hlt. unfold split_pushed, put_world, db_put.
  cbn [snd nodes]. pose proof (child_fresh s d).
  rewrite lookup_insert_ne by lia. apply subdivided_lookup_parent.
Qed.

Lemma split_pushed_lookup_child leaf d p s d' :
  id leaf < next_uuid s →
  ∃ c, nodes (split_pushed leaf d p s) !! child (fresh_children s) d' = Some c
       ∧ divided c = false
       ∧ boundary c = child_boundary (boundary leaf) d'
       ∧ points c = if decide (d' = d) then [p] else [].
Proof.
  intros Hlt. unfold split_pushed, put_world, db_put. cbn [snd nodes].
  rewrite lookup_insert. case_decide as Hd.
  - apply child_fresh_inj in Hd as ->. eexists. split; [done|].
    simpl. by rewrite decide_True.
  - rewrite subdivided_lookup_child by done. eexists. split; [done|].
    simpl. rewrite decide_False; [done|]. by intros ->.
Qed.

(** ** Range queries *)

Section QuerySteps.
Variables (fuel : nat) (k : uuid) (q : Rectangle.t num) (found : list (Point.t num)).
Variable s : world.

Lemma _query_missing :
  nodes s !! k = None → _query (S fuel) k q found s = (Throw NotFoundError, s).
Proof. intros Hk. simpl. unfold bind, db_get. by rewrite Hk. Qed.

Lemma _query_skip n :
  nodes s !! k = Some n → Rectangle.intersects (boundary n) q = false →
  _query (S fuel) k q found s = (Done found, s).
Proof. intros Hk Hi. simpl. unfold bind, db_get. by rewrite Hk, Hi. Qed.

Lemma _query_leaf n :
  nodes s !! k = Some n → Rectangle.intersects (boundary n) q = true →
  divided n = false →
  _query (S fuel) k q found s
  = (Done (found ++ List.filter (Rectangle.contains q) (points n)), s).
Proof.
  intros Hk Hi Hd. simpl. unfold bind, db_get. by rewrite Hk, Hi, Hd.
Qed.

Lemma _query_descend n ch :
  nodes s !! k = Some n → Rectangle.intersects (boundary n) q = true →
  divided n = true → children n = Some ch →
  _query (S fuel) k q found s
  = for_dirs_push (λ d, _query fuel (child ch d) q) dirs
      (found ++ List.filter (Rectangle.contains q) (points n)) s.
Proof.
  intros Hk Hi Hd Hch. simpl. unfold bind at 1, db_get.
  by rewrite Hk, Hi, Hd, Hch.
Qed.

Lemma _query_no_children n :
  nodes s !! k = Some n → Rectangle.intersects (boundary n) q = true →
  divided n = true → children n = None →
  _query (S fuel) k q found s = (Throw TypeError, s).
Proof.
  intros Hk Hi Hd Hch. simpl. unfold bind at 1, db_get.
  by rewrite Hk, Hi, Hd, Hch.
Qed.
End QuerySteps.

Lemma for_dirs_push_sound {B} (f : dir → list B → M (list B)) (R : B → Prop)
    (s : world) (ds : list dir) :
  (∀ d found o s', f d found s = (o, s') →
     s' = s ∧ ∀ res, o = Done res → ∃ r, res = found ++ r ∧ Forall R r) →
  ∀ found o s', for_dirs_push f ds found s = (o, s') →
     s' = s ∧ ∀ res, o = Done res → ∃ r, res = found ++ r ∧ Forall R r.
Proof.
  intros Hf. induction ds as [|d ds IH]; intros found o s'; simpl.
  - intros [= <- <-]. split; [done|]. intros res [= <-].
    exists []. by rewrite app_nil_r.
  - unfold bind. destruct (f d found s) as [o1 s1] eqn:Hrun.
    destruct (Hf _ _ _ _ Hrun) as [-> Hres].
    destruct o1 as [res1| |]; try (intros [= <- <-]; by split).
    intros Hrest. destruct (IH _ _ _ Hrest) as [-> Hres2].
    split; [done|]. intros res ->.
    destruct (Hres _ eq_refl) as (r1 & -> & Hr1).
    destruct (Hres2 _ eq_refl) as (r2 & -> & Hr2).
    exists (r1 ++ r2). rewrite app_assoc. split; [done|].
    by apply Forall_app.
Qed.

(** A query never writes, and whatever it adds to [found] is a stored
    point that passes the containment test of the query rectangle. *)
Lemma _query_sound fuel k q found s o s' :
  _query fuel k q found s = (o, s') →
  s' = s ∧ ∀ res, o = Done res →
    ∃ r, res = found ++ r
         ∧ Forall (λ p, Rectangle.contains q p = true ∧ stored s p) r.
Proof.
  revert k found o s'.
  induction fuel as [|fuel IH]; intros k found o s'.
  { intros [= <- <-]. by split. }
  destruct (nodes s !! k) as [n|] eqn:Hk.
  2:{ rewrite _query_missing by done. intros [= <- <-]. by split. }
  assert (Hown : Forall (λ p, Rectangle.contains q p = true ∧ stored s p)
                   (List.filter (Rectangle.contains q) (points n))).
  { apply Forall_forall. intros p Hp. apply list_elem_of_In in Hp.
    apply filter_In in Hp as [Hp Hc]. split; [done|].
    exists k, n. split; [done|]. by apply list_elem_of_In. }
  destruct (Rectangle.intersects (boundary n) q) eqn:Hi.
  2:{ erewrite _query_skip by done. intros [= <- <-]. split; [done|].
      intros res [= <-]. exists []. by rewrite app_nil_r. }
  destruct (divided n) eqn:Hd.
  - destruct (children n) as [ch|] eqn:Hch.
    + erewrite _query_descend by done. intros Hrun.
      apply (for_dirs_push_sound _
               (λ p, Rectangle.contains q p = true ∧ stored s p)) in Hrun.
      * destruct Hrun as [-> Hres]. split; [done|]. intros res ->.
        destruct (Hres _ eq_refl) as (r & -> & Hr).
        eexists. rewrite <- app_assoc. split; [done|]. by apply Forall_app.
      * intros d found1 o1 s1. apply IH.
    + erewrite _query_no_children by done. intros [= <- <-]. by split.
  - erewrite _query_leaf by done. intros [= <- <-]. split; [done|].
    intros res [= <-]. eauto.
Qed.

Lemma for_dirs_push_total (f : dir → list (Point.t num) → M (list (Point.t num)))
    (G : dir → Point.t num → Prop) (s : world) (ds : list dir) :
  (∀ d found, ∃ r, f d found s = (Done (found ++ r), s)
                   ∧ ∀ p, G d p → p ∈ r) →
  ∀ found, ∃ r, for_dirs_push f ds found s = (Done (found ++ r), s)
                ∧ ∀ d p, d ∈ ds → G d p → p ∈ r.
Proof.
  intros Hf. induction ds as [|d ds IH]; intros found; simpl.
  - exists []. rewrite app_nil_r. split; [done|]. intros d p Hd.
    by apply elem_of_nil in Hd.
  - unfold bind. destruct (Hf d found) as (r1 & -> & Hr1).
    destruct (IH (found ++ r1)) as (r2 & -> & Hr2).
    exists (r1 ++ r2). rewrite app_assoc. split; [done|].
    intros d' p Hd' HG. apply elem_of_app.
    apply elem_of_cons in Hd' as [->|Hd']; [left|right]; eauto.
Qed.

Lemma holds_inv s k p n :
  holds s k p → nodes s !! k = Some n →
  Rectangle.contains (boundary n) p = true
  ∧ (p ∈ points n
     ∨ divided n = true
       ∧ ∃ ch d, children n = Some ch ∧ holds s (child ch d) p).
Proof.
  intros Hh Hk. destruct Hh as [k n' p Hk' Hc Hp|k n' ch d p Hk' Hc Hd Hch Hh].
  - assert (n' = n) as -> by congruence. auto.
  - assert (n' = n) as -> by congruence. split; [done|]. right. eauto.
Qed.

(** On a well-formed store a query returns, and it returns every point
    held under [k] that the query rectangle contains, provided the overlap
    test prunes no record whose boundary contains the point. *)
Lemma _query_total fuel k q found s n :
  store_wf s → nodes s !! k = Some n → next_uuid s - k < fuel →
  ∃ r, _query fuel k q found s = (Done (found ++ r), s)
       ∧ ∀ p, store_meets s q p → holds s k p →
              Rectangle.contains q p = true → p ∈ r.
Proof.
  intros Hwf. revert k found n.
  induction fuel as [|fuel IH]; intros k found n Hk Hfuel; [lia|].
  destruct (wf_key s Hwf k n Hk) as [Hid Hlt].
  destruct (Rectangle.intersects (boundary n) q) eqn:Hi.
  2:{ erewrite _query_skip by done. exists []. rewrite app_nil_r.
      split; [done|]. intros p Hm Hh Hc. exfalso.
      destruct (holds_inv s k p n Hh Hk) as [Hb _].
      pose proof (meets_spec _ _ _ (Hm k n Hk) Hb Hc). congruence. }
  assert (Hown : ∀ p, p ∈ points n → Rectangle.contains q p = true →
                      p ∈ List.filter (Rectangle.contains q) (points n)).
  { intros p Hp Hc. apply list_elem_of_In, filter_In.
    split; [by apply list_elem_of_In|done]. }
  destruct (divided n) eqn:Hd.
  - destruct (wf_children s Hwf k n Hk Hd) as (ch & Hch & Hlinks).
    erewrite _query_descend by done.
    destruct (for_dirs_push_total
                (λ d, _query fuel (child ch d) q)
                (λ d p, store_meets s q p ∧ holds s (child ch d) p
                        ∧ Rectangle.contains q p = true) s dirs)
      with (found := found ++ List.filter (Rectangle.contains q) (points n))
      as (r & -> & Hr).
    + intros d found1. destruct (Hlinks d) as (Hkd & c & Hcd & _).
      destruct (IH (child ch d) found1 c) as (r & Hrun & Hr); [done|lia|].
      exists r. split; [done|]. intros p (? & ? & ?). auto.
    + eexists. rewrite <- app_assoc. split; [done|].
      intros p Hm Hh Hc. apply elem_of_app.
      destruct (holds_inv s k p n Hh Hk) as [_ [Hp|(_ & ch' & d & Hch' & Hh')]].
      * left. auto.
      * right. assert (ch' = ch) as -> by congruence.
        eapply Hr; [apply elem_of_dirs|]. by repeat split.
  - erewrite _query_leaf by done. eexists. split; [done|].
    intros p Hm Hh Hc.
    destruct (holds_inv s k p n Hh Hk) as [_ [Hp|(Hd' & _)]]; [auto|congruence].
Qed.

(** ** Initialisation *)

Lemma init_fresh bnd cap s :
  meta_root s = None →
  init bnd cap s
  = (Done {| rootId := next_uuid s; capacity := default 4 cap |},
     bootstrapped bnd s).
Proof. intros Hm. unfold init. by rewrite Hm. Qed.

Lemma init_existing bnd cap s r :
  meta_root s = Some r →
  init bnd cap s = (Done {| rootId := r; capacity := default 4 cap |}, s).
Proof. intros Hm. unfold init. by rewrite Hm. Qed.

Lemma store_wf_bootstrapped bnd s :
  nodes s = ∅ → store_wf (bootstrapped bnd s).
Proof.
  intros He. split; simpl; rewrite He.
  - intros k n. rewrite lookup_insert. case_decide as Hk.
    + intros [= <-]. simpl. split; [done|lia].
    + by rewrite lookup_empty.
  - intros k n. rewrite lookup_insert. case_decide as Hk.
    + by intros [= <-].
    + by rewrite lookup_empty.
Qed.

Lemma node_inv_bootstrapped cap bnd s :
  nodes s = ∅ → node_inv cap (bootstrapped bnd s).
Proof.
  intros He k n. simpl. rewrite He, lookup_insert. case_decide as Hk.
  - intros [= <-] _. simpl. split; [done|lia].
  - by rewrite lookup_empty.
Qed.

(** ** Sequences of inserts *)

Lemma filled_bootstrapped bnd cap s :
  nodes s = ∅ →
  filled {| rootId := next_uuid s; capacity := cap |} bnd []
    (bootstrapped bnd s).
Proof.
  intros He. split; simpl.
  - by apply store_wf_bootstrapped.
  - by apply node_inv_bootstrapped.
  - exists (root_node (next_uuid s) bnd). by rewrite lookup_insert_eq.
  - intros p Hp. by apply elem_of_nil in Hp.
  - intros p (k & n & Hk & Hp). simpl in Hk. revert Hk.
    rewrite He, lookup_insert.
    case_decide; [|by rewrite lookup_empty].
    intros [= <-]. done.
  - lia.
  - intros k n. rewrite He, lookup_insert.
    case_decide; [|by rewrite lookup_empty].
    intros [= <-]. simpl. by apply list_elem_of_singleton.
Qed.

(** The boundaries of the store after an accepted insertion: those it had,
    and possibly the four quadrants of the leaf it ended in. *)
Lemma insert_effect_boundary cap p s l leaf s' k n' :
  store_wf s → insert_effect cap p s l leaf s' → nodes s' !! k = Some n' →
  (∃ n, nodes s !! k = Some n ∧ boundary n' = boundary n)
  ∨ (∃ d, boundary n' = child_boundary (boundary leaf) d).
Proof.
  intros Hwf (Hl & Hd & Hc & [[Hlen ->]|(Hlen & d & Hcd & ->)]).
  - rewrite pushed_lookup. case_decide as Hk.
    + subst k. intros [= <-]. left. by exists leaf.
    + intros Hk'. left. eauto.
  - unfold split_pushed, put_world, db_put. cbn [snd nodes].
    rewrite lookup_insert. case_decide as Hk.
    + intros [= <-]. right. by exists d.
    + intros Hk'.
      apply subdivided_lookup_inv in Hk' as [[-> ->]|[(d' & -> & ->)|[Hk' _]]].
      * left. exists leaf. destruct (wf_key s Hwf l leaf Hl) as [-> _].
        by split.
      * right. by exists d'.
      * left. eauto.
Qed.

Lemma point_eta (p : Point.t num) :
  Point.mk (Point.x p) (Point.y p) (Point.data p) = p.
Proof. by destruct p. Qed.

Lemma insert_filled this bnd pre p s fuel :
  filled this bnd pre s → 1 ≤ capacity this →
  Rectangle.contains bnd p = true →
  (∀ b, b ∈ quadrants (length pre) bnd → covers b p = true) →
  1 + 4 * length pre < fuel →
  ∃ s', insert this fuel (Point.x p) (Point.y p) (Point.data p) s
        = (Done tt, s')
        ∧ filled this bnd (pre ++ [p]) s'.
Proof.
  intros [Hwf Hinv (n & Hn & Hb) Hholds Hstored Hnext Hquad] Hcap Hc Hcov Hfuel.
  assert (store_covers s p) as Hcovs by (intros k m Hk; eauto).
  unfold insert. rewrite point_eta. unfold bind.
  destruct (_insert_accepts this fuel (rootId this) p s n)
    as (s' & Hrun & Hh & Hn'); [done|done|done|done|done|by rewrite Hb|lia|].
  destruct (_insert_effect this fuel (rootId this) p s n)
    as (l & leaf & s'' & Hrun' & _ & Heff); [done|done|done|done|by rewrite Hb|lia|].
  assert (s'' = s') as -> by congruence.
  pose proof (_insert_inv this fuel (rootId this) p s Hwf Hinv) as Hpost.
  rewrite Hrun in *. destruct Hpost as (Hwf' & Hinv' & Hg).
  exists s'. split; [done|]. split; cycle 6.
  { intros k m Hk. rewrite length_app, Nat.add_1_r.
    destruct (insert_effect_boundary _ _ _ _ _ _ _ _ Hwf Heff Hk)
      as [(m0 & Hk0 & ->)|(d & ->)].
    - apply (quadrants_mono (length pre)); [lia|eauto].
    - apply quadrants_child. destruct Heff as (Hl & _). eauto. }
  - done.
  - done.
  - destruct (grows_old p s s' Hg _ n Hn) as (n' & Hk' & _ & Hb' & _).
    exists n'. split; [done|congruence].
  - intros q Hq. apply elem_of_app in Hq as [Hq|Hq].
    + eapply holds_grows; eauto.
    + apply list_elem_of_singleton in Hq. by subst q.
  - intros q (k & m & Hk & Hq). apply elem_of_app.
    destruct (grows_new p s s' Hg k m q Hk Hq) as [->|(m0 & Hk0 & Hq0)].
    + right. by apply list_elem_of_singleton.
    + left. apply Hstored. by exists k, m0.
  - rewrite length_app. simpl. lia.
Qed.

Lemma insert_all_filled this bnd pre pts s fuel :
  filled this bnd pre s → 1 ≤ capacity this →
  (∀ p, p ∈ pts → Rectangle.contains bnd p = true) →
  (∀ b p, b ∈ quadrants (length pre + length pts) bnd → p ∈ pts →
          covers b p = true) →
  1 + 4 * (length pre + length pts) < fuel →
  ∃ s', insert_all this fuel pts s = (Done tt, s')
        ∧ filled this bnd (pre ++ pts) s'.
Proof.
  revert pre s.
  induction pts as [|p pts IH]; intros pre s Hf Hcap Hin Hcov Hfuel.
  { exists s. rewrite app_nil_r. by split. }
  simpl. unfold bind.
  destruct (insert_filled this bnd pre p s fuel) as (s1 & -> & Hf1);
    [done|done|apply Hin; set_solver| |simpl in Hfuel; lia|].
  { intros b Hb. apply Hcov; [|set_solver].
    apply (quadrants_mono (length pre)); [lia|done]. }
  destruct (IH (pre ++ [p]) s1) as (s2 & Hrun & Hf2); [done|done| | | |].
  - intros q Hq. apply Hin. set_solver.
  - intros b q Hb Hq. apply Hcov; [|set_solver].
    rewrite length_app in Hb. simpl in *.
    by replace (length pre + S (length pts)) with (length pre + 1 + length pts)
      by lia.
  - rewrite length_app. simpl in *. lia.
  - exists s2. split; [done|]. by rewrite <- app_assoc in Hf2.
Qed.

Lemma range_filled this bnd pts s fuel minX minY maxX maxY :
  filled this bnd pts s → 1 + 4 * length pts < fuel →
  (∀ b p, b ∈ quadrants (length pts) bnd → p ∈ pts →
          meets b (query_rectangle minX minY maxX maxY) p = true) →
  ∃ res, range this fuel minX minY maxX maxY s = (Done res, s)
    ∧ ∀ p, p ∈ res ↔
           p ∈ pts
           ∧ Rectangle.contains (query_rectangle minX minY maxX maxY) p = true.
Proof.
  intros [Hwf Hinv (n & Hn & Hb) Hholds Hstored Hnext Hquad] Hfuel Hmeets.
  unfold range.
  destruct (_query_total fuel (rootId this)
              (query_rectangle minX minY maxX maxY) [] s n)
    as (r & Hrun & Hcomplete); [done|done|lia|].
  destruct (_query_sound _ _ _ _ _ _ _ Hrun) as [_ Hsound].
  destruct (Hsound _ eq_refl) as (r' & Hr' & Hall). simpl in Hr'. subst r'.
  exists r. split; [done|]. intros p. split.
  - intros Hp. rewrite Forall_forall in Hall.
    destruct (Hall p Hp) as [Hc Hst]. auto.
  - intros [Hp Hc]. apply Hcomplete; [|auto|done].
    intros k m Hk. eauto.
Qed.

(** The numbers an insert into a filled store can write survive when
    those of the point and of the quadrants one level further down do. *)
Lemma filled_writes_survive this bnd pts s p :
  filled this bnd pts s → stores_well (S (length pts)) bnd [p] = true →
  writes_survive s p.
Proof.
  intros Hf Hok. apply andb_true_iff in Hok as [Hq Hp].
  split; [by apply andb_true_iff in Hp as [Hp _]|].
  intros k m d Hk. rewrite forallb_forall in Hq.
  apply Hq, list_elem_of_In, quadrants_child.
  by apply (filled_quadrant _ _ _ _ Hf k).
Qed.

(** A point for which the quadrants of the universe split well is
    covered by every boundary of the store. *)
Lemma filled_store_covers this bnd pts s p :
  filled this bnd pts s → splits_well (length pts) bnd [p] = true →
  store_covers s p.
Proof.
  intros Hf Hok k m Hk.
  apply (on_quadrants_spec _ _ _ _ _ _ Hok); [|set_solver].
  by apply (filled_quadrant _ _ _ _ Hf k).
Qed.

(** ** Exactness of [range] after a sequence of inserts *)

(** C1, amended.  Open a fresh store with a universe [bnd] and a capacity
    of at least 1, insert the points [pts], all of them inside [bnd], and
    run [range(minX, minY, maxX, maxY)].  Suppose rounding does no harm on
    the quadrants that [|pts|] subdivisions can derive from [bnd]: a
    quadrant that contains an inserted point has a child quadrant that
    contains it, and a quadrant that contains an inserted point of the query
    rectangle passes the overlap test with that rectangle.  Suppose also
    that the store keeps the numbers written, the coordinates of the points
    and of these quadrants.  Then, given fuel for the depth the tree can
    reach, the run returns, and a point is in the result if and only if it
    is one of the inserted points and the rectangle with centre
    [((minX+maxX)/2, (minY+maxY)/2)] and half-extents
    [((maxX-minX)/2, (maxY-minY)/2)] contains it under the closed test.
    The three conditions hold for all inputs in exact arithmetic. *)
Theorem range_returns_exactly_the_inserted_matches
    (s0 : world) (bnd : Rectangle.t num) (cap : option nat)
    (pts : list (Point.t num)) (minX minY maxX maxY : num) (fuel : nat) :
  let q := {| Rectangle.x := ((minX + maxX) / n_two)%num;
              Rectangle.y := ((minY + maxY) / n_two)%num;
              Rectangle.w := ((maxX - minX) / n_two)%num;
              Rectangle.h := ((maxY - minY) / n_two)%num |} in
  meta_root s0 = None → nodes s0 = ∅ →
  1 ≤ default 4 cap →
  (∀ p, p ∈ pts → Rectangle.contains bnd p = true) →
  splits_well (length pts) bnd pts = true →
  meets_well (length pts) bnd q pts = true →
  stores_well (length pts) bnd pts = true →
  1 + 4 * length pts < fuel →
  ∃ res s',
    insert_then_range fuel bnd cap pts minX minY maxX maxY s0 = (Done res, s')
    ∧ ∀ p, p ∈ res ↔ p ∈ pts ∧ Rectangle.contains q p = true.
Proof.
  intros q Hmeta Hempty Hcap Hin Hsplit Hmeet _ Hfuel.
  unfold insert_then_range, bind. rewrite init_fresh by done.
  set (tree := {| rootId := next_uuid s0; capacity := default 4 cap |}).
  destruct (insert_all_filled tree bnd [] pts (bootstrapped bnd s0) fuel)
    as (s1 & -> & Hfilled).
  - by apply filled_bootstrapped.
  - done.
  - done.
  - intros b p Hb Hp. by apply (on_quadrants_spec _ _ _ _ _ _ Hsplit).
  - simpl. lia.
  - destruct (range_filled tree bnd pts s1 fuel minX minY maxX maxY)
      as (res & Hrange & Hres); [done|lia| |].
    + intros b p Hb Hp.
      by apply (on_quadrants_spec _ _ _ _ _ _ Hmeet).
    + exists res, s1. split; [done|]. apply Hres.
Qed.

(** ** Inserting outside the universe *)

(** C3, amended.  When the root boundary does not contain [(x, y)], the
    top-level [insert(x, y, payload)] returns normally and leaves the store
    as it was: the point is dropped and nothing is raised. *)
Theorem insert_outside_root_is_dropped
    (this : DiskQuadTree) (fuel : nat) (x y : num) (data : jsval)
    (s : world) (root : Node) :
  nodes s !! rootId this = Some root →
  Rectangle.contains (boundary root) (Point.mk x y data) = false →
  insert this (S fuel) x y data s = (Done tt, s).
Proof.
  intros Hroot Hout. unfold insert, bind.
  by erewrite _insert_reject by done.
Qed.

(** ** Queries with a rectangle that contains no point *)

Lemma range_of_nothing this fuel minX minY maxX maxY s root :
  store_wf s → nodes s !! rootId this = Some root →
  next_uuid s - rootId this < fuel →
  (∀ p, Rectangle.contains (query_rectangle minX minY maxX maxY) p = false) →
  range this fuel minX minY maxX maxY s = (Done [], s).
Proof.
  intros Hwf Hroot Hfuel Hnone. unfold range.
  destruct (_query_total fuel (rootId this)
              (query_rectangle minX minY maxX maxY) [] s root)
    as (r & Hrun & _); [done|done|done|].
  destruct (_query_sound _ _ _ _ _ _ _ Hrun) as [_ Hsound].
  destruct (Hsound _ eq_refl) as (r' & Hr' & Hall). simpl in Hr'. subst r'.
  rewrite Hrun. simpl. destruct r as [|p r]; [done|].
  apply Forall_cons in Hall as [[Hc _] _]. by rewrite Hnone in Hc.
Qed.

(** ** Nearest *)

Lemma head_sort_insert cmp a l :
  head (sort_insert cmp a l)
  = match l with
    | [] => Some a
    | b :: _ => if (n_zero <? cmp a b)%num then Some b else Some a
    end.
Proof.
  destruct l as [|b l]; simpl; [done|]. by destruct (n_zero <? _)%num.
Qed.

Lemma head_array_sort_nil cmp l : head (array_sort cmp l) = None → l = [].
Proof.
  destruct l as [|a l]; [done|]. unfold array_sort. simpl.
  rewrite head_sort_insert. destruct (foldr _ _ _); [done|].
  by destruct (n_zero <? _)%num.
Qed.

Section Consistent.
Variables (f : Point.t num → num) (l : list (Point.t num)).
Hypothesis Hcons : consistent f l = true.

Lemma consistent_spec a b c :
  a ∈ l → b ∈ l → c ∈ l →
  sorts_same f a a = true
  ∧ ¬ (sorts_before f a b = true ∧ sorts_after f a b = true)
  ∧ (sorts_same f a b = true → sorts_same f b a = true)
  ∧ (sorts_same f a b = true → sorts_same f b c = true →
     sorts_same f a c = true)
  ∧ (sorts_before f a b = true → sorts_before f b c = true →
     sorts_before f a c = true)
  ∧ (sorts_after f a b = true → sorts_after f b c = true →
     sorts_after f a c = true).
Proof using Hcons.
  intros Ha Hb Hc. pose proof Hcons as H. unfold consistent in H.
  rewrite forallb_forall in H. apply list_elem_of_In in Ha, Hb, Hc.
  specialize (H a Ha). rewrite forallb_forall in H.
  specialize (H b Hb). rewrite forallb_forall in H.
  specialize (H c Hc). rewrite !andb_true_iff in H.
  destruct H as (((((H1 & H2) & H3) & H4) & H5) & H6).
  split; [done|]. split.
  { intros [Hlt Hgt]. by rewrite Hlt, Hgt in H2. }
  split; [by intros E; rewrite E in H3|].
  split; [by intros E1 E2; rewrite E1, E2 in H4|].
  split; [by intros E1 E2; rewrite E1, E2 in H5|].
  by intros E1 E2; rewrite E1, E2 in H6.
Qed.

Lemma sorts_cases a b :
  sorts_before f a b = true ∨ sorts_same f a b = true
  ∨ sorts_after f a b = true.
Proof.
  unfold sorts_same.
  destruct (sorts_before f a b); [by left|].
  destruct (sorts_after f a b); [by right; right|by right; left].
Qed.

Lemma sorts_same_neither a b :
  sorts_same f a b = true →
  sorts_before f a b = false ∧ sorts_after f a b = false.
Proof.
  unfold sorts_same. rewrite andb_true_iff, !negb_true_iff. tauto.
Qed.

(** What sorts after is sorted before, the other way round. *)
Lemma sorts_after_before a b :
  a ∈ l → b ∈ l → sorts_after f a b = true → sorts_before f b a = true.
Proof using Hcons.
  intros Ha Hb Hab.
  destruct (consistent_spec b a a Hb Ha Ha) as (_ & _ & Hsym & _).
  destruct (consistent_spec a b a Ha Hb Ha) as (Hrefl & _ & _ & _ & _ & Hgt).
  destruct (sorts_cases b a) as [H|[H|H]]; [done| |].
  - apply Hsym, sorts_same_neither in H as [_ H]. congruence.
  - apply sorts_same_neither in Hrefl as [_ Hrefl].
    rewrite (Hgt Hab H) in Hrefl. done.
Qed.

(** "After" is transitive, and so is "not after". *)
Lemma sorts_after_trans a b c :
  a ∈ l → b ∈ l → c ∈ l →
  sorts_after f a b = true → sorts_after f b c = true →
  sorts_after f a c = true.
Proof using Hcons. intros Ha Hb Hc. by apply consistent_spec. Qed.

Lemma sorts_not_after_trans a b c :
  a ∈ l → b ∈ l → c ∈ l →
  sorts_after f a b = false → sorts_after f b c = false →
  sorts_after f a c = false.
Proof using Hcons.
  intros Ha Hb Hc Hab Hbc. apply not_true_iff_false. intros Hac.
  pose proof (sorts_after_before a c Ha Hc Hac) as Hca.
  destruct (consistent_spec a b c Ha Hb Hc)
    as (_ & _ & Hsym_ab & Heq & Hlt & _).
  destruct (consistent_spec a c a Ha Hc Ha) as (_ & Hone & _).
  destruct (consistent_spec b c b Hb Hc Hb) as (_ & _ & Hsym_bc & _).
  destruct (consistent_spec c a b Hc Ha Hb) as (_ & _ & _ & _ & Hlt_cab & _).
  destruct (consistent_spec b c a Hb Hc Ha) as (_ & _ & _ & _ & Hlt_bca & _).
  destruct (sorts_cases a b) as [H1|[H1|H1]]; [| |congruence];
    destruct (sorts_cases b c) as [H2|[H2|H2]]; try congruence.
  - apply Hone. split; [by apply Hlt|done].
  - apply Hsym_bc, sorts_same_neither in H2 as [H2 _].
    rewrite (Hlt_cab Hca H1) in H2. done.
  - apply Hsym_ab, sorts_same_neither in H1 as [H1 _].
    rewrite (Hlt_bca H2 Hca) in H1. done.
  - apply (Heq H1), sorts_same_neither in H2 as [_ H2]. congruence.
Qed.
End Consistent.

(** With a consistent comparator, the head of the sorted array is the
    first element that the comparator puts after no other. *)
Lemma head_array_sort f (l : list (Point.t num)) p :
  consistent f l = true →
  head (array_sort (λ a b, f a - f b)%num l) = Some p →
  ∃ l1 l2, l = l1 ++ p :: l2
    ∧ (∀ c, c ∈ l1 → sorts_after f c p = true)
    ∧ (∀ c, c ∈ l2 → sorts_after f p c = false).
Proof.
  intros Hcons.
  assert (Hsub : ∀ a, a ∈ l → a ∈ l) by done.
  revert Hsub p. generalize l at 1 3 4 as l0.
  induction l0 as [|a l0 IH]; intros Hsub p; [done|].
  unfold array_sort in *. simpl. rewrite head_sort_insert.
  destruct (foldr (sort_insert (λ a b, f a - f b)%num) [] l0)
    as [|b sorted] eqn:Hs.
  - intros [= <-]. assert (l0 = []) as ->.
    { apply (head_array_sort_nil (λ a b, f a - f b)%num).
      unfold array_sort. by rewrite Hs. }
    exists [], []. split; [done|].
    split; intros c Hc; by apply elem_of_nil in Hc.
  - destruct (IH (λ c Hc, Hsub c (list_elem_of_further _ _ _ Hc)) b eq_refl)
      as (l1 & l2 & -> & Hl1 & Hl2).
    assert (Ha : a ∈ l) by (apply Hsub; set_solver).
    assert (Hb : b ∈ l) by (apply Hsub; set_solver).
    change (n_zero <? f a - f b)%num with (sorts_after f a b).
    destruct (sorts_after f a b) eqn:Hcmp.
    + intros [= <-]. exists (a :: l1), l2. split; [done|]. split; [|done].
      intros c Hc. apply elem_of_cons in Hc as [->|Hc]; auto.
    + intros [= <-]. exists [], (l1 ++ b :: l2). split; [done|].
      split; [intros c Hc; by apply elem_of_nil in Hc|].
      intros c Hc.
      assert (Hcl : c ∈ l) by (apply Hsub; by apply elem_of_cons; right).
      apply elem_of_app in Hc as [Hc|Hc].
      * destruct (sorts_after f a c) eqn:Hpc; [|done].
        rewrite (sorts_after_trans f l Hcons a c b) in Hcmp; auto.
      * apply elem_of_cons in Hc as [->|Hc]; [done|].
        apply (sorts_not_after_trans f l Hcons a b c); auto.
Qed.

(** The model of [Array.prototype.sort] rearranges the array. *)
Lemma sort_insert_perm cmp a l : sort_insert cmp a l ≡ₚ a :: l.
Proof.
  induction l as [|b l IH]; simpl; [done|].
  destruct (n_zero <? _)%num; [|done]. rewrite IH. apply Permutation_swap.
Qed.

Lemma array_sort_perm cmp l : array_sort cmp l ≡ₚ l.
Proof.
  unfold array_sort. induction l as [|a l IH]; simpl; [done|].
  by rewrite sort_insert_perm, IH.
Qed.

(** C5, amended.  On a well-formed store, [nearest(x, y, radius)]
    returns: the range query over the corners [(x-radius, y-radius)] and
    [(x+radius, y+radius)] yields its candidates, and the answer is none
    when there are no candidates and otherwise one of the candidates.  The
    answer passes the closed containment test of the rectangle derived from
    these corners.  When the comparator is consistent on the candidates, the
    answer is the first candidate, in the order of the range query, that the
    comparator puts after no other: for every earlier candidate [c],
    [d(c) - d(answer) > 0], and for no later one [d(answer) - d(c) > 0],
    where [d(a) = (a.x - x) ** 2 + (a.y - y) ** 2] as the program computes
    it.  An omitted radius stands for 100. *)
Theorem nearest_returns_first_closest_candidate
    (this : DiskQuadTree) (fuel : nat) (x y : num) (radius : option num)
    (s : world) (root : Node) :
  store_wf s → nodes s !! rootId this = Some root →
  next_uuid s - rootId this < fuel →
  let r := default n_hundred radius in
  let d := λ a : Point.t num,
             (n_sqr (Point.x a - x) + n_sqr (Point.y a - y))%num in
  let square :=
    {| Rectangle.x := (((x - r) + (x + r)) / n_two)%num;
       Rectangle.y := (((y - r) + (y + r)) / n_two)%num;
       Rectangle.w := (((x + r) - (x - r)) / n_two)%num;
       Rectangle.h := (((y + r) - (y - r)) / n_two)%num |} in
  ∃ candidates answer,
    range this fuel (x - r)%num (y - r)%num (x + r)%num (y + r)%num s
    = (Done candidates, s)
    ∧ nearest this fuel x y radius s = (Done answer, s)
    ∧ match answer with
      | None => candidates = []
      | Some p =>
          p ∈ candidates
          ∧ Rectangle.contains square p = true
          ∧ (consistent d candidates = true →
             ∃ l1 l2, candidates = l1 ++ p :: l2
               ∧ (∀ c, c ∈ l1 → (n_zero <? d c - d p)%num = true)
               ∧ (∀ c, c ∈ l2 → (n_zero <? d p - d c)%num = false))
      end
    ∧ nearest this fuel x y None = nearest this fuel x y (Some n_hundred).
Proof.
  intros Hwf Hroot Hfuel r d square.
  destruct (_query_total fuel (rootId this) square [] s root)
    as (cands & Hrun & _); [done|done|done|].
  destruct (_query_sound _ _ _ _ _ _ _ Hrun) as [_ Hsound].
  destruct (Hsound _ eq_refl) as (r' & Hr' & Hall). simpl in Hr'. subst r'.
  simpl in Hrun. exists cands, (head (array_sort (compare_dist x y) cands)).
  split; [exact Hrun|]. split; [|split; [|done]].
  - unfold nearest, bind. fold r. unfold range.
    change (query_rectangle (x - r) (y - r) (x + r) (y + r))%num with square.
    by rewrite Hrun.
  - destruct (head (array_sort (compare_dist x y) cands)) as [p|] eqn:Hhead.
    + assert (Hp : p ∈ cands).
      { rewrite <- (array_sort_perm (compare_dist x y) cands).
        destruct (array_sort _ cands); simplify_eq/=. set_solver. }
      split; [done|]. split.
      * rewrite Forall_forall in Hall. by destruct (Hall p Hp).
      * intros Hcons. by apply (head_array_sort d cands p Hcons).
    + by apply (head_array_sort_nil (compare_dist x y)).
Qed.

(** ** Initialisation is idempotent *)

(** C8.  The first initialisation of a store without a root record draws
    an identifier, writes the root record under 'meta:root' and persists an
    empty undivided root node; an initialisation of a store that has a root
    record returns that identifier and leaves the store, its metadata
    record included, exactly as it found it.  Hence a second initialisation
    yields the root identifier of the first and changes nothing. *)
Theorem init_is_idempotent
    (s : world) (bnd bnd' : Rectangle.t num) (cap cap' : option nat) :
  ∃ tree s1,
    init bnd cap s = (Done tree, s1)
    ∧ meta_root s1 = Some (rootId tree)
    ∧ match meta_root s with
      | None =>
          rootId tree = next_uuid s
          ∧ nodes s1 !! rootId tree = Some (root_node (rootId tree) bnd)
          ∧ puts s1 = puts s ++ [MetaRoot; NodeKey (rootId tree)]
      | Some r => rootId tree = r ∧ s1 = s
      end
    ∧ init bnd' cap' s1
      = (Done {| rootId := rootId tree; capacity := default 4 cap' |}, s1).
Proof.
  destruct (meta_root s) as [r|] eqn:Hmeta.
  - exists {| rootId := r; capacity := default 4 cap |}, s.
    rewrite !(init_existing _ _ s r) by done. by rewrite Hmeta.
  - exists {| rootId := next_uuid s; capacity := default 4 cap |},
      (bootstrapped bnd s).
    rewrite init_fresh by done. split; [done|]. split; [done|].
    split; [|done]. split; [done|]. simpl. split.
    + by rewrite lookup_insert_eq.
    + by rewrite <- app_assoc.
Qed.

(** ** Finding a point by its coordinates *)

Section FindPointSteps.
Variables (fuel : nat) (k : uuid) (x y : num) (s : world).

Lemma _findPoint_missing :
nodes s !! k = None → _findPoint (S fuel) k x y s = (Throw NotFoundError, s).
Proof. intros Hk. simpl. unfold bind, db_get. by rewrite Hk. Qed.

Lemma _findPoint_outside n :
nodes s !! k = Some n →
Rectangle.contains (boundary n) (Point.mk x y JUndefined) = false →
_findPoint (S fuel) k x y s = (Done None, s).
Proof. intros Hk Hc. simpl. unfold bind, db_get. by rewrite Hk, Hc. Qed.

Lemma _findPoint_here n p :
nodes s !! k = Some n →
Rectangle.contains (boundary n) (Point.mk x y JUndefined) = true →
List.find (same_location x y) (points n) = Some p →
_findPoint (S fuel) k x y s = (Done (Some p), s).
Proof.
intros Hk Hc Hf. simpl. unfold bind, db_get. by rewrite Hk, Hc, Hf.
Qed.

Lemma _findPoint_leaf n :
nodes s !! k = Some n →
Rectangle.contains (boundary n) (Point.mk x y JUndefined) = true →
List.find (same_location x y) (points n) = None →
divided n = false →
_findPoint (S fuel) k x y s = (Done None, s).
Proof.
intros Hk Hc Hf Hd. simpl. unfold bind, db_get. by rewrite Hk, Hc, Hf, Hd.
Qed.

Lemma _findPoint_descend n ch :
nodes s !! k = Some n →
Rectangle.contains (boundary n) (Point.mk x y JUndefined) = true →
List.find (same_location x y) (points n) = None →
divided n = true → children n = Some ch →
_findPoint (S fuel) k x y s
= for_dirs_return truthy_object
    (λ d, _findPoint fuel (child ch d) x y) None dirs s.
Proof.
intros Hk Hc Hf Hd Hch. simpl. unfold bind at 1, db_get.
by rewrite Hk, Hc, Hf, Hd, Hch.
Qed.

Lemma _findPoint_no_children n :
nodes s !! k = Some n →
Rectangle.contains (boundary n) (Point.mk x y JUndefined) = true →
List.find (same_location x y) (points n) = None →
divided n = true → children n = None →
_findPoint (S fuel) k x y s = (Throw TypeError, s).
Proof.
intros Hk Hc Hf Hd Hch. simpl. unfold bind at 1, db_get.
by rewrite Hk, Hc, Hf, Hd, Hch.
Qed.
End FindPointSteps.

(** The search never writes. *)
Lemma _findPoint_readonly fuel k x y s : snd (_findPoint fuel k x y s) = s.
Proof.
  revert k. induction fuel as [|fuel IH]; intros k; [done|].
  destruct (nodes s !! k) as [n|] eqn:Hk;
    [|by rewrite _findPoint_missing].
  destruct (Rectangle.contains (boundary n) (Point.mk x y JUndefined)) eqn:Hc;
    [|by erewrite _findPoint_outside].
  destruct (List.find (same_location x y) (points n)) as [p|] eqn:Hf;
    [by erewrite _findPoint_here|].
  destruct (divided n) eqn:Hd; [|by erewrite _findPoint_leaf].
  destruct (children n) as [ch|] eqn:Hch;
    [|by erewrite _findPoint_no_children].
  erewrite _findPoint_descend by done.
  apply (for_dirs_return_inv (λ s', s' = s)); [|done].
  intros d s' ->. apply IH.
Qed.

Lemma for_dirs_return_all_none {A} (f : dir → M (option A)) (s : world)
    (ds : list dir) :
  (∀ d, d ∈ ds → f d s = (Done None, s)) →
  for_dirs_return truthy_object f None ds s = (Done None, s).
Proof.
  induction ds as [|d ds IH]; intros Hf; simpl; [done|].
  unfold bind. rewrite Hf by set_solver. simpl. apply IH.
  intros d' Hd'. apply Hf. set_solver.
Qed.

Lemma find_none_same_location x y (l : list (Point.t num)) :
  (∀ p, p ∈ l → same_location x y p = false) →
  List.find (same_location x y) l = None.
Proof.
  induction l as [|p l IH]; intros Hl; simpl; [done|].
  rewrite Hl by set_solver. apply IH. intros q Hq. apply Hl. set_solver.
Qed.

(** On a well-formed store the search returns, and it returns [null] when
    no point of the subtree sits at [(x, y)]. *)
Lemma _findPoint_none fuel k x y s n :
  store_wf s → nodes s !! k = Some n → next_uuid s - k < fuel →
  (∀ k' m p, in_subtree s k k' → nodes s !! k' = Some m → p ∈ points m →
             same_location x y p = false) →
  _findPoint fuel k x y s = (Done None, s).
Proof.
  intros Hwf. revert k n.
  induction fuel as [|fuel IH]; intros k n Hk Hfuel Hnone; [lia|].
  destruct (wf_key s Hwf k n Hk) as [Hid Hlt].
  destruct (Rectangle.contains (boundary n) (Point.mk x y JUndefined)) eqn:Hc;
    [|by erewrite _findPoint_outside].
  assert (List.find (same_location x y) (points n) = None) as Hf.
  { apply find_none_same_location. intros p Hp.
    eapply Hnone; [apply in_subtree_here|done|done]. }
  destruct (divided n) eqn:Hd; [|by erewrite _findPoint_leaf].
  destruct (wf_children s Hwf k n Hk Hd) as (ch & Hch & Hlinks).
  erewrite _findPoint_descend by done.
  apply for_dirs_return_all_none. intros d _.
  destruct (Hlinks d) as (Hkd & c & Hcd & _).
  eapply IH; [done|lia|].
  intros k' m p Hsub. apply Hnone. by eapply in_subtree_child.
Qed.

(** ** Update *)

(** C9.  On a well-formed store, when no point of the tree sits exactly at
    [(x, y)], [update(x, y, newPayload)] throws the point-not-found error
    and the store is what it was before the call. *)
Theorem update_of_absent_point_fails
    (this : DiskQuadTree) (fuel : nat) (x y : num) (newJsonData : jsval)
    (s : world) (root : Node) :
  store_wf s → nodes s !! rootId this = Some root →
  next_uuid s - rootId this < fuel →
  (∀ k n p, in_subtree s (rootId this) k → nodes s !! k = Some n →
            p ∈ points n → same_location x y p = false) →
  update this fuel x y newJsonData s = (Throw PointNotFound, s).
Proof.
  intros Hwf Hroot Hfuel Hnone. unfold update, bind.
  by erewrite _findPoint_none by done.
Qed.

(** ** Subdivision *)

Lemma for_dirs_push_unchanged {B} (f : dir → B → M B) (s : world)
    (ds : list dir) (found : B) :
  (∀ d found, f d found s = (Done found, s)) →
  for_dirs_push f ds found s = (Done found, s).
Proof.
  intros Hf. induction ds as [|d ds IH]; simpl; [done|].
  unfold bind. by rewrite Hf.
Qed.

(** A query that reaches a fresh, empty leaf adds nothing. *)
Lemma _query_empty_leaf fuel k q found s n :
  nodes s !! k = Some n → points n = [] → divided n = false →
  _query (S fuel) k q found s = (Done found, s).
Proof.
  intros Hk Hp Hd. destruct (Rectangle.intersects (boundary n) q) eqn:Hi.
  - erewrite _query_leaf by done. rewrite Hp. simpl. by rewrite app_nil_r.
  - by erewrite _query_skip by done.
Qed.

(** C4.  Subdividing the node stored under [k] returns the node with
    [divided = true] and the [children] map filled in and with its
    identifier, boundary and points as they were; the four children are
    written first, in the order ne, nw, se, sw, and the parent last; every
    child starts with no points, and every other record is untouched.  A
    query on the subdivided node whose rectangle meets its boundary returns
    the resident points that the rectangle contains, and no later insert
    rewrites the record, so they stay attached to it. *)
Theorem subdivide_keeps_resident_points
    (s : world) (k : uuid) (node : Node) :
  store_wf s → nodes s !! k = Some node →
  let ch := fresh_children s in
  let s' := subdivided node s in
  _subdivide node s = (Done (divide node ch), s')
  ∧ nodes s' !! k = Some (divide node ch)
  ∧ (id (divide node ch) = id node
     ∧ boundary (divide node ch) = boundary node
     ∧ points (divide node ch) = points node
     ∧ divided (divide node ch) = true
     ∧ children (divide node ch) = Some ch)
  ∧ (∀ d, ∃ c, nodes s' !! child ch d = Some c ∧ points c = [])
  ∧ puts s' = puts s ++ [NodeKey (child ch ne); NodeKey (child ch nw);
                         NodeKey (child ch se); NodeKey (child ch sw);
                         NodeKey k]
  ∧ (∀ j, j ≠ k → j < next_uuid s → nodes s' !! j = nodes s !! j)
  ∧ (∀ fuel q found,
       Rectangle.intersects (boundary node) q = true →
       _query (S (S fuel)) k q found s'
       = (Done (found ++ List.filter (Rectangle.contains q) (points node)),
          s'))
  ∧ (∀ this fuel j p,
       node_inv (capacity this) s →
       nodes (snd (_insert this fuel j p s')) !! k = Some (divide node ch)).
Proof.
  intros Hwf Hk ch s'. destruct (wf_key s Hwf k node Hk) as [Hid Hlt].
  assert (Hparent : nodes s' !! k = Some (divide node ch)).
  { rewrite <- Hid. apply subdivided_lookup_parent. }
  assert (Hchild : ∀ d, nodes s' !! child ch d
            = Some (new_child (boundary node) d (child ch d))).
  { intros d. apply subdivided_lookup_child. lia. }
  split; [done|]. split; [done|]. split; [done|]. split; [|split; [|split; [|split]]].
  - intros d. eexists. split; [apply Hchild|done].
  - simpl. rewrite Hid. by rewrite <- !app_assoc.
  - intros j Hj Hjlt. apply subdivided_lookup_old; [congruence|done].
  - intros fuel q found Hi. erewrite _query_descend; [|done|done|done|done].
    apply for_dirs_push_unchanged. intros d found'.
    eapply _query_empty_leaf; [apply Hchild|done|done].
  - intros this fuel j p Hinv.
    assert (Hwf' : store_wf s') by (by eapply store_wf_subdivided).
    assert (Hinv' : node_inv (capacity this) s')
      by (by apply node_inv_subdivided).
    destruct (_insert_inv this fuel j p s' Hwf' Hinv') as (_ & _ & Hg).
    destruct (grows_old p s' _ Hg k _ Hparent) as (n' & Hn' & _ & _ & _ & Hsame).
    by rewrite (Hsame eq_refl) in Hn'.
Qed.

(** ** What [update] writes *)

Lemma _findNodeIdRecursive_readonly fuel arg x y s :
  snd (_findNodeIdRecursive fuel arg x y s) = s.
Proof.
  revert arg. induction fuel as [|fuel IH]; intros arg; [done|].
  destruct arg as [node|i]; [|done]. cbn [_findNodeIdRecursive].
  destruct (negb _); [done|]. destruct (existsb _ _); [done|].
  destruct (divided node); [|done]. destruct (children node) as [ch|]; [|done].
  apply (for_dirs_return_inv (λ s', s' = s)); [|done].
  intros d s' ->. apply IH.
Qed.

(** [update] either leaves the store alone or rewrites one record,
    replacing the payload of the first point of its list that sits at the
    coordinates looked for. *)
Lemma update_effect this fuel x y d s :
  snd (update this fuel x y d s) = s
  ∨ ∃ k n x' y' pts,
      nodes s !! k = Some n
      ∧ set_first_data x' y' d (points n) = Some pts
      ∧ snd (update this fuel x y d s) = put_world k (with_points n pts) s.
Proof.
  unfold update, bind.
  pose proof (_findPoint_readonly fuel (rootId this) x y s) as Hro.
  destruct (_findPoint fuel (rootId this) x y s) as [[[p|]| |] s1];
    simpl in Hro; subst s1; auto.
  unfold _updateNode, _findNodeId, bind, db_get.
  destruct (nodes s !! rootId this) as [root|] eqn:Hroot; [|by left].
  pose proof (_findNodeIdRecursive_readonly fuel (NodeObject root)
                (Point.x p) (Point.y p) s) as Hro.
  destruct (_findNodeIdRecursive fuel (NodeObject root) (Point.x p)
              (Point.y p) s) as [[[k|]| |] s1];
    simpl in Hro; subst s1; auto.
  destruct (nodes s !! k) as [n|] eqn:Hk; [|by left].
  destruct (set_first_data (Point.x p) (Point.y p) d (points n))
    as [pts|] eqn:Hset; [|by left].
  right. exists k, n, (Point.x p), (Point.y p), pts. auto.
Qed.

Lemma set_first_data_length x y d l pts :
  set_first_data x y d l = Some pts → length pts = length l.
Proof.
  revert pts. induction l as [|p l IH]; intros pts; simpl; [done|].
  destruct (same_location x y p); [by intros [= <-]|].
  destruct (set_first_data x y d l) as [pts'|]; [|done].
  intros [= <-]. simpl. by rewrite (IH pts').
Qed.

Lemma divided_kept_refl s : divided_kept s s.
Proof. intros k n ? ?. eauto. Qed.

Lemma update_inv this fuel x y d s :
  store_wf s → node_inv (capacity this) s →
  store_wf (snd (update this fuel x y d s))
  ∧ node_inv (capacity this) (snd (update this fuel x y d s))
  ∧ divided_kept s (snd (update this fuel x y d s)).
Proof.
  intros Hwf Hinv.
  destruct (update_effect this fuel x y d s)
    as [->|(k & n & x' & y' & pts & Hk & Hset & ->)].
  { auto using divided_kept_refl. }
  split; [|split].
  - by eapply store_wf_put_same.
  - apply node_inv_put; [done|]. intros Hd. simpl.
    destruct (Hinv k n Hk Hd) as [Hch Hlen]. split; [done|].
    by rewrite (set_first_data_length _ _ _ _ _ Hset).
  - intros j m Hj Hd. simpl. rewrite lookup_insert. case_decide as Hjk.
    + subst j. assert (m = n) as -> by congruence. eauto.
    + eauto.
Qed.

Lemma grows_divided_kept p s s' : grows p s s' → divided_kept s s'.
Proof.
  intros Hg k n Hk Hd.
  destruct (grows_old p s s' Hg k n Hk) as (n' & Hk' & _ & _ & _ & Hsame).
  exists n'. split; [done|]. by rewrite (Hsame Hd).
Qed.

Lemma nearest_readonly this fuel x y radius s :
  snd (nearest this fuel x y radius s) = s.
Proof.
  unfold nearest, bind, range.
  destruct (_query _ _ _ _ s) as [o s1] eqn:Hrun.
  destruct (_query_sound _ _ _ _ _ _ _ Hrun) as [-> _].
  by destruct o.
Qed.

Lemma range_readonly this fuel minX minY maxX maxY s :
  snd (range this fuel minX minY maxX maxY s) = s.
Proof.
  unfold range. destruct (_query _ _ _ _ s) as [o s1] eqn:Hrun.
  by destruct (_query_sound _ _ _ _ _ _ _ Hrun) as [-> _].
Qed.

(** ** The node-state invariant *)

(** C6.  On a well-formed store in which every record is in a legal node
    state (an undivided record has no [children] field and at most
    [capacity] points), each of [insert], [update], [range] and [nearest]
    ends in such a store again, whatever its outcome, and no record that was
    divided is undivided afterwards; [range] and [nearest] do not write at
    all.  An insertion that arrives at an undivided node subdivides it
    exactly when the node's boundary contains the point and its list
    already has [capacity] points: outside the boundary the store is left
    alone, inside it the node is divided afterwards if and only if its list
    had length [capacity]. *)
Theorem operations_preserve_node_state (this : DiskQuadTree) (s : world) :
  store_wf s → node_inv (capacity this) s →
  (∀ fuel x y data,
     let s' := snd (insert this fuel x y data s) in
     store_wf s' ∧ node_inv (capacity this) s' ∧ divided_kept s s')
  ∧ (∀ fuel x y data,
       let s' := snd (update this fuel x y data s) in
       store_wf s' ∧ node_inv (capacity this) s' ∧ divided_kept s s')
  ∧ (∀ fuel minX minY maxX maxY,
       snd (range this fuel minX minY maxX maxY s) = s)
  ∧ (∀ fuel x y radius, snd (nearest this fuel x y radius s) = s)
  ∧ (∀ fuel k p n,
       nodes s !! k = Some n → divided n = false →
       let s' := snd (_insert this (S fuel) k p s) in
       (Rectangle.contains (boundary n) p = false → s' = s)
       ∧ (Rectangle.contains (boundary n) p = true →
          ((∃ n', nodes s' !! k = Some n' ∧ divided n' = true)
           ↔ length (points n) = capacity this))).
Proof.
  intros Hwf Hinv. split; [|split; [|split; [|split]]].
  - intros fuel x y data s'.
    assert (s' = snd (_insert this fuel (rootId this) (Point.mk x y data) s))
      as ->.
    { unfold s', insert, bind. by destruct (_insert _ _ _ _ s) as [[]]. }
    destruct (_insert_inv this fuel (rootId this) (Point.mk x y data) s Hwf Hinv)
      as (? & ? & Hg).
    split; [done|]. split; [done|]. by eapply grows_divided_kept.
  - intros fuel x y data. by apply update_inv.
  - intros. apply range_readonly.
  - intros. apply nearest_readonly.
  - intros fuel k p n Hk Hd s'. destruct (wf_key s Hwf k n Hk) as [Hid Hlt].
    destruct (Hinv k n Hk Hd) as [_ Hlen]. split.
    + intros Hc. unfold s'. by erewrite _insert_reject by done.
    + intros Hc.
      destruct (decide (length (points n) < capacity this)) as [Hroom|Hfull].
      * unfold s'. erewrite _insert_push by done. simpl.
        rewrite lookup_insert_eq. split; [|lia].
        intros (n' & [= <-] & Hd'). simpl in Hd'. congruence.
      * split; [lia|]. intros _. unfold s'.
        erewrite _insert_split by (done || lia).
        assert (Hwf1 : store_wf (subdivided n s))
          by (by eapply store_wf_subdivided).
        assert (Hinv1 : node_inv (capacity this) (subdivided n s))
          by (by apply node_inv_subdivided).
        apply (for_dirs_return_inv
                 (λ s1, store_wf s1 ∧ node_inv (capacity this) s1
                        ∧ ∃ n', nodes s1 !! k = Some n' ∧ divided n' = true)).
        -- intros d s1 (Hwf2 & Hinv2 & n' & Hn' & Hd').
           destruct (_insert_inv this fuel (child (fresh_children s) d) p s1
                       Hwf2 Hinv2) as (? & ? & Hg).
           split; [done|]. split; [done|].
           by eapply (grows_divided_kept p s1).
        -- split; [done|]. split; [done|].
           exists (divide n (fresh_children s)). split; [|done].
           rewrite <- Hid. apply subdivided_lookup_parent.
Qed.

(** ** Exact coordinate matches *)

Lemma find_same_location x y l p :
  List.find (same_location x y) l = Some p →
  same_location x y p = true
  ∧ ∃ l1 l2, l = l1 ++ p :: l2
             ∧ ∀ q, q ∈ l1 → same_location x y q = false.
Proof.
  induction l as [|a l IH]; simpl; [done|].
  destruct (same_location x y a) eqn:Ha.
  - intros [= <-]. split; [done|]. exists [], l. split; [done|].
    intros q Hq. by apply elem_of_nil in Hq.
  - intros Hf. destruct (IH Hf) as (Hp & l1 & l2 & -> & Hl1).
    split; [done|]. exists (a :: l1), l2. split; [done|].
    intros q Hq. apply elem_of_cons in Hq as [->|Hq]; auto.
Qed.

Lemma set_first_data_split x y d l1 p l2 :
  (∀ q, q ∈ l1 → same_location x y q = false) →
  same_location x y p = true →
  set_first_data x y d (l1 ++ p :: l2)
  = Some (l1 ++ Point.set_data p d :: l2).
Proof.
  intros Hl1 Hp. induction l1 as [|a l1 IH]; simpl.
  - by rewrite Hp.
  - rewrite Hl1 by set_solver. rewrite IH; [done|].
    intros q Hq. apply Hl1. set_solver.
Qed.

Lemma existsb_same_location x y l :
  existsb (same_location x y) l
  = if List.find (same_location x y) l is Some _ then true else false.
Proof.
  induction l as [|a l IH]; simpl; [done|].
  by destruct (same_location x y a).
Qed.

(** ** Update of a point the root does not list *)

Lemma for_dirs_return_some {A} (f : dir → M (option A)) (P : A → Prop)
    (s : world) (ds : list dir) a s' :
  (∀ d a s', f d s = (Done (Some a), s') → P a) →
  (∀ d, snd (f d s) = s) →
  for_dirs_return truthy_object f None ds s = (Done (Some a), s') → P a.
Proof.
  intros Hf Hro. induction ds as [|d ds IH]; simpl; [done|].
  unfold bind. pose proof (Hro d) as Hs.
  destruct (f d s) as [[[b|]| |] s1] eqn:Hrun; simpl in *; subst s1; try done.
  intros [= <- <-]. eauto.
Qed.

(** What [_findPoint] returns sits at the coordinates asked for. *)
Lemma _findPoint_sound fuel k x y s p s' :
  _findPoint fuel k x y s = (Done (Some p), s') →
  same_location x y p = true.
Proof.
  revert k p s'. induction fuel as [|fuel IH]; intros k p s'; [done|].
  destruct (nodes s !! k) as [n|] eqn:Hk;
    [|by rewrite _findPoint_missing].
  destruct (Rectangle.contains (boundary n) (Point.mk x y JUndefined)) eqn:Hc;
    [|by erewrite _findPoint_outside].
  destruct (List.find (same_location x y) (points n)) as [q|] eqn:Hf.
  { erewrite _findPoint_here by done. intros [= <- <-].
    by destruct (find_same_location _ _ _ _ Hf). }
  destruct (divided n) eqn:Hd; [|by erewrite _findPoint_leaf].
  destruct (children n) as [ch|] eqn:Hch;
    [|by erewrite _findPoint_no_children].
  erewrite _findPoint_descend by done.
  apply (for_dirs_return_some _ (λ p, same_location x y p = true)).
  - intros d a s1. apply IH.
  - intros d. apply _findPoint_readonly.
Qed.

(** ** What one insert does to the store *)

(** On a well-formed store whose records are in a legal state, [insert]
    keeps every record that was there under its identifier and with its
    boundary, only ever appends to point lists, leaves divided records
    exactly as they were, does not touch the root record of the metadata,
    and the only point that can be new anywhere is the inserted one.  This
    holds for every outcome of the call, a run cut short included. *)
Theorem insert_only_adds_the_point
    (this : DiskQuadTree) (fuel : nat) (x y : num) (data : jsval) (s : world) :
  store_wf s → node_inv (capacity this) s →
  let s' := snd (insert this fuel x y data s) in
  meta_root s' = meta_root s
  ∧ (∀ k n, nodes s !! k = Some n →
       ∃ n', nodes s' !! k = Some n' ∧ id n' = id n
             ∧ boundary n' = boundary n
             ∧ (∃ l, points n' = points n ++ l)
             ∧ (divided n = true → n' = n))
  ∧ (∀ k n' q, nodes s' !! k = Some n' → q ∈ points n' →
       q = Point.mk x y data ∨ ∃ n, nodes s !! k = Some n ∧ q ∈ points n).
Proof.
  intros Hwf Hinv s'.
  assert (s' = snd (_insert this fuel (rootId this) (Point.mk x y data) s))
    as ->.
  { unfold s', insert, bind. by destruct (_insert _ _ _ _ s) as [[]]. }
  destruct (_insert_inv this fuel (rootId this) (Point.mk x y data) s Hwf Hinv)
    as (_ & _ & [_ Hmeta Hold Hnew]).
  auto.
Qed.

(** On a well-formed store and with a positive capacity, [_insert] at the
    root returns, and it returns true exactly when the root boundary
    contains the point, provided every stored boundary that contains the
    point has a child boundary that contains it and the store keeps the
    numbers the call can write.  A rejected point leaves
    the store as it was; an accepted point is returned by every later
    [range] whose rectangle contains it and passes the overlap test with
    the stored boundaries that contain the point. *)
Theorem _insert_accepts_exactly_the_universe
    (this : DiskQuadTree) (fuel : nat) (p : Point.t num) (s : world)
    (root : Node) :
  store_wf s → node_inv (capacity this) s → 1 ≤ capacity this →
  store_covers s p → writes_survive s p →
  nodes s !! rootId this = Some root →
  next_uuid s - rootId this < fuel →
  ∃ s', _insert this fuel (rootId this) p s
        = (Done (Rectangle.contains (boundary root) p), s')
    ∧ (Rectangle.contains (boundary root) p = false → s' = s)
    ∧ (Rectangle.contains (boundary root) p = true →
       ∀ minX minY maxX maxY,
         let q := {| Rectangle.x := ((minX + maxX) / n_two)%num;
                     Rectangle.y := ((minY + maxY) / n_two)%num;
                     Rectangle.w := ((maxX - minX) / n_two)%num;
                     Rectangle.h := ((maxY - minY) / n_two)%num |} in
         Rectangle.contains q p = true → store_meets s' q p →
         ∃ res, range this (4 + fuel) minX minY maxX maxY s' = (Done res, s')
                ∧ p ∈ res).
Proof.
  intros Hwf Hinv Hcap Hcov _ Hroot Hfuel.
  destruct (Rectangle.contains (boundary root) p) eqn:Hc.
  - destruct (_insert_accepts this fuel (rootId this) p s root)
      as (s' & Hrun & Hh & Hnext); [done..|].
    exists s'. split; [done|]. split; [done|].
    intros _ minX minY maxX maxY q Hq Hmeets.
    pose proof (_insert_inv this fuel (rootId this) p s Hwf Hinv) as Hpost.
    rewrite Hrun in Hpost. destruct Hpost as (Hwf' & _ & Hg).
    destruct (grows_old p s s' Hg _ root Hroot) as (root' & Hroot' & _).
    destruct (_query_total (4 + fuel) (rootId this)
                (query_rectangle minX minY maxX maxY) [] s' root')
      as (r & Hr & Hcomplete); [done|done|lia|].
    exists r. split; [done|]. by apply Hcomplete.
  - destruct fuel as [|fuel]; [lia|].
    exists s. erewrite _insert_reject by done. done.
Qed.

(** ** Operations on a store without its root record *)

(** When the record of the root is missing from the store, every
    operation fails with the store's not-found error at its first read, and
    nothing is written. *)
Theorem operations_fail_without_root_record
    (this : DiskQuadTree) (fuel : nat) (s : world) :
  nodes s !! rootId this = None →
  (∀ x y data, insert this (S fuel) x y data s = (Throw NotFoundError, s))
  ∧ (∀ minX minY maxX maxY,
       range this (S fuel) minX minY maxX maxY s = (Throw NotFoundError, s))
  ∧ (∀ x y radius,
       nearest this (S fuel) x y radius s = (Throw NotFoundError, s))
  ∧ (∀ x y data, update this (S fuel) x y data s = (Throw NotFoundError, s)).
Proof.
  intros Hroot. split; [|split; [|split]].
  - intros. unfold insert, bind. by rewrite _insert_missing.
  - intros. unfold range. by rewrite _query_missing.
  - intros. unfold nearest, range, bind. by rewrite _query_missing.
  - intros. unfold update, bind. by rewrite _findPoint_missing.
Qed.

(** ** The order of the results of a query *)

Lemma for_dirs_push_found {B} (f : dir → list B → M (list B)) (s : world)
    (ds : list dir) :
  (∀ d found, f d found s = (outcome_map (app found) (fst (f d [] s)), s)) →
  ∀ found,
    for_dirs_push f ds found s
    = (outcome_map (app found) (fst (for_dirs_push f ds [] s)), s).
Proof.
  intros Hf. induction ds as [|d ds IH]; intros found; simpl.
  { by rewrite app_nil_r. }
  unfold bind. rewrite (Hf d found).
  pose proof (Hf d []) as Hnil.
  destruct (f d [] s) as [[r| |] s1]; simpl in *; try done.
  injection Hnil as ->. rewrite (IH (found ++ r)), (IH r).
  destruct (for_dirs_push f ds [] s) as [[r'| |] s2]; simpl; try done.
  by rewrite app_assoc.
Qed.

(** Whatever array [_query] is handed, it returns that array followed by
    what it returns when handed the empty array, on any store. *)
Lemma _query_found fuel k q found s :
  _query fuel k q found s
  = (outcome_map (app found) (fst (_query fuel k q [] s)), s).
Proof.
  revert k found. induction fuel as [|fuel IH]; intros k found; [done|].
  destruct (nodes s !! k) as [n|] eqn:Hk;
    [|by rewrite !_query_missing].
  destruct (Rectangle.intersects (boundary n) q) eqn:Hi.
  2:{ erewrite !_query_skip by done. simpl. by rewrite app_nil_r. }
  destruct (divided n) eqn:Hd; [|by erewrite !_query_leaf by done].
  destruct (children n) as [ch|] eqn:Hch;
    [|by erewrite !_query_no_children by done].
  erewrite !_query_descend by done.
  rewrite (for_dirs_push_found _ s dirs (λ d found, IH (child ch d) found)
             (found ++ _)).
  rewrite (for_dirs_push_found _ s dirs (λ d found, IH (child ch d) found)
             ([] ++ _)).
  destruct (for_dirs_push _ dirs [] s) as [[r| |] s1]; simpl; try done.
  by rewrite app_assoc.
Qed.

(** The result of a query on a divided node whose boundary meets the
    query rectangle is a pre-order listing: the node's own matches in their
    stored order, then the results of the ne, nw, se and sw children, in
    that order, after whatever the array already held. *)
Theorem query_results_are_in_preorder
    (fuel : nat) (k : uuid) (q : Rectangle.t num) (found : list (Point.t num))
    (s : world) (n : Node) (ch : Children) (r : dir → list (Point.t num)) :
  nodes s !! k = Some n → Rectangle.intersects (boundary n) q = true →
  divided n = true → children n = Some ch →
  (∀ d, fst (_query fuel (child ch d) q [] s) = Done (r d)) →
  _query (S fuel) k q found s
  = (Done (found ++ List.filter (Rectangle.contains q) (points n)
             ++ r ne ++ r nw ++ r se ++ r sw), s).
Proof.
  intros Hk Hi Hd Hch Hr. erewrite _query_descend by done.
  unfold dirs. simpl. unfold bind.
  rewrite (_query_found fuel (child ch ne)), (Hr ne). simpl.
  rewrite (_query_found fuel (child ch nw)), (Hr nw). simpl.
  rewrite (_query_found fuel (child ch se)), (Hr se). simpl.
  rewrite (_query_found fuel (child ch sw)), (Hr sw). simpl.
  unfold ret. by rewrite <- !app_assoc.
Qed.

(** ** Capacity zero *)

Lemma for_dirs_return_never_true (f : dir → M bool) (ds : list dir) s :
  (∀ d s1, fst (f d s1) ≠ Done true) →
  fst (for_dirs_return truthy_bool f false ds s) ≠ Done true.
Proof.
  intros Hf. revert s. induction ds as [|d ds IH]; intros s; simpl; [done|].
  unfold bind. pose proof (Hf d s) as Hd.
  destruct (f d s) as [[[]| |] s1]; simpl in *; done || apply IH.
Qed.

(** With capacity 0 no leaf ever has room, so no insertion is ever
    accepted: whatever the store, the node, the point and the fuel,
    [_insert] does not return true.  The point is dropped, the call throws,
    or it subdivides without end. *)
Theorem _insert_with_capacity_zero_never_accepts
    (this : DiskQuadTree) (fuel : nat) (k : uuid) (p : Point.t num)
    (s : world) :
  capacity this = 0 → fst (_insert this fuel k p s) ≠ Done true.
Proof.
  intros Hcap. revert k s. induction fuel as [|fuel IH]; intros k s; [done|].
  destruct (nodes s !! k) as [n|] eqn:Hk; [|by rewrite _insert_missing].
  destruct (Rectangle.contains (boundary n) p) eqn:Hc;
    [|by erewrite _insert_reject].
  destruct (divided n) eqn:Hd.
  - destruct (children n) as [ch|] eqn:Hch.
    + erewrite _insert_descend by done.
      apply for_dirs_return_never_true. intros d s1. apply IH.
    + by erewrite _insert_no_children.
  - erewrite _insert_split by (done || lia).
    apply for_dirs_return_never_true. intros d s1. apply IH.
Qed.

(** ** Reachable stores *)

(** Every store reachable through a tree handle is well formed, has all
    its records in a legal node state, still names the root of the handle in
    its metadata record, and still holds the root record under that
    identifier with the boundary given at initialisation. *)
Theorem reachable_store_is_well_formed
    (this : DiskQuadTree) (bnd : Rectangle.t num) (s : world) :
  reachable this bnd s →
  store_wf s ∧ node_inv (capacity this) s
  ∧ meta_root s = Some (rootId this)
  ∧ ∃ root, nodes s !! rootId this = Some root
            ∧ id root = rootId this ∧ boundary root = bnd.
Proof.
  induction 1 as [s0 cap s Hmeta Hempty Hinit
                 |s fuel op _ (Hwf & Hinv & Hmeta & root & Hroot & Hid & Hb)].
  - rewrite init_fresh in Hinit by done. injection Hinit as <- <-.
    split; [by apply store_wf_bootstrapped|].
    split; [by apply node_inv_bootstrapped|]. split; [done|].
    exists (root_node (next_uuid s0) bnd). simpl.
    by rewrite lookup_insert_eq.
  - destruct op as [x y data|x y data|minX minY maxX maxY|x y radius]; simpl.
    + assert (snd (insert this fuel x y data s)
              = snd (_insert this fuel (rootId this) (Point.mk x y data) s))
        as ->.
      { unfold insert, bind. by destruct (_insert _ _ _ _ s) as [[]]. }
      destruct (_insert_inv this fuel (rootId this) (Point.mk x y data) s
                  Hwf Hinv) as (Hwf' & Hinv' & Hg).
      split; [done|]. split; [done|].
      split; [by rewrite (grows_meta _ _ _ Hg)|].
      destruct (grows_old _ _ _ Hg _ root Hroot)
        as (root' & Hroot' & Hid' & Hb' & _).
      exists root'. split; [done|]. split; congruence.
    + destruct (update_inv this fuel x y data s Hwf Hinv) as (Hwf' & Hinv' & _).
      split; [done|]. split; [done|].
      destruct (update_effect this fuel x y data s)
        as [->|(k & n & x' & y' & pts & Hk & Hset & ->)].
      { split; [done|]. exists root. by split. }
      simpl. split; [done|]. rewrite lookup_insert. case_decide as Hkr.
      * subst k. exists (with_points n pts). split; [done|].
        assert (n = root) as -> by congruence. by split.
      * exists root. by split.
    + rewrite range_readonly. do 3 (split; [done|]). exists root. by split.
    + rewrite nearest_readonly. do 3 (split; [done|]). exists root. by split.
Qed.

(** ** Insert, update, then query *)



(** ** Queries on an arbitrary store *)

(** On any store, well formed or not, and whatever the outcome, [range]
    and [nearest] write nothing; what [range] returns are stored points that
    pass the containment test of the query rectangle, and what [nearest]
    returns is a stored point. *)
Theorem queries_never_write_and_return_stored_points
    (this : DiskQuadTree) (fuel : nat) (s : world) :
  (∀ minX minY maxX maxY,
     snd (range this fuel minX minY maxX maxY s) = s
     ∧ ∀ res p,
         fst (range this fuel minX minY maxX maxY s) = Done res → p ∈ res →
         Rectangle.contains (query_rectangle minX minY maxX maxY) p = true
         ∧ stored s p)
  ∧ (∀ x y radius,
       snd (nearest this fuel x y radius s) = s
       ∧ ∀ p, fst (nearest this fuel x y radius s) = Done (Some p) →
              stored s p).
Proof.
  split.
  - intros minX minY maxX maxY. split; [apply range_readonly|].
    intros res p Hres Hp. unfold range in Hres.
    destruct (_query fuel (rootId this)
                (query_rectangle minX minY maxX maxY) [] s) as [o s1] eqn:Hrun.
    destruct (_query_sound _ _ _ _ _ _ _ Hrun) as [_ Hsound].
    simpl in Hres. destruct (Hsound _ Hres) as (r & -> & Hall).
    rewrite Forall_forall in Hall. by apply Hall.
  - intros x y radius. split; [apply nearest_readonly|].
    intros p. unfold nearest, bind, range.
    destruct (_query fuel (rootId this) _ [] s) as [o s1] eqn:Hrun.
    destruct (_query_sound _ _ _ _ _ _ _ Hrun) as [_ Hsound].
    destruct o as [cands| |]; simpl; try done.
    intros [= Hhead]. destruct (Hsound _ eq_refl) as (r & -> & Hall).
    rewrite Forall_forall in Hall. simpl in Hhead.
    apply head_Some_elem_of in Hhead. rewrite array_sort_perm in Hhead.
    by destruct (Hall p Hhead).
Qed.

(** ** The writes of an accepted insert *)

Lemma in_subtree_trans s k1 k2 k3 :
  in_subtree s k1 k2 → in_subtree s k2 k3 → in_subtree s k1 k3.
Proof.
  induction 1 as [k|k n ch d k' Hk Hd Hch _ IH]; [done|].
  intros H3. eapply in_subtree_child; eauto.
Qed.

(** On a well-formed store with a positive capacity, an insert of a point
    inside the universe, such that every stored boundary that contains the
    point has a child boundary that contains it and the store keeps the
    numbers the call can write, returns after writing
    either one record, the leaf that takes the point, or six: the four
    children of a full leaf in the order ne, nw, se, sw, the leaf itself,
    and the child that takes the point.  It never writes the metadata
    record. *)
Theorem accepted_insert_writes_one_or_six_records
    (this : DiskQuadTree) (fuel : nat) (x y : num) (data : jsval)
    (s : world) (root : Node) :
  store_wf s → 1 ≤ capacity this →
  store_covers s (Point.mk x y data) →
  writes_survive s (Point.mk x y data) →
  nodes s !! rootId this = Some root →
  Rectangle.contains (boundary root) (Point.mk x y data) = true →
  next_uuid s - rootId this < fuel →
  ∃ s' l,
    insert this fuel x y data s = (Done tt, s')
    ∧ (puts s' = puts s ++ [NodeKey l]
       ∨ ∃ d, puts s'
              = puts s ++ [NodeKey (next_uuid s); NodeKey (1 + next_uuid s);
                           NodeKey (2 + next_uuid s);
                           NodeKey (3 + next_uuid s);
                           NodeKey l; NodeKey (child (fresh_children s) d)]).
Proof.
  intros Hwf Hcap Hcov _ Hroot Hc Hfuel.
  destruct (_insert_effect this fuel (rootId this) (Point.mk x y data) s root)
    as (l & leaf & s' & Hrun & _ & Hl & _ & _ & Heff); [done..|].
  destruct (wf_key s Hwf l leaf Hl) as [Hid _].
  exists s', l. unfold insert, bind. rewrite Hrun. split; [done|].
  destruct Heff as [[_ ->]|(_ & d & _ & ->)].
  - by left.
  - right. exists d. simpl. rewrite Hid. by rewrite <- !app_assoc.
Qed.

(** ** The tree the store holds *)

Lemma collected_unfold s q t :
  collected s q t
  = match nodes s !! root_of t with
    | Some n =>
        if Rectangle.intersects (boundary n) q then
          List.filter (Rectangle.contains q) (points n)
          ++ match t with
             | SLeaf _ => []
             | SNode _ a b c d =>
                 collected s q a ++ collected s q b
                 ++ collected s q c ++ collected s q d
             end
        else []
    | None => []
    end.
Proof. by destruct t. Qed.

(** A query on the root of a represented subtree returns what
    [collected] lists. *)
Lemma _query_repr fuel q s t found :
  repr s t → depth t ≤ fuel →
  _query fuel (root_of t) q found s = (Done (found ++ collected s q t), s).
Proof.
  revert fuel found.
  induction t as [k|k a IHa b IHb c IHc d IHd]; intros fuel found Hrepr Hfuel.
  - destruct Hrepr as (n & Hk & Hd). simpl in *.
    destruct fuel as [|fuel]; [lia|]. rewrite Hk.
    destruct (Rectangle.intersects (boundary n) q) eqn:Hi.
    + erewrite _query_leaf by done. by rewrite app_nil_r.
    + erewrite _query_skip by done. by rewrite app_nil_r.
  - destruct Hrepr as (n & Hk & Hd & Hch & Ha & Hb & Hc & Hdd).
    rewrite collected_unfold. simpl in Hfuel. simpl root_of. rewrite Hk.
    destruct fuel as [|fuel]; [lia|].
    destruct (Rectangle.intersects (boundary n) q) eqn:Hi.
    + erewrite (query_results_are_in_preorder fuel k q found s n _
                  (λ dir, match dir with
                          | ne => collected s q a | nw => collected s q b
                          | se => collected s q c | sw => collected s q d
                          end)); [|done|done|done|done|].
      * done.
      * intros [| | |]; simpl.
        -- by rewrite (IHa fuel []) by (done || lia).
        -- by rewrite (IHb fuel []) by (done || lia).
        -- by rewrite (IHc fuel []) by (done || lia).
        -- by rewrite (IHd fuel []) by (done || lia).
    + erewrite _query_skip by done. by rewrite app_nil_r.
Qed.

Lemma repr_root s t : repr s t → is_Some (nodes s !! root_of t).
Proof. destruct t; simpl; intros (n & Hk & _); eauto. Qed.

Lemma all_points_stored s t p : In p (all_points s t) → stored s p.
Proof.
  unfold all_points. rewrite in_flat_map. intros (k & _ & Hp).
  unfold points_at in Hp. destruct (nodes s !! k) as [m|] eqn:Hk; [|done].
  exists k, m. split; [done|]. by apply list_elem_of_In.
Qed.

(** In a well-formed store the root of a child holds the quadrant of its
    parent, so a subtree keeps its points inside the boundary of its root
    when a quadrant contains no more than the boundary it was cut from. *)
Lemma all_points_inside s t n p :
  store_wf s → points_inside s → store_nests s p → repr s t →
  nodes s !! root_of t = Some n → In p (all_points s t) →
  Rectangle.contains (boundary n) p = true.
Proof.
  intros Hwf Hin Hnest. revert n.
  induction t as [k|k a IHa b IHb c IHc d IHd]; intros n Hrepr Hroot Hp.
  - unfold all_points, points_at in Hp. simpl in *. rewrite Hroot in Hp.
    rewrite app_nil_r in Hp. apply (Hin k n p Hroot). by apply list_elem_of_In.
  - destruct Hrepr as (n' & Hk & Hd & Hch & Ha & Hb & Hc & Hdd).
    simpl in Hroot. assert (n' = n) as -> by congruence.
    destruct (wf_children s Hwf k n Hk Hd) as (ch & Hch' & Hlinks).
    assert (ch = {| c_ne := root_of a; c_nw := root_of b;
                    c_se := root_of c; c_sw := root_of d |}) as ->
      by congruence.
    unfold all_points in Hp. simpl in Hp. rewrite !flat_map_app in Hp.
    rewrite !in_app_iff in Hp.
    destruct Hp as [Hp|[Hp|[Hp|[Hp|Hp]]]].
    + unfold points_at in Hp. rewrite Hk in Hp.
      apply (Hin k n p Hk). by apply list_elem_of_In.
    + destruct (Hlinks ne) as (_ & cn & Hcn & Hcb). simpl in Hcn.
      apply (nests_spec _ _ ne (Hnest k n Hk)). rewrite <- Hcb. by apply IHa.
    + destruct (Hlinks nw) as (_ & cn & Hcn & Hcb). simpl in Hcn.
      apply (nests_spec _ _ nw (Hnest k n Hk)). rewrite <- Hcb. by apply IHb.
    + destruct (Hlinks se) as (_ & cn & Hcn & Hcb). simpl in Hcn.
      apply (nests_spec _ _ se (Hnest k n Hk)). rewrite <- Hcb. by apply IHc.
    + destruct (Hlinks sw) as (_ & cn & Hcn & Hcb). simpl in Hcn.
      apply (nests_spec _ _ sw (Hnest k n Hk)). rewrite <- Hcb. by apply IHd.
Qed.

Lemma filter_none {A} (f : A → bool) (l : list A) :
  (∀ x, In x l → f x = false) → List.filter f l = [].
Proof.
  induction l as [|a l IH]; intros Hl; simpl; [done|].
  rewrite Hl by (by left). apply IH. intros x Hx. apply Hl. by right.
Qed.

(** Pruning loses nothing: what a query collects is the pre-order list of
    all points of the subtree, filtered by the containment test. *)
Lemma collected_filter s q t :
  store_wf s → points_inside s →
  (∀ p, stored s p → store_nests s p ∧ store_meets s q p) →
  repr s t →
  collected s q t = List.filter (Rectangle.contains q) (all_points s t).
Proof.
  intros Hwf Hin Hok Hrepr.
  assert (Hpruned : ∀ t n, repr s t → nodes s !! root_of t = Some n →
            Rectangle.intersects (boundary n) q = false →
            List.filter (Rectangle.contains q) (all_points s t) = []).
  { intros t' n Hr Hn Hi. apply filter_none. intros p Hp.
    apply not_true_iff_false. intros Hq.
    destruct (Hok p (all_points_stored s t' p Hp)) as [Hnest Hmeet].
    pose proof (all_points_inside s t' n p Hwf Hin Hnest Hr Hn Hp) as Hb.
    pose proof (meets_spec _ _ _ (Hmeet _ n Hn) Hb Hq). congruence. }
  induction t as [k|k a IHa b IHb c IHc d IHd].
  - destruct Hrepr as (n & Hk & Hd). simpl. rewrite Hk.
    destruct (Rectangle.intersects (boundary n) q) eqn:Hi.
    + unfold all_points, points_at. simpl. rewrite Hk.
      by rewrite !app_nil_r.
    + symmetry. eapply (Hpruned (SLeaf k)); [by exists n|done|done].
  - pose proof Hrepr as (n & Hk & Hd & Hch & Ha & Hb & Hc & Hdd).
    rewrite collected_unfold. simpl root_of. rewrite Hk.
    destruct (Rectangle.intersects (boundary n) q) eqn:Hi.
    + rewrite IHa, IHb, IHc, IHd by done.
      unfold all_points. simpl. rewrite !flat_map_app, !List.filter_app.
      unfold points_at at 5. by rewrite Hk.
    + symmetry. eapply (Hpruned (SNode k a b c d)); [done|done|done].
Qed.

(** ** Each inserted point is stored once *)

Lemma ids_stored s t j : repr s t → j ∈ ids t → is_Some (nodes s !! j).
Proof.
  induction t as [k|k a IHa b IHb c IHc d IHd]; simpl.
  - intros (n & Hk & _) Hj. apply list_elem_of_singleton in Hj as ->. eauto.
  - intros (n & Hk & _ & _ & Ha & Hb & Hc & Hd) Hj.
    rewrite elem_of_cons, !elem_of_app in Hj.
    destruct Hj as [->|[?|[?|[?|?]]]]; eauto.
Qed.

Lemma depth_bound s t :
  store_wf s → repr s t → root_of t + depth t ≤ next_uuid s.
Proof.
  intros Hwf. induction t as [k|k a IHa b IHb c IHc d IHd]; simpl.
  - intros (n & Hk & _). destruct (wf_key s Hwf k n Hk). lia.
  - intros (n & Hk & Hd & Hch & Ha & Hb & Hc & Hdd).
    destruct (wf_children s Hwf k n Hk Hd) as (ch & Hch' & Hlinks).
    assert (ch = {| c_ne := root_of a; c_nw := root_of b;
                    c_se := root_of c; c_sw := root_of d |}) as ->
      by congruence.
    destruct (Hlinks ne) as [Hne _], (Hlinks nw) as [Hnw _],
      (Hlinks se) as [Hse _], (Hlinks sw) as [Hsw _]. simpl in *.
    specialize (IHa Ha). specialize (IHb Hb). specialize (IHc Hc).
    specialize (IHd Hdd). lia.
Qed.

Lemma in_subtree_ids s t l :
  repr s t → in_subtree s (root_of t) l → l ∈ ids t.
Proof.
  intros Hrepr Hsub. remember (root_of t) as k eqn:Hk. revert t Hrepr Hk.
  induction Hsub as [k|k n ch d k' Hn Hd Hch _ IH]; intros t Hrepr ->.
  - destruct t; simpl; rewrite elem_of_cons; by left.
  - destruct t as [j|j a b c e]; simpl in *.
    + destruct Hrepr as (n' & Hn' & Hd'). congruence.
    + destruct Hrepr as (n' & Hn' & _ & Hch' & Ha & Hb & Hc & He).
      assert (n' = n) as -> by congruence.
      assert (ch = {| c_ne := root_of a; c_nw := root_of b;
                      c_se := root_of c; c_sw := root_of e |}) as ->
        by congruence.
      rewrite elem_of_cons, !elem_of_app. right.
      destruct d; simpl in IH.
      * left. by apply IH.
      * right; left. by apply IH.
      * right; right; left. by apply IH.
      * right; right; right. by apply IH.
Qed.

(** A store that keeps the links of the records of [t] keeps [t]. *)
Lemma repr_same_links s s' t :
  (∀ j n, j ∈ ids t → nodes s !! j = Some n →
          ∃ n', nodes s' !! j = Some n' ∧ divided n' = divided n
                ∧ children n' = children n) →
  repr s t → repr s' t.
Proof.
  induction t as [k|k a IHa b IHb c IHc d IHd]; simpl; intros Hsame.
  - intros (n & Hk & Hd). destruct (Hsame k n) as (n' & Hk' & Hd' & _);
      [set_solver|done|]. exists n'. split; [done|congruence].
  - intros (n & Hk & Hd & Hch & Ha & Hb & Hc & Hdd).
    destruct (Hsame k n) as (n' & Hk' & Hd' & Hch'); [set_solver|done|].
    exists n'. split; [done|]. split; [congruence|]. split; [congruence|].
    split; [|split; [|split]].
    + apply IHa; [|done]. intros j m Hj. apply Hsame. set_solver.
    + apply IHb; [|done]. intros j m Hj. apply Hsame. set_solver.
    + apply IHc; [|done]. intros j m Hj. apply Hsame. set_solver.
    + apply IHd; [|done]. intros j m Hj. apply Hsame. set_solver.
Qed.

Lemma root_of_graft l new t :
  root_of new = l → root_of (graft l new t) = root_of t.
Proof. intros Hnew. destruct t; simpl; [|done]. case_decide; by subst. Qed.

Lemma ids_graft s l leaf new t :
  nodes s !! l = Some leaf → divided leaf = false → repr s t →
  ids (graft l new t)
  = flat_map (λ j, (if decide (j = l) then ids new else [j])) (ids t).
Proof.
  intros Hl Hleaf. induction t as [k|k a IHa b IHb c IHc d IHd]; simpl.
  - intros _. case_decide; simpl; by rewrite ?app_nil_r.
  - intros (n & Hk & Hd & _ & Ha & Hb & Hc & Hdd).
    case_decide as Hkl; [subst k; congruence|].
    rewrite !flat_map_app, IHa, IHb, IHc, IHd by done. done.
Qed.

Lemma flat_map_ext_elem {A B} (f g : A → list B) (l : list A) :
  (∀ x, x ∈ l → f x = g x) → flat_map f l = flat_map g l.
Proof.
  induction l as [|a l IH]; intros Hfg; simpl; [done|].
  rewrite Hfg by set_solver. rewrite IH; [done|].
  intros x Hx. apply Hfg. set_solver.
Qed.

Lemma flat_map_singletons {A} (g : A → list A) (l : list A) :
  (∀ x, x ∈ l → g x = [x]) → flat_map g l = l.
Proof.
  induction l as [|a l IH]; intros Hg; simpl; [done|].
  rewrite Hg by set_solver. simpl. rewrite IH; [done|].
  intros x Hx. apply Hg. set_solver.
Qed.

Lemma NoDup_split_at {A} (l : list A) (x : A) :
  NoDup l → x ∈ l → ∃ l1 l2, l = l1 ++ (x :: l2) ∧ (x ∉ l1) ∧ (x ∉ l2).
Proof.
  intros Hnd Hx. apply list_elem_of_split in Hx as (l1 & l2 & ->).
  exists l1, l2. split; [done|].
  apply NoDup_app in Hnd as (_ & Hdisj & Hnd2).
  apply NoDup_cons in Hnd2 as [Hx2 _]. split; [|done].
  intros Hx1. apply (Hdisj x Hx1). set_solver.
Qed.

Lemma perm_insert_middle {A} (l1 l l2 : list A) (p : A) (pts : list A) :
  l1 ++ l ++ l2 ≡ₚ pts → l1 ++ (l ++ [p]) ++ l2 ≡ₚ pts ++ [p].
Proof.
  intros <-. rewrite <- !app_assoc. simpl.
  rewrite !app_assoc. rewrite <- Permutation_middle.
  by rewrite Permutation_cons_append, <- !app_assoc.
Qed.

Lemma perm_insert_cons {A} (l1 l l2 : list A) (p : A) (pts : list A) :
  l1 ++ l ++ l2 ≡ₚ pts → l1 ++ l ++ p :: l2 ≡ₚ pts ++ [p].
Proof.
  intros <-. rewrite !app_assoc. rewrite <- Permutation_middle.
  by rewrite Permutation_cons_append.
Qed.

Lemma counted_pushed this pts s l leaf p :
  store_wf s → counted this pts s →
  in_subtree s (rootId this) l →
  nodes s !! l = Some leaf →
  Rectangle.contains (boundary leaf) p = true →
  counted this (pts ++ [p]) (pushed l leaf p s).
Proof.
  intros Hwf (Hin & t & Hroot & Hrepr & Hnd & Hperm) Hsub Hl Hc. split.
  - intros j n q. rewrite pushed_lookup. case_decide as Hj.
    + intros [= <-]. simpl. rewrite elem_of_app, list_elem_of_singleton.
      intros [Hq| ->]; [|done]. by apply (Hin l leaf q).
    + apply Hin.
  - exists t. split; [done|]. split; [|split; [done|]].
    + apply (repr_same_links s); [|done]. intros j n _ Hj.
      rewrite pushed_lookup. case_decide as Hlj; [|eauto].
      subst j. assert (n = leaf) as -> by congruence. eauto.
    + assert (l ∈ ids t) as Hlt.
      { apply (in_subtree_ids s); [done|by rewrite Hroot]. }
      destruct (NoDup_split_at _ _ Hnd Hlt) as (l1 & l2 & Hids & Hl1 & Hl2).
      unfold all_points in *. rewrite Hids in *.
      rewrite flat_map_app in *. simpl in *.
      assert (Hsame : ∀ L, l ∉ L →
                flat_map (points_at (pushed l leaf p s)) L
                = flat_map (points_at s) L).
      { intros L HL. apply flat_map_ext_elem. intros x Hx.
        unfold points_at. rewrite pushed_lookup.
        rewrite decide_False; [done|]. by intros ->. }
      rewrite !Hsame by done.
      replace (points_at (pushed l leaf p s) l) with (points_at s l ++ [p]).
      2:{ unfold points_at. rewrite pushed_lookup, decide_True by done.
          by rewrite Hl. }
      by apply perm_insert_middle.
Qed.

Lemma counted_split_pushed this pts s l leaf d p :
  store_wf s → counted this pts s →
  in_subtree s (rootId this) l →
  nodes s !! l = Some leaf → divided leaf = false →
  Rectangle.contains (child_boundary (boundary leaf) d) p = true →
  counted this (pts ++ [p]) (split_pushed leaf d p s).
Proof.
  intros Hwf (Hin & t & Hroot & Hrepr & Hnd & Hperm) Hsub Hl Hleaf Hc.
  destruct (wf_key s Hwf l leaf Hl) as [Hid Hlt].
  assert (Hold : ∀ j, j ≠ l → j < next_uuid s →
            nodes (split_pushed leaf d p s) !! j = nodes s !! j).
  { intros j Hj Hjlt. apply split_pushed_lookup_old; [congruence|done]. }
  assert (Hparent : nodes (split_pushed leaf d p s) !! l
                    = Some (divide leaf (fresh_children s))).
  { rewrite <- Hid. apply split_pushed_lookup_parent. lia. }
  assert (Hchild : ∀ d', ∃ c,
            nodes (split_pushed leaf d p s) !! child (fresh_children s) d'
            = Some c
            ∧ divided c = false
            ∧ boundary c = child_boundary (boundary leaf) d'
            ∧ points c = if decide (d' = d) then [p] else []).
  { intros d'. apply split_pushed_lookup_child. lia. }
  assert (Hbound : ∀ j, j ∈ ids t → j < next_uuid s).
  { intros j Hj. destruct (ids_stored s t j Hrepr Hj) as [n Hn].
    by destruct (wf_key s Hwf j n Hn). }
  assert (Hin' : points_inside (split_pushed leaf d p s)).
  { (* every point still lies in the boundary of its record *)
    intros j n q Hj Hq.
    destruct (decide (j = l)) as [->|Hjl].
    { rewrite Hparent in Hj. injection Hj as <-. by apply (Hin l leaf q). }
    destruct (decide (j < next_uuid s)) as [Hjlt|Hjge].
    { rewrite Hold in Hj by done. by apply (Hin j n q). }
    unfold split_pushed, put_world, db_put in Hj. cbn [snd nodes] in Hj.
    rewrite lookup_insert in Hj. case_decide as Hjd.
    - injection Hj as <-. simpl in Hq.
      apply list_elem_of_singleton in Hq as ->. done.
    - apply subdivided_lookup_inv in Hj
        as [[-> _]|[(d' & -> & ->)|[Hj _]]]; [done| |].
      + simpl in Hq. by apply elem_of_nil in Hq.
      + destruct (wf_key s Hwf j n Hj). lia. }
  split; [done|]. clear Hin'.
  remember (split_pushed leaf d p s) as s' eqn:Hs'. clear Hs'.
  exists (graft l (split_shape l (fresh_children s)) t).
  split; [by rewrite root_of_graft|]. split; [|split].
  - (* the grafted shape is the shape of the new store *)
    clear Hperm Hnd Hroot Hsub. revert Hrepr Hbound.
    induction t as [k|k a IHa b IHb c IHc e IHe];
      cbn [repr graft ids]; intros Hrepr Hbound.
    + destruct Hrepr as (n & Hk & Hd). case_decide as Hkl.
      * subst k. cbn [split_shape repr root_of].
        exists (divide leaf (fresh_children s)).
        split; [done|]. split; [done|]. split; [done|].
        destruct (Hchild ne) as (c1 & Hc1 & Hd1 & _),
          (Hchild nw) as (c2 & Hc2 & Hd2 & _),
          (Hchild se) as (c3 & Hc3 & Hd3 & _),
          (Hchild sw) as (c4 & Hc4 & Hd4 & _).
        cbn [child] in *.
        split; [by exists c1|]. split; [by exists c2|].
        split; [by exists c3|]. by exists c4.
      * cbn [repr]. exists n. split; [|done].
        rewrite Hold; [done|done|]. apply Hbound. by left.
    + destruct Hrepr as (n & Hk & Hd & Hch & Ha & Hb & Hc' & He).
      assert (k ≠ l) as Hkl by (intros ->; congruence).
      exists n. split; [rewrite Hold; [done|done|apply Hbound; by left]|].
      split; [done|]. rewrite !root_of_graft by done. split; [done|].
      split; [|split; [|split]].
      * apply IHa; [done|]. intros j Hj. apply Hbound.
        rewrite elem_of_cons, !elem_of_app. tauto.
      * apply IHb; [done|]. intros j Hj. apply Hbound.
        rewrite elem_of_cons, !elem_of_app. tauto.
      * apply IHc; [done|]. intros j Hj. apply Hbound.
        rewrite elem_of_cons, !elem_of_app. tauto.
      * apply IHe; [done|]. intros j Hj. apply Hbound.
        rewrite elem_of_cons, !elem_of_app. tauto.
  - (* no identifier occurs twice *)
    rewrite (ids_graft s l leaf) by done.
    assert (l ∈ ids t) as Hlin.
    { apply (in_subtree_ids s); [done|by rewrite Hroot]. }
    destruct (NoDup_split_at _ _ Hnd Hlin) as (l1 & l2 & Hids & Hl1 & Hl2).
    rewrite Hids in *. rewrite flat_map_app. cbn [flat_map].
    rewrite decide_True by done.
    rewrite !flat_map_singletons.
    2,3: intros x Hx; rewrite decide_False; [done|by intros ->].
    cbn [split_shape ids fresh_children c_ne c_nw c_se c_sw app].
    apply NoDup_app in Hnd as (Hnd1 & Hdisj & Hnd2).
    apply NoDup_cons in Hnd2 as [_ Hnd2].
    assert (Hfresh1 : ∀ x, x ∈ l1 → x < next_uuid s).
    { intros x Hx. apply Hbound. rewrite elem_of_app. by left. }
    assert (Hfresh2 : ∀ x, x ∈ l2 → x < next_uuid s).
    { intros x Hx. apply Hbound. rewrite elem_of_app, elem_of_cons. auto. }
    assert (Hnot2 : ∀ x, next_uuid s ≤ x → x ∉ l2).
    { intros x Hx Hx2. specialize (Hfresh2 x Hx2). lia. }
    apply NoDup_app. split; [done|]. split.
    + intros x Hx. pose proof (Hfresh1 x Hx). rewrite !elem_of_cons.
      intros [Hx'|[Hx'|[Hx'|[Hx'|[Hx'|Hx']]]]]; try lia.
      * subst x. by apply Hl1.
      * apply (Hdisj x Hx). rewrite elem_of_cons. by right.
    + rewrite !NoDup_cons, !not_elem_of_cons.
      repeat split; try lia; try done; apply Hnot2; lia.
  - (* the points are the old ones and [p] *)
    unfold all_points in *. rewrite (ids_graft s l leaf) by done.
    assert (l ∈ ids t) as Hlin.
    { apply (in_subtree_ids s); [done|by rewrite Hroot]. }
    destruct (NoDup_split_at _ _ Hnd Hlin) as (l1 & l2 & Hids & Hl1 & Hl2).
    rewrite Hids in *. rewrite !flat_map_app in *. cbn [flat_map] in *.
    rewrite decide_True by done.
    rewrite !flat_map_singletons.
    2,3: intros x Hx; rewrite decide_False; [done|by intros ->].
    cbn [split_shape ids fresh_children c_ne c_nw c_se c_sw app flat_map].
    assert (Hsame : ∀ L, (∀ x, x ∈ L → x ∈ l1 ∨ x ∈ l2) → l ∉ L →
              flat_map (points_at s') L = flat_map (points_at s) L).
    { intros L HL HlL. apply flat_map_ext_elem. intros x Hx.
      unfold points_at. rewrite Hold; [done|by intros ->|].
      apply Hbound. rewrite elem_of_app, elem_of_cons.
      destruct (HL x Hx); auto. }
    rewrite !Hsame by (done || auto).
    assert (Hat : ∀ d', points_at s' (child (fresh_children s) d')
                        = if decide (d' = d) then [p] else []).
    { intros d'. unfold points_at.
      by destruct (Hchild d') as (c' & -> & _ & _ & ->). }
    pose proof (Hat ne) as Hne. pose proof (Hat nw) as Hnw.
    pose proof (Hat se) as Hse. pose proof (Hat sw) as Hsw.
    cbn [child fresh_children c_ne c_nw c_se c_sw] in Hne, Hnw, Hse, Hsw.
    rewrite Hne, Hnw, Hse, Hsw.
    replace (points_at s' l) with (points_at s l)
      by (unfold points_at; by rewrite Hparent, Hl).
    destruct d; cbn [decide dir_eq_dec app]; by apply perm_insert_cons.
Qed.

Lemma counted_bootstrapped bnd cap s :
  nodes s = ∅ →
  counted {| rootId := next_uuid s; capacity := cap |} []
    (bootstrapped bnd s).
Proof.
  intros He. split.
  - intros k n p. simpl. rewrite He, lookup_insert.
    case_decide; [|by rewrite lookup_empty].
    intros [= <-] Hp. by apply elem_of_nil in Hp.
  - exists (SLeaf (next_uuid s)). split; [done|]. split; [|split].
    + simpl. exists (root_node (next_uuid s) bnd).
      by rewrite lookup_insert_eq.
    + simpl. apply NoDup_singleton.
    + unfold all_points, points_at. simpl. by rewrite lookup_insert_eq.
Qed.

Lemma insert_counted this bnd pre p s fuel :
  filled this bnd pre s → counted this pre s → 1 ≤ capacity this →
  Rectangle.contains bnd p = true →
  (∀ b, b ∈ quadrants (length pre) bnd → covers b p = true) →
  1 + 4 * length pre < fuel →
  ∃ s', insert this fuel (Point.x p) (Point.y p) (Point.data p) s
        = (Done tt, s')
        ∧ filled this bnd (pre ++ [p]) s' ∧ counted this (pre ++ [p]) s'.
Proof.
  intros Hf Hcnt Hcap Hc Hcov Hfuel.
  destruct (insert_filled this bnd pre p s fuel Hf Hcap Hc Hcov Hfuel)
    as (s' & Hrun & Hf').
  exists s'. split; [done|]. split; [done|].
  destruct Hf as [Hwf Hinv (n & Hn & Hb) _ _ Hnext Hquad].
  destruct (_insert_effect this fuel (rootId this) p s n)
    as (l & leaf & s'' & Hrun' & Hsub & Hl & Hleaf & Hcl & Heff);
    [done|done|by intros k m Hk; eauto|done|by rewrite Hb|lia|].
  unfold insert, bind in Hrun. rewrite point_eta, Hrun' in Hrun.
  injection Hrun as ->.
  destruct Heff as [[_ ->]|(_ & d & Hcd & ->)].
  - by apply counted_pushed.
  - by apply (counted_split_pushed this pre s l).
Qed.

Lemma insert_all_counted this bnd pre pts s fuel :
  filled this bnd pre s → counted this pre s → 1 ≤ capacity this →
  (∀ p, p ∈ pts → Rectangle.contains bnd p = true) →
  (∀ b p, b ∈ quadrants (length pre + length pts) bnd → p ∈ pts →
          covers b p = true) →
  1 + 4 * (length pre + length pts) < fuel →
  ∃ s', insert_all this fuel pts s = (Done tt, s')
        ∧ filled this bnd (pre ++ pts) s' ∧ counted this (pre ++ pts) s'.
Proof.
  revert pre s.
  induction pts as [|p pts IH]; intros pre s Hf Hcnt Hcap Hin Hcov Hfuel.
  { exists s. rewrite app_nil_r. by split. }
  simpl. unfold bind.
  destruct (insert_counted this bnd pre p s fuel) as (s1 & -> & Hf1 & Hcnt1);
    [done|done|done|apply Hin; by left| |simpl in Hfuel; lia|].
  { intros b Hb. apply Hcov; [|by left].
    apply (quadrants_mono (length pre)); [lia|done]. }
  destruct (IH (pre ++ [p]) s1) as (s2 & Hrun & Hf2 & Hcnt2);
    [done|done|done| | | |].
  - intros q Hq. apply Hin. by right.
  - intros b q Hb Hq. apply Hcov; [|by right].
    rewrite length_app in Hb. simpl in *.
    by replace (length pre + S (length pts)) with (length pre + 1 + length pts)
      by lia.
  - rewrite length_app. simpl in *. lia.
  - exists s2. split; [done|]. by rewrite <- app_assoc in Hf2, Hcnt2.
Qed.

Lemma List_filter_Permutation {A} (f : A → bool) (l l' : list A) :
  l ≡ₚ l' → List.filter f l ≡ₚ List.filter f l'.
Proof.
  induction 1 as [|x l l' _ IH|x y l|l l' l'' _ IH1 _ IH2]; simpl.
  - done.
  - destruct (f x); by rewrite IH.
  - destruct (f x), (f y); try done. apply Permutation_swap.
  - by rewrite IH1.
Qed.

(** Open a fresh store with a universe [bnd] and a positive capacity,
    insert the points [pts], all inside [bnd], and run [range].  Suppose
    rounding does no harm on the quadrants that [|pts|] subdivisions can
    derive from [bnd]: for every inserted point, a quadrant that contains it
    has a child quadrant that contains it, a child quadrant contains it only
    if the quadrant does, and a quadrant that contains it passes the overlap
    test with a query rectangle that contains it.  Suppose also that the
    store keeps the numbers written.  Then the result is a rearrangement of
    the inserted points that the query rectangle contains.
    A point inserted once is returned once, a point inserted twice is
    returned twice; the pruning of subtrees whose boundary misses the
    rectangle loses nothing and no record is visited twice. *)
Theorem range_returns_each_inserted_match_once
    (s0 : world) (bnd : Rectangle.t num) (cap : option nat)
    (pts : list (Point.t num)) (minX minY maxX maxY : num) (fuel : nat) :
  let q := {| Rectangle.x := ((minX + maxX) / n_two)%num;
              Rectangle.y := ((minY + maxY) / n_two)%num;
              Rectangle.w := ((maxX - minX) / n_two)%num;
              Rectangle.h := ((maxY - minY) / n_two)%num |} in
  meta_root s0 = None → nodes s0 = ∅ →
  1 ≤ default 4 cap →
  (∀ p, p ∈ pts → Rectangle.contains bnd p = true) →
  splits_well (length pts) bnd pts = true →
  nests_well (length pts) bnd pts = true →
  meets_well (length pts) bnd q pts = true →
  stores_well (length pts) bnd pts = true →
  1 + 4 * length pts < fuel →
  ∃ res s',
    insert_then_range fuel bnd cap pts minX minY maxX maxY s0 = (Done res, s')
    ∧ res ≡ₚ List.filter (Rectangle.contains q) pts.
Proof.
  intros q Hmeta Hempty Hcap Hin Hsplit Hnest Hmeet _ Hfuel.
  unfold insert_then_range, bind. rewrite init_fresh by done.
  set (tree := {| rootId := next_uuid s0; capacity := default 4 cap |}).
  destruct (insert_all_counted tree bnd [] pts (bootstrapped bnd s0) fuel)
    as (s1 & -> & Hf & Hpi & t & Hroot & Hrepr & Hnd & Hperm).
  - by apply filled_bootstrapped.
  - by apply counted_bootstrapped.
  - done.
  - done.
  - intros b p Hb Hp. by apply (on_quadrants_spec _ _ _ _ _ _ Hsplit).
  - simpl. lia.
  - simpl in Hperm. destruct Hf as [Hwf _ _ _ Hstored Hnext Hquad].
    pose proof (depth_bound s1 t Hwf Hrepr) as Hdepth.
    assert (depth t ≤ fuel) as Hfits.
    { rewrite Hroot in Hdepth. simpl in Hnext, Hdepth. lia. }
    unfold range. rewrite <- Hroot.
    rewrite (_query_repr fuel _ s1 t []) by done.
    eexists _, s1. split; [done|]. simpl.
    change (query_rectangle minX minY maxX maxY) with q.
    rewrite collected_filter; [by apply List_filter_Permutation|done..| |done].
    intros p Hp. apply Hstored in Hp. simpl in Hp.
    split; intros k m Hk.
    + apply (on_quadrants_spec _ _ _ _ _ _ Hnest); eauto.
    + apply (on_quadrants_spec _ _ _ (λ b, meets b q) _ _ Hmeet); eauto.
Qed.
End Generic.

(** * Properties in exact arithmetic *)

Section Exact.
Local Abbreviation world := (world (num:=Q)) (only parsing).
Local Abbreviation Node := (Node (num:=Q)) (only parsing).
Implicit Types (s : world) (n : Node) (p : Point.t Q).
Local Arguments Point.mk {num} (x y)%_Q data.
Local Arguments Rectangle.mk {num} (x y w h)%_Q.
Local Arguments insert {num arith} this fuel%_nat (x y)%_Q data _.
Local Arguments update {num arith} this fuel%_nat (x y)%_Q newJsonData _.
Local Arguments range {num arith} this fuel%_nat (minX minY maxX maxY)%_Q _.
Local Arguments nearest {num arith} this fuel%_nat (x y)%_Q radius _.
Local Arguments query_rectangle {num arith} (minX minY maxX maxY)%_Q.
Local Arguments _findPoint {num arith} fuel%_nat nodeId (x y)%_Q _.
Local Arguments insert_then_range {num arith} fuel%_nat bnd cap pts%_list
  (minX minY maxX maxY)%_Q _.
Local Arguments Insert {num} (x y)%_Q data.
Local Arguments Update {num} (x y)%_Q data.
Local Arguments Range {num} (minX minY maxX maxY)%_Q.
Local Arguments Nearest {num} (x y)%_Q radius.
Local Arguments same_location {num arith} (x y)%_Q p.
Local Arguments set_first_data {num arith} (x y)%_Q d l%_list.
Local Arguments _findNodeId {num arith} this fuel%_nat (x y)%_Q _.
Local Arguments _updateNode {num arith} this fuel%_nat (x y)%_Q newJsonData _.

(** ** Geometry *)

Ltac qlra :=
  unfold Qdiv in *; change (/ 2)%Q with (1 # 2)%Q in *; lra.

Lemma contains_spec (r : Rectangle.t Q) (p : Point.t Q) :
  Rectangle.contains r p = true ↔
  (Rectangle.x r - Rectangle.w r <= Point.x p
   ∧ Point.x p <= Rectangle.x r + Rectangle.w r
   ∧ Rectangle.y r - Rectangle.h r <= Point.y p
   ∧ Point.y p <= Rectangle.y r + Rectangle.h r)%Q.
Proof.
  unfold Rectangle.contains. cbn [n_leb n_abs n_sub exact].
  rewrite andb_true_iff, !Qle_bool_iff, !Qabs_Qle_condition.
  split; intros H; repeat split; lra.
Qed.

Lemma intersects_spec (a b : Rectangle.t Q) :
  Rectangle.intersects a b = true ↔
  (Rectangle.x a - Rectangle.w a <= Rectangle.x b + Rectangle.w b
   ∧ Rectangle.x b - Rectangle.w b <= Rectangle.x a + Rectangle.w a
   ∧ Rectangle.y a - Rectangle.h a <= Rectangle.y b + Rectangle.h b
   ∧ Rectangle.y b - Rectangle.h b <= Rectangle.y a + Rectangle.h a)%Q.
Proof.
  unfold Rectangle.intersects. cbn [n_leb n_add n_sub exact].
  rewrite !andb_true_iff, !Qle_bool_iff. tauto.
Qed.

(** Two rectangles that contain a common point intersect. *)
Lemma contains_intersects (a b : Rectangle.t Q) (p : Point.t Q) :
  Rectangle.contains a p = true → Rectangle.contains b p = true →
  Rectangle.intersects a b = true.
Proof.
  rewrite !contains_spec, intersects_spec. intros Ha Hb. repeat split; lra.
Qed.

Lemma child_boundary_contains_spec (b : Rectangle.t Q) (d : dir) (p : Point.t Q) :
  Rectangle.contains (child_boundary b d) p = true ↔
  ((if includes_e d
    then Rectangle.x b <= Point.x p ∧ Point.x p <= Rectangle.x b + Rectangle.w b
    else Rectangle.x b - Rectangle.w b <= Point.x p ∧ Point.x p <= Rectangle.x b)
   ∧
   (if includes_s d
    then Rectangle.y b <= Point.y p ∧ Point.y p <= Rectangle.y b + Rectangle.h b
    else Rectangle.y b - Rectangle.h b <= Point.y p ∧ Point.y p <= Rectangle.y b))%Q.
Proof.
  rewrite contains_spec.
  destruct d; simpl; split; intros H; repeat split; qlra.
Qed.

(** The quadrants cover their parent: a point of the parent lies in one
    of them, and every point of a quadrant lies in the parent. *)
Lemma child_boundary_cover (b : Rectangle.t Q) (p : Point.t Q) :
  Rectangle.contains b p = true ↔
  ∃ d, Rectangle.contains (child_boundary b d) p = true.
Proof.
  split.
  - rewrite contains_spec. intros (Hx1 & Hx2 & Hy1 & Hy2).
    destruct (Qlt_le_dec (Point.x p) (Rectangle.x b)) as [Hx|Hx];
      destruct (Qlt_le_dec (Point.y p) (Rectangle.y b)) as [Hy|Hy].
    + exists nw. apply child_boundary_contains_spec; simpl. repeat split; lra.
    + exists sw. apply child_boundary_contains_spec; simpl. repeat split; lra.
    + exists ne. apply child_boundary_contains_spec; simpl. repeat split; lra.
    + exists se. apply child_boundary_contains_spec; simpl. repeat split; lra.
  - intros [d Hd]. apply child_boundary_contains_spec in Hd.
    apply contains_spec. destruct d; simpl in Hd; repeat split; lra.
Qed.

Lemma child_boundary_sub (b : Rectangle.t Q) (d : dir) (p : Point.t Q) :
  Rectangle.contains (child_boundary b d) p = true →
  Rectangle.contains b p = true.
Proof. intros H. apply child_boundary_cover. eauto. Qed.

(** The interiors of two different quadrants are disjoint. *)
Lemma child_interiors_disjoint (b : Rectangle.t Q) (d d' : dir)
    (p : Point.t Q) :
  d ≠ d' →
  strictly_inside (child_boundary b d) p →
  ¬ strictly_inside (child_boundary b d') p.
Proof.
  unfold strictly_inside. intros Hne (?&?&?&?) (?&?&?&?).
  destruct d, d'; simpl in *; try done; qlra.
Qed.

(** Without rounding, the rectangle derived from inverted corners
    contains no point. *)
Lemma inverted_contains_nothing (minX minY maxX maxY : Q) (p : Point.t Q) :
  (maxX < minX ∨ maxY < minY)%Q →
  Rectangle.contains (query_rectangle minX minY maxX maxY) p = false.
Proof.
  intros Hinv. apply not_true_iff_false. rewrite contains_spec. simpl.
  intros (? & ? & ? & ?). destruct Hinv; qlra.
Qed.

(** The square of [nearest] is centred on [(x, y)] with half-extent
    [radius]. *)
Lemma nearest_square_contains (x y r : Q) (p : Point.t Q) :
  Rectangle.contains (query_rectangle (x - r) (y - r) (x + r) (y + r)) p = true
  ↔ (x - r <= Point.x p ∧ Point.x p <= x + r
     ∧ y - r <= Point.y p ∧ Point.y p <= y + r)%Q.
Proof.
  rewrite contains_spec. simpl. split; intros (?&?&?&?); repeat split; qlra.
Qed.

(** Without rounding, the three conditions on quadrants always hold. *)
Lemma exact_covers (b : Rectangle.t Q) (p : Point.t Q) : covers b p = true.
Proof.
  unfold covers. destruct (Rectangle.contains b p) eqn:Hc; [|done].
  apply child_boundary_cover in Hc as [d Hd]. cbn [implb].
  apply existsb_exists. exists d.
  split; [unfold dirs; destruct d; simpl; tauto|done].
Qed.

Lemma exact_nests (b : Rectangle.t Q) (p : Point.t Q) : nests b p = true.
Proof.
  unfold nests. apply forallb_forall. intros d _.
  destruct (Rectangle.contains (child_boundary b d) p) eqn:Hc; [|done].
  cbn [implb]. by apply child_boundary_sub in Hc.
Qed.

Lemma exact_meets (b q : Rectangle.t Q) (p : Point.t Q) : meets b q p = true.
Proof.
  unfold meets. destruct (Rectangle.contains b p) eqn:Hb; [|done].
  destruct (Rectangle.contains q p) eqn:Hq; [|done].
  simpl. by apply (contains_intersects _ _ p).
Qed.

Lemma exact_on_quadrants (n : nat) (bnd : Rectangle.t Q) pts ok :
  (∀ b p, ok b p = true) → on_quadrants n bnd pts ok = true.
Proof.
  intros H. unfold on_quadrants.
  apply forallb_forall. intros b _. apply forallb_forall. auto.
Qed.

Lemma exact_splits_well (n : nat) (bnd : Rectangle.t Q) pts :
  splits_well n bnd pts = true.
Proof. apply exact_on_quadrants, exact_covers. Qed.

Lemma exact_nests_well (n : nat) (bnd : Rectangle.t Q) pts :
  nests_well n bnd pts = true.
Proof. apply exact_on_quadrants, exact_nests. Qed.

Lemma exact_meets_well (n : nat) (bnd q : Rectangle.t Q) pts :
  meets_well n bnd q pts = true.
Proof. apply exact_on_quadrants. intros b p. apply exact_meets. Qed.

Lemma exact_stores_well (n : nat) (bnd : Rectangle.t Q) pts :
  stores_well n bnd pts = true.
Proof.
  unfold stores_well. apply andb_true_iff.
  split; apply forallb_forall; by intros.
Qed.

(** Without rounding the comparator of [nearest] is consistent. *)
Lemma exact_consistent (f : Point.t Q → Q) (l : list (Point.t Q)) :
  consistent f l = true.
Proof.
  unfold consistent.
  apply forallb_forall. intros a _. apply forallb_forall. intros b _.
  apply forallb_forall. intros c _.
  unfold sorts_same, sorts_before, sorts_after.
  cbn [n_ltb n_sub n_zero exact].
  generalize (f a) (f b) (f c). intros u v w.
  rewrite !andb_true_iff. repeat split;
    repeat match goal with
           | |- context [Qle_bool ?x ?y] =>
               let H := fresh "H" in
               destruct (Qle_bool x y) eqn:H;
               [apply Qle_bool_iff in H
               |apply not_true_iff_false in H; rewrite Qle_bool_iff in H]
           end;
    simpl; try reflexivity; exfalso; lra.
Qed.

(** ** The scenario *)

Lemma five_points_inside p :
  p ∈ five_points → Rectangle.contains universe p = true.
Proof.
  intros Hp. unfold five_points in Hp.
  repeat (apply elem_of_cons in Hp as [->|Hp]; [reflexivity|]).
  by apply elem_of_nil in Hp.
Qed.

Lemma five_world_filled : filled five_tree universe five_points five_world.
Proof.
  destruct (insert_all_filled five_tree universe [] five_points
              (bootstrapped universe empty_world) 30) as (s' & Hrun & Hf).
  - by apply (filled_bootstrapped universe 4 empty_world).
  - simpl. lia.
  - apply five_points_inside.
  - intros b p _ _. apply exact_covers.
  - simpl. lia.
  - unfold five_world. by rewrite Hrun.
Qed.

Lemma five_world_root :
  nodes five_world !! rootId five_tree
  = Some (divide (Build_Node 0 universe (take 4 five_points) false None)
            {| c_ne := 1; c_nw := 2; c_se := 3; c_sw := 4 |}).
Proof. reflexivity. Qed.

Lemma four_world_filled :
  filled five_tree universe (take 4 five_points) four_world.
Proof.
  destruct (insert_all_filled five_tree universe [] (take 4 five_points)
              (bootstrapped universe empty_world) 30) as (s' & Hrun & Hf).
  - by apply (filled_bootstrapped universe 4 empty_world).
  - simpl. lia.
  - intros p Hp. apply five_points_inside.
    by apply (subseteq_take 4 five_points).
  - intros b p _ _. apply exact_covers.
  - simpl. lia.
  - unfold four_world. by rewrite Hrun.
Qed.

Lemma four_world_root :
  nodes four_world !! 0
  = Some (Build_Node 0 universe (take 4 five_points) false None).
Proof. reflexivity. Qed.

Lemma five_world_no_point_at (x y : Q) :
  forallb (λ p, negb (same_location x y p)) five_points = true →
  ∀ k n p, in_subtree five_world (rootId five_tree) k →
           nodes five_world !! k = Some n → p ∈ points n →
           same_location x y p = false.
Proof.
  intros Hall k n p _ Hk Hp.
  pose proof (filled_stored five_tree universe five_points five_world
                five_world_filled p) as Hin.
  rewrite forallb_forall in Hall. apply negb_true_iff, Hall.
  apply list_elem_of_In, Hin. exists k, n. split; assumption.
Qed.

(** The point nearest to (16, 16) in the scenario is (15, 15); with radius
    10 around (90, 90) there is no candidate although the tree is not
    empty, and with radius 2 around (27, 27) the answer is none although
    (30, 30) is the closest stored point and lies just outside the square. *)
Example nearest_scenario :
  fst (nearest five_tree 30 16 16 None five_world)
  = Done (Some (Point.mk 15 15 (JStr "e")))
  ∧ fst (nearest five_tree 30 90 90 (Some 10%Q) five_world) = Done None
  ∧ fst (nearest five_tree 30 27 27 (Some 2%Q) five_world) = Done None.
Proof. repeat split; reflexivity. Qed.

(** ** The claims in the scenario *)

(** C3, as stated, fails: on a fresh tree over [0,100] x [0,100] the call
    [insert(200, 200, payload)] targets a point outside the root boundary
    and returns normally, without raising. *)
Lemma insert_outside_root_does_not_raise :
  Rectangle.contains universe (Point.mk 200 200 JNull) = false
  ∧ ¬ raises (insert {| rootId := 0; capacity := 4 |} 5 200 200 JNull
                (bootstrapped universe empty_world)).
Proof.
  split; [reflexivity|]. intros [e He]. vm_compute in He. discriminate.
Qed.

Lemma insert_outside_root_is_dropped_witness :
  insert {| rootId := 0; capacity := 4 |} 5 200 200 JNull
    (bootstrapped universe empty_world)
  = (Done tt, bootstrapped universe empty_world).
Proof.
  apply (insert_outside_root_is_dropped {| rootId := 0; capacity := 4 |} 4
           200%Q 200%Q JNull (bootstrapped universe empty_world)
           (root_node 0 universe)).
  - reflexivity.
  - reflexivity.
Defined.

Lemma subdivide_keeps_resident_points_witness :
  let node := Build_Node 0 universe (take 4 five_points) false None in
  let ch := fresh_children four_world in
  let s' := subdivided node four_world in
  _subdivide node four_world = (Done (divide node ch), s')
  ∧ nodes s' !! 0 = Some (divide node ch)
  ∧ (id (divide node ch) = id node
     ∧ boundary (divide node ch) = boundary node
     ∧ points (divide node ch) = points node
     ∧ divided (divide node ch) = true
     ∧ children (divide node ch) = Some ch)
  ∧ (∀ d, ∃ c, nodes s' !! child ch d = Some c ∧ points c = [])
  ∧ puts s' = puts four_world
              ++ [NodeKey (child ch ne); NodeKey (child ch nw);
                  NodeKey (child ch se); NodeKey (child ch sw); NodeKey 0]
  ∧ (∀ j, j ≠ 0 → j < next_uuid four_world →
          nodes s' !! j = nodes four_world !! j)
  ∧ (∀ fuel q found,
       Rectangle.intersects (boundary node) q = true →
       _query (S (S fuel)) 0 q found s'
       = (Done (found ++ List.filter (Rectangle.contains q) (points node)),
          s'))
  ∧ (∀ this fuel j p,
       node_inv (capacity this) four_world →
       nodes (snd (_insert this fuel j p s')) !! 0 = Some (divide node ch)).
Proof.
  exact (subdivide_keeps_resident_points four_world 0
           (Build_Node 0 universe (take 4 five_points) false None)
           (filled_wf _ _ _ _ four_world_filled) four_world_root).
Defined.

Lemma operations_preserve_node_state_witness :
  (∀ fuel x y data,
     let s' := snd (insert five_tree fuel x y data five_world) in
     store_wf s' ∧ node_inv (capacity five_tree) s'
     ∧ divided_kept five_world s')
  ∧ (∀ fuel x y data,
       let s' := snd (update five_tree fuel x y data five_world) in
       store_wf s' ∧ node_inv (capacity five_tree) s'
       ∧ divided_kept five_world s')
  ∧ (∀ fuel minX minY maxX maxY,
       snd (range five_tree fuel minX minY maxX maxY five_world) = five_world)
  ∧ (∀ fuel x y radius,
       snd (nearest five_tree fuel x y radius five_world) = five_world)
  ∧ (∀ fuel k p n,
       nodes five_world !! k = Some n → divided n = false →
       let s' := snd (_insert five_tree (S fuel) k p five_world) in
       (Rectangle.contains (boundary n) p = false → s' = five_world)
       ∧ (Rectangle.contains (boundary n) p = true →
          ((∃ n', nodes s' !! k = Some n' ∧ divided n' = true)
           ↔ length (points n) = capacity five_tree))).
Proof.
  exact (operations_preserve_node_state five_tree five_world
           (filled_wf _ _ _ _ five_world_filled)
           (filled_inv _ _ _ _ five_world_filled)).
Defined.

Lemma update_of_absent_point_fails_witness :
  update five_tree 30 50 50 (JStr "z") five_world
  = (Throw PointNotFound, five_world).
Proof.
  refine (update_of_absent_point_fails five_tree 30 50%Q 50%Q (JStr "z")
            five_world _ (filled_wf _ _ _ _ five_world_filled)
            five_world_root _ (five_world_no_point_at 50 50 _)).
  - vm_compute. lia.
  - vm_compute. reflexivity.
Defined.

(** C2, at its failing input.  In the scenario the point (15, 15) is stored
    in the nw child of the root.  [update(15, 15, payload)] finds it, then
    [_findNodeIdRecursive] recurses on [node.children[dir]], an identifier
    and not a node object, and reading its boundary throws a TypeError: the
    call fails and the payload stored under (15, 15) is not replaced. *)
Theorem update_below_root_throws_TypeError :
  nodes five_world !! 2
  = Some (Build_Node 2 (child_boundary universe nw)
            [Point.mk 15 15 (JStr "e")] false None)
  ∧ fst (_findPoint 30 (rootId five_tree) 15 15 five_world)
    = Done (Some (Point.mk 15 15 (JStr "e")))
  ∧ update five_tree 30 15 15 (JStr "z") five_world
    = (Throw TypeError, five_world).
Proof. split; [|split]; vm_compute; reflexivity. Qed.

Lemma insert_only_adds_the_point_witness :
  let s' := snd (insert five_tree 30 60 60 (JStr "f") five_world) in
  meta_root s' = meta_root five_world
  ∧ (∀ k n, nodes five_world !! k = Some n →
       ∃ n', nodes s' !! k = Some n' ∧ id n' = id n
             ∧ boundary n' = boundary n
             ∧ (∃ l, points n' = points n ++ l)
             ∧ (divided n = true → n' = n))
  ∧ (∀ k n' q, nodes s' !! k = Some n' → q ∈ points n' →
       q = Point.mk 60 60 (JStr "f")
       ∨ ∃ n, nodes five_world !! k = Some n ∧ q ∈ points n).
Proof.
  exact (insert_only_adds_the_point five_tree 30 60%Q 60%Q (JStr "f")
           five_world
           (filled_wf _ _ _ _ five_world_filled)
           (filled_inv _ _ _ _ five_world_filled)).
Defined.

Lemma operations_fail_without_root_record_witness :
  (∀ x y data,
     insert five_tree 1 x y data empty_world = (Throw NotFoundError, empty_world))
  ∧ (∀ minX minY maxX maxY,
       range five_tree 1 minX minY maxX maxY empty_world
       = (Throw NotFoundError, empty_world))
  ∧ (∀ x y radius,
       nearest five_tree 1 x y radius empty_world
       = (Throw NotFoundError, empty_world))
  ∧ (∀ x y data,
       update five_tree 1 x y data empty_world
       = (Throw NotFoundError, empty_world)).
Proof.
  apply (operations_fail_without_root_record five_tree 0 empty_world).
  reflexivity.
Defined.

Lemma query_results_are_in_preorder_witness :
  _query 2 0 (query_rectangle 0 0 50 50) [] five_world
  = (Done ([] ++ List.filter (Rectangle.contains (query_rectangle 0 0 50 50))
                   (take 4 five_points)
              ++ [] ++ [Point.mk 15 15 (JStr "e")] ++ [] ++ []), five_world).
Proof.
  apply (query_results_are_in_preorder 1 0 (query_rectangle 0 0 50 50) []
           five_world _ {| c_ne := 1; c_nw := 2; c_se := 3; c_sw := 4 |}
           (λ d, if d is nw then [Point.mk 15 15 (JStr "e")] else [])
           five_world_root).
  - reflexivity.
  - reflexivity.
  - reflexivity.
  - intros d. destruct d; vm_compute; reflexivity.
Defined.

Lemma reachable_store_is_well_formed_witness :
  let s := run five_tree 30 (Insert 10 10 (JStr "a"))
             (bootstrapped universe empty_world) in
  store_wf s ∧ node_inv (capacity five_tree) s
  ∧ meta_root s = Some (rootId five_tree)
  ∧ ∃ root, nodes s !! rootId five_tree = Some root
            ∧ id root = rootId five_tree ∧ boundary root = universe.
Proof.
  apply (reachable_store_is_well_formed five_tree universe).
  apply reachable_step.
  apply (reachable_init five_tree universe empty_world (Some 4));
    reflexivity.
Defined.

(** ** Exact coordinate matches *)

Lemma same_location_spec x y p :
  same_location x y p = true ↔ (Point.x p == x ∧ Point.y p == y)%Q.
Proof.
  unfold same_location. by rewrite andb_true_iff, !Qeq_bool_iff.
Qed.

(** Looking for the coordinates of a point that sits at [(x, y)] is
    looking for [(x, y)]. *)
Lemma same_location_transfer x y p q :
  same_location x y p = true →
  same_location (Point.x p) (Point.y p) q = same_location x y q.
Proof.
  rewrite same_location_spec. intros [Hx Hy].
  apply eq_true_iff_eq. rewrite !same_location_spec.
  rewrite Hx, Hy. tauto.
Qed.

Lemma contains_transfer r x y p d d' :
  same_location x y p = true →
  Rectangle.contains r (Point.mk (Point.x p) (Point.y p) d)
  = Rectangle.contains r (Point.mk x y d').
Proof.
  rewrite same_location_spec. intros [Hx Hy].
  apply eq_true_iff_eq. rewrite !contains_spec. simpl.
  rewrite Hx, Hy. tauto.
Qed.

Lemma set_first_data_transfer x y p d l :
  same_location x y p = true →
  set_first_data (Point.x p) (Point.y p) d l = set_first_data x y d l.
Proof.
  intros Hp. induction l as [|a l IH]; simpl; [done|].
  by rewrite (same_location_transfer x y p a Hp), IH.
Qed.

Lemma existsb_same_location_transfer x y p l :
  same_location x y p = true →
  existsb (same_location (Point.x p) (Point.y p)) l
  = existsb (same_location x y) l.
Proof.
  intros Hp. induction l as [|a l IH]; simpl; [done|].
  by rewrite (same_location_transfer x y p a Hp), IH.
Qed.


(** ** Update of a point listed by the root *)

(** When the root record lists a point at [(x, y)], [update] rewrites the
    root record only: the first point of its list that sits at [(x, y)] gets
    the new payload and keeps its coordinates, every other point of the list
    and every other record stay as they were, and the call returns true. *)
Theorem update_replaces_first_match_in_root
    (this : DiskQuadTree) (fuel : nat) (x y : Q) (data : jsval)
    (s : world) (root : Node) (p : Point.t Q) :
  nodes s !! rootId this = Some root → id root = rootId this →
  Rectangle.contains (boundary root) (Point.mk x y JUndefined) = true →
  List.find (same_location x y) (points root) = Some p →
  ∃ l1 l2,
    points root = l1 ++ p :: l2
    ∧ (∀ q, q ∈ l1 → same_location x y q = false)
    ∧ update this (S fuel) x y data s
      = (Done true,
         put_world (rootId this)
           (with_points root (l1 ++ Point.set_data p data :: l2)) s).
Proof.
  intros Hroot Hid Hc Hfind.
  destruct (find_same_location _ _ _ _ Hfind) as (Hp & l1 & l2 & Hl & Hl1).
  exists l1, l2. split; [done|]. split; [done|].
  unfold update, bind at 1. erewrite _findPoint_here by done.
  unfold _updateNode, _findNodeId, bind, db_get. rewrite Hroot.
  cbn [_findNodeIdRecursive].
  rewrite (contains_transfer _ x y p JUndefined JUndefined Hp), Hc.
  rewrite (existsb_same_location_transfer x y p _ Hp).
  rewrite existsb_same_location, Hfind. simpl. rewrite Hid, Hroot.
  rewrite (set_first_data_transfer x y p data _ Hp), Hl.
  rewrite (set_first_data_split x y data l1 p l2 Hl1 Hp). reflexivity.
Qed.

Lemma update_replaces_first_match_in_root_witness :
  ∃ l1 l2,
    points (divide (Build_Node 0 universe (take 4 five_points) false None)
              {| c_ne := 1; c_nw := 2; c_se := 3; c_sw := 4 |})
    = l1 ++ Point.mk 20 20 (JStr "b") :: l2
    ∧ (∀ q, q ∈ l1 → same_location 20 20 q = false)
    ∧ update five_tree 1 20 20 (JStr "z") five_world
      = (Done true,
         put_world (rootId five_tree)
           (with_points
              (divide (Build_Node 0 universe (take 4 five_points) false None)
                 {| c_ne := 1; c_nw := 2; c_se := 3; c_sw := 4 |})
              (l1 ++ Point.set_data (Point.mk 20 20 (JStr "b")) (JStr "z")
                  :: l2))
           five_world).
Proof.
  apply (update_replaces_first_match_in_root five_tree 0 20 20 (JStr "z")
           five_world _ (Point.mk 20 20 (JStr "b")) five_world_root).
  - reflexivity.
  - reflexivity.
  - reflexivity.
Defined.


(** ** Update of a point the root does not list *)

(** Whenever [_findPoint] finds a point that the root record does not list
    itself, the point is stored in a descendant of the root, and [update]
    throws a TypeError and writes nothing: [_findNodeIdRecursive] is handed
    the identifier of the first child where it expects a node object.  This
    is the general form of the failure shown for C2. *)
Theorem update_below_root_never_succeeds
    (this : DiskQuadTree) (fuel : nat) (x y : Q) (data : jsval)
    (s : world) (root : Node) (p : Point.t Q) :
  nodes s !! rootId this = Some root →
  List.find (same_location x y) (points root) = None →
  fst (_findPoint (S (S fuel)) (rootId this) x y s) = Done (Some p) →
  update this (S (S fuel)) x y data s = (Throw TypeError, s).
Proof.
  intros Hroot Hfind Hfound.
  pose proof (_findPoint_readonly (S (S fuel)) (rootId this) x y s) as Hro.
  destruct (_findPoint (S (S fuel)) (rootId this) x y s) as [o s1] eqn:Hrun.
  simpl in Hfound, Hro. subst o s1.
  pose proof (_findPoint_sound _ _ _ _ _ _ _ Hrun) as Hp.
  assert (Rectangle.contains (boundary root) (Point.mk x y JUndefined) = true
          ∧ divided root = true ∧ ∃ ch, children root = Some ch)
    as (Hc & Hd & ch & Hch).
  { destruct (Rectangle.contains (boundary root) (Point.mk x y JUndefined))
      eqn:Hc; [|by erewrite _findPoint_outside in Hrun].
    destruct (divided root) eqn:Hd; [|by erewrite _findPoint_leaf in Hrun].
    destruct (children root) as [ch|] eqn:Hch;
      [|by erewrite _findPoint_no_children in Hrun].
    eauto. }
  unfold update, bind at 1. rewrite Hrun.
  unfold _updateNode, _findNodeId, bind, db_get. rewrite Hroot.
  cbn [_findNodeIdRecursive].
  rewrite (contains_transfer _ x y p JUndefined JUndefined Hp), Hc.
  rewrite (existsb_same_location_transfer x y p _ Hp).
  rewrite existsb_same_location, Hfind. simpl. rewrite Hd, Hch.
  reflexivity.
Qed.

Lemma update_below_root_never_succeeds_witness :
  update five_tree 2 15 15 (JStr "z") five_world = (Throw TypeError, five_world).
Proof.
  apply (update_below_root_never_succeeds five_tree 0 15 15 (JStr "z")
           five_world _ (Point.mk 15 15 (JStr "e")) five_world_root).
  - reflexivity.
  - vm_compute. reflexivity.
Defined.

(** ** Insert, update, then query *)


End Exact.

(** * Subdivision *)

(** C7, amended.  Subdividing the node stored under [k], whose boundary
    is [(x, y, w, h)], returns and persists four children under identifiers
    that are pairwise distinct and were not in use.  Each child has its own
    identifier in [id], no points, [divided = false], no [children],
    half-extents [(w / 2, h / 2)] and its centre at [x + 1 * w / 2] when
    the tag contains e and [x + -1 * w / 2] when it contains w, at
    [y + 1 * h / 2] when the tag contains s and [y + -1 * h / 2] when it
    contains n, in the arithmetic of the program, provided the store keeps
    these numbers.  In exact arithmetic these four boundaries cover the
    boundary of the parent exactly and their interiors are disjoint. *)
Theorem subdivide_children_are_the_quadrants
    {num : Type} {arith : Arith num} (s : world (num:=num)) (k : uuid)
    (node : Node) :
  store_wf s → nodes s !! k = Some node →
  let ch := fresh_children s in
  let s' := subdivided node s in
  let x := Rectangle.x (boundary node) in
  let y := Rectangle.y (boundary node) in
  let w := Rectangle.w (boundary node) in
  let h := Rectangle.h (boundary node) in
  let quadrant := λ (i : uuid) (dx dy : num),
    {| id := i;
       boundary := {| Rectangle.x := (x + dx * w / n_two)%num;
                      Rectangle.y := (y + dy * h / n_two)%num;
                      Rectangle.w := (w / n_two)%num;
                      Rectangle.h := (h / n_two)%num |};
       points := []; divided := false; children := None |} in
  forallb (λ c, rectangle_survives (boundary c))
    [quadrant (c_ne ch) n_one n_minus_one;
     quadrant (c_nw ch) n_minus_one n_minus_one;
     quadrant (c_se ch) n_one n_one;
     quadrant (c_sw ch) n_minus_one n_one] = true →
  _subdivide node s = (Done (divide node ch), s')
  ∧ (∀ i, i ∈ [c_ne ch; c_nw ch; c_se ch; c_sw ch] → nodes s !! i = None)
  ∧ NoDup [c_ne ch; c_nw ch; c_se ch; c_sw ch]
  ∧ nodes s' !! c_ne ch = Some (quadrant (c_ne ch) n_one n_minus_one)
  ∧ nodes s' !! c_nw ch = Some (quadrant (c_nw ch) n_minus_one n_minus_one)
  ∧ nodes s' !! c_se ch = Some (quadrant (c_se ch) n_one n_one)
  ∧ nodes s' !! c_sw ch = Some (quadrant (c_sw ch) n_minus_one n_one)
  ∧ ∀ (b : Rectangle.t Q) (p : Point.t Q),
      let quarter := λ dx dy : Q,
        {| Rectangle.x := (Rectangle.x b + dx * Rectangle.w b / 2)%Q;
           Rectangle.y := (Rectangle.y b + dy * Rectangle.h b / 2)%Q;
           Rectangle.w := (Rectangle.w b / 2)%Q;
           Rectangle.h := (Rectangle.h b / 2)%Q |} in
      let quarters :=
        [quarter 1 (-1); quarter (-1) (-1); quarter 1 1; quarter (-1) 1]%Q in
      (Rectangle.contains b p = true
       ↔ ∃ c, c ∈ quarters ∧ Rectangle.contains c p = true)
      ∧ ∀ i j c c', i ≠ j → quarters !! i = Some c → quarters !! j = Some c' →
                    strictly_inside c p → ¬ strictly_inside c' p.
Proof.
  intros Hwf Hk ch s' x y w h quadrant _.
  destruct (wf_key s Hwf k node Hk) as [Hid Hlt].
  assert (Hchild : ∀ d, nodes s' !! child ch d
                        = Some (new_child (boundary node) d (child ch d))).
  { intros d. apply subdivided_lookup_child. lia. }
  split; [done|]. split; [|split; [|split; [|split; [|split; [|split]]]]].
  - intros i Hi. destruct (nodes s !! i) as [c|] eqn:Hc; [|done].
    destruct (wf_key s Hwf _ c Hc) as [_ Hclt]. exfalso.
    unfold ch in Hi. simpl in Hi.
    repeat (apply elem_of_cons in Hi as [->|Hi]; [lia|]).
    by apply elem_of_nil in Hi.
  - unfold ch. simpl. apply NoDup_ListNoDup.
    repeat (constructor; [simpl; lia|]). constructor.
  - apply (Hchild ne).
  - apply (Hchild nw).
  - apply (Hchild se).
  - apply (Hchild sw).
  - intros b p quarter quarters.
    assert (Hq : ∀ c, c ∈ quarters ↔ ∃ d, c = child_boundary b d).
    { intros c. unfold quarters. split.
      - intros Hc.
        repeat (apply elem_of_cons in Hc as [->|Hc];
                [by ((by exists ne) || (by exists nw)
                     || (by exists se) || (by exists sw))|]).
        by apply elem_of_nil in Hc.
      - intros [d ->]. destruct d; set_solver. }
    split.
    + rewrite child_boundary_cover. split.
      * intros [d Hd]. exists (child_boundary b d). split; [|done].
        apply Hq. by exists d.
      * intros (c & Hc & Hcp). apply Hq in Hc as [d ->]. by exists d.
    + intros i j c c' Hij Hi Hj.
      assert (∃ d, c = child_boundary b d ∧ dirs !! i = Some d)
        as (d & -> & Hdi).
      { unfold quarters in Hi.
        destruct i as [|[|[|[|i]]]]; [| | | |done]; injection Hi as <-;
          [exists ne|exists nw|exists se|exists sw]; by split. }
      assert (∃ d', c' = child_boundary b d' ∧ dirs !! j = Some d')
        as (d' & -> & Hdj).
      { unfold quarters in Hj.
        destruct j as [|[|[|[|j]]]]; [| | | |done]; injection Hj as <-;
          [exists ne|exists nw|exists se|exists sw]; by split. }
      apply child_interiors_disjoint. intros ->.
      apply Hij. eapply NoDup_lookup; [|done..].
      unfold dirs. apply NoDup_ListNoDup.
      repeat (constructor; [simpl; intuition congruence|]). constructor.
Qed.

(** * Properties in binary64 *)

Section Binary64.
Local Abbreviation world := (world (num:=float)) (only parsing).
Local Abbreviation Node := (Node (num:=float)) (only parsing).
Implicit Types (s : world) (n : Node) (p : Point.t float).
Local Arguments Point.mk {num} (x y)%_float data.
Local Arguments Rectangle.mk {num} (x y w h)%_float.
Local Arguments insert {num arith} this fuel%_nat (x y)%_float data _.
Local Arguments update {num arith} this fuel%_nat (x y)%_float newJsonData _.
Local Arguments range {num arith} this fuel%_nat (minX minY maxX maxY)%_float _.
Local Arguments nearest {num arith} this fuel%_nat (x y)%_float radius _.
Local Arguments query_rectangle {num arith} (minX minY maxX maxY)%_float.
Local Arguments _findPoint {num arith} fuel%_nat nodeId (x y)%_float _.
Local Arguments insert_then_range {num arith} fuel%_nat bnd cap pts%_list
  (minX minY maxX maxY)%_float _.
Local Arguments Insert {num} (x y)%_float data.
Local Arguments Update {num} (x y)%_float data.
Local Arguments Range {num} (minX minY maxX maxY)%_float.
Local Arguments Nearest {num} (x y)%_float radius.
Local Arguments same_location {num arith} (x y)%_float p.
Local Arguments set_first_data {num arith} (x y)%_float d l%_list.
Local Arguments _findNodeId {num arith} this fuel%_nat (x y)%_float _.
Local Arguments _updateNode {num arith} this fuel%_nat (x y)%_float newJsonData _.

(** ** Negative half-extents *)

(** No absolute value is below a negative number; NaN is below
    nothing. *)
Lemma abs_not_below_negative (v e : float) :
  (e <? 0)%float = true → (abs v <=? e)%float = false.
Proof.
  rewrite ltb_spec, leb_spec, abs_spec.
  change (Prim2SF 0) with (S754_zero false).
  destruct (Prim2SF e) as [[]|[]| |[] m k], (Prim2SF v) as [[]|[]| |[] m' k'];
    done.
Qed.

Lemma negative_extent_contains_nothing (q : Rectangle.t float) p :
  (Rectangle.w q <? 0)%float = true ∨ (Rectangle.h q <? 0)%float = true →
  Rectangle.contains q p = false.
Proof.
  unfold Rectangle.contains. cbn [n_leb n_abs n_sub binary64].
  intros [H|H]; rewrite (abs_not_below_negative _ _ H).
  - done.
  - apply andb_false_r.
Qed.

(** C10, amended.  On a well-formed store, [range] called with corners
    for which a half-extent of the derived rectangle, [(maxX - minX) / 2]
    or [(maxY - minY) / 2] as computed in binary64, is negative returns the
    empty sequence and leaves the store unchanged: the closed containment
    test of the derived rectangle holds for no point. *)
Theorem range_inverted_corners_is_empty
    (this : DiskQuadTree) (fuel : nat) (minX minY maxX maxY : float)
    (s : world) (root : Node) :
  store_wf s → nodes s !! rootId this = Some root →
  next_uuid s - rootId this < fuel →
  ((maxX - minX) / 2 <? 0)%float = true
  ∨ ((maxY - minY) / 2 <? 0)%float = true →
  range this fuel minX minY maxX maxY s = (Done [], s)
  ∧ ∀ p, Rectangle.contains
           {| Rectangle.x := ((minX + maxX) / 2)%float;
              Rectangle.y := ((minY + maxY) / 2)%float;
              Rectangle.w := ((maxX - minX) / 2)%float;
              Rectangle.h := ((maxY - minY) / 2)%float |} p = false.
Proof.
  intros Hwf Hroot Hfuel Hneg.
  assert (Hnone : ∀ p, Rectangle.contains
                         (query_rectangle minX minY maxX maxY) p = false).
  { intros p. by apply negative_extent_contains_nothing. }
  split; [|exact Hnone]. by eapply range_of_nothing.
Qed.

(** ** The scenario *)

Lemma five_points64_inside p :
  p ∈ five_points64 → Rectangle.contains universe64 p = true.
Proof.
  intros Hp. unfold five_points64 in Hp.
  repeat (apply elem_of_cons in Hp as [->|Hp]; [reflexivity|]).
  by apply elem_of_nil in Hp.
Qed.

Lemma five_points64_split : splits_well 5 universe64 five_points64 = true.
Proof. vm_compute. reflexivity. Qed.

Lemma five_world64_filled :
  filled five_tree universe64 five_points64 five_world64.
Proof.
  destruct (insert_all_filled five_tree universe64 [] five_points64
              (bootstrapped universe64 empty_world) 30) as (s' & Hrun & Hf).
  - by apply (filled_bootstrapped universe64 4 empty_world).
  - simpl. lia.
  - apply five_points64_inside.
  - intros b p Hb Hp.
    by apply (on_quadrants_spec _ _ _ _ _ _ five_points64_split).
  - simpl. lia.
  - unfold five_world64. by rewrite Hrun.
Qed.

Lemma five_world64_root :
  nodes five_world64 !! rootId five_tree
  = Some (divide (Build_Node 0 universe64 (take 4 five_points64) false None)
            {| c_ne := 1; c_nw := 2; c_se := 3; c_sw := 4 |}).
Proof. reflexivity. Qed.

Lemma four_world64_filled :
  filled five_tree universe64 (take 4 five_points64) four_world64.
Proof.
  destruct (insert_all_filled five_tree universe64 [] (take 4 five_points64)
              (bootstrapped universe64 empty_world) 30) as (s' & Hrun & Hf).
  - by apply (filled_bootstrapped universe64 4 empty_world).
  - simpl. lia.
  - intros p Hp. apply five_points64_inside.
    by apply (subseteq_take 4 five_points64).
  - intros b p Hb Hp.
    apply (on_quadrants_spec _ _ _ _ _ _ five_points64_split).
    + apply (quadrants_mono 4); [lia|done].
    + by apply (subseteq_take 4 five_points64).
  - simpl. lia.
  - unfold four_world64. by rewrite Hrun.
Qed.

Lemma four_world64_root :
  nodes four_world64 !! rootId five_tree
  = Some (Build_Node 0 universe64 (take 4 five_points64) false None).
Proof. reflexivity. Qed.

(** The two failures shown in exact arithmetic for C2 and C3 are the
    same in binary64: [update] of the point stored below the root throws a
    TypeError, and [insert] outside the universe returns without raising. *)
Example update_below_root_throws_TypeError64 :
  fst (_findPoint 30 (rootId five_tree) 15 15 five_world64)
  = Done (Some (Point.mk 15 15 (JStr "e")))
  ∧ update five_tree 30 15 15 (JStr "z") five_world64
    = (Throw TypeError, five_world64).
Proof. split; vm_compute; reflexivity. Qed.

Example insert_outside_root_does_not_raise64 :
  Rectangle.contains universe64 (Point.mk 200 200 JNull) = false
  ∧ insert {| rootId := 0; capacity := 4 |} 5 200 200 JNull
      (bootstrapped universe64 empty_world)
    = (Done tt, bootstrapped universe64 empty_world).
Proof. split; vm_compute; reflexivity. Qed.

(** ** Rounding *)

(** C1, as stated, fails in three ways.  With capacity 1, forty-nine
    inserts of the point (65.7, 65.7) into the universe [0,100] x [0,100]
    return, and the following [range(0, 0, 100, 100)] returns forty-eight
    points: the last insert reaches a quadrant that contains the point
    while, after rounding, none of its four children does, and the point is
    dropped.  With capacity 0 the first insert of that point is dropped in
    the same way.  And in the universe [0.2,0.8] x [0.2,0.8] the inserted
    point (0.2, 0.5) is not returned by [range(-0.8, 0, 0.2, 1)], whose
    rectangle contains it: the root boundary fails the overlap test with
    that rectangle. *)
Lemma range_omits_inserted_matches :
  let q := λ minX minY maxX maxY : float,
    {| Rectangle.x := ((minX + maxX) / 2)%float;
       Rectangle.y := ((minY + maxY) / 2)%float;
       Rectangle.w := ((maxX - minX) / 2)%float;
       Rectangle.h := ((maxY - minY) / 2)%float |} in
  let a := Point.mk c65_7 c65_7 (JStr "a") in
  let b := Point.mk c65_7 c65_7 (JStr "b") in
  ((∀ p, p ∈ crowd → Rectangle.contains universe64 p = true)
   ∧ b ∈ crowd ∧ Rectangle.contains (q 0 0 100 100)%float b = true
   ∧ fst (insert_then_range 60 universe64 (Some 1) crowd 0 0 100 100
            empty_world) = Done (replicate 48 a)
   ∧ b ∉ replicate 48 a)
  ∧ (Rectangle.contains universe64 a = true
     ∧ Rectangle.contains (q 0 0 100 100)%float a = true
     ∧ fst (insert_then_range 300 universe64 (Some 0) [a] 0 0 100 100
              empty_world) = Done [])
  ∧ (Rectangle.contains narrow_square left_point = true
     ∧ Rectangle.contains (q (- c0_8) 0 c0_2 1)%float left_point = true
     ∧ fst (insert_then_range 30 narrow_square None [left_point]
              (- c0_8) 0 c0_2 1 empty_world) = Done []).
Proof.
  intros q a b. split; [|split].
  - split; [|split; [|split; [|split]]].
    + intros p Hp. unfold crowd in Hp. apply elem_of_app in Hp as [Hp|Hp].
      * apply elem_of_replicate in Hp as [-> _]. reflexivity.
      * apply list_elem_of_singleton in Hp as ->. reflexivity.
    + unfold crowd. apply elem_of_app. right. by apply list_elem_of_singleton.
    + reflexivity.
    + vm_compute. reflexivity.
    + intros Hb. apply elem_of_replicate in Hb as [Hb _]. discriminate Hb.
  - repeat split; vm_compute; reflexivity.
  - repeat split; vm_compute; reflexivity.
Qed.

Lemma range_returns_exactly_the_inserted_matches_witness :
  ∃ res s',
    insert_then_range 30 universe64 (Some 4) five_points64 0 0 25 25
      empty_world
    = (Done res, s')
    ∧ ∀ p, p ∈ res ↔
           p ∈ five_points64
           ∧ Rectangle.contains
               {| Rectangle.x := ((0 + 25) / 2)%float;
                  Rectangle.y := ((0 + 25) / 2)%float;
                  Rectangle.w := ((25 - 0) / 2)%float;
                  Rectangle.h := ((25 - 0) / 2)%float |} p = true.
Proof.
  refine (range_returns_exactly_the_inserted_matches
            empty_world universe64 (Some 4) five_points64
            0%float 0%float 25%float 25%float 30 _ _ _ _ _ _ _ _).
  - reflexivity.
  - reflexivity.
  - simpl. lia.
  - apply five_points64_inside.
  - vm_compute. reflexivity.
  - vm_compute. reflexivity.
  - vm_compute. reflexivity.
  - simpl. lia.
Defined.

(** C5, as stated, fails.  With (5, 1e-9) and then (3, 4) inserted,
    [nearest(0, 0)] returns (5, 1e-9): both squared distances round to 25,
    the comparator returns 0 and the stable sort keeps the order of the
    range query, although (3, 4) is strictly closer to the origin.  And
    [nearest(0.5, 0.5, 0.3)] returns a point whose [x] lies below
    [0.5 - 0.3], outside the square: after rounding, the rectangle derived
    from the corners is a little wider than the square. *)
Lemma nearest_returns_a_farther_candidate :
  (fst (range five_tree 30 (0 - 100) (0 - 100) (0 + 100) (0 + 100) two_world)
   = Done [far_point; near_point]
   ∧ fst (nearest five_tree 30 0 0 None two_world) = Done (Some far_point)
   ∧ ∃ far near : Q,
       exact_dist2 0 0 far_point = Some far
       ∧ exact_dist2 0 0 near_point = Some near ∧ (near < far)%Q)
  ∧ (fst (nearest five_tree 30 0.5 0.5 (Some c0_3) edge_world)
     = Done (Some edge_point)
     ∧ (Point.x edge_point <? 0.5 - c0_3)%float = true
     ∧ ∃ px x r : Q,
         exact_value (Point.x edge_point) = Some px
         ∧ exact_value 0.5 = Some x ∧ exact_value c0_3 = Some r
         ∧ (px < x - r)%Q).
Proof.
  split; [split; [|split]|split; [|split]].
  - vm_compute. reflexivity.
  - vm_compute. reflexivity.
  - eexists _, _. split; [vm_compute; reflexivity|].
    split; [vm_compute; reflexivity|]. vm_compute. reflexivity.
  - vm_compute. reflexivity.
  - vm_compute. reflexivity.
  - eexists _, _, _. split; [vm_compute; reflexivity|].
    split; [vm_compute; reflexivity|]. split; [vm_compute; reflexivity|].
    vm_compute. reflexivity.
Qed.

Lemma nearest_returns_first_closest_candidate_witness :
  let d := λ a : Point.t float,
             ((Point.x a - 16) * (Point.x a - 16)
              + (Point.y a - 16) * (Point.y a - 16))%float in
  ∃ candidates answer,
    range five_tree 30 (16 - 100) (16 - 100) (16 + 100) (16 + 100) five_world64
    = (Done candidates, five_world64)
    ∧ nearest five_tree 30 16 16 None five_world64
      = (Done answer, five_world64)
    ∧ match answer with
      | None => candidates = []
      | Some p =>
          p ∈ candidates
          ∧ Rectangle.contains
              {| Rectangle.x := (((16 - 100) + (16 + 100)) / 2)%float;
                 Rectangle.y := (((16 - 100) + (16 + 100)) / 2)%float;
                 Rectangle.w := (((16 + 100) - (16 - 100)) / 2)%float;
                 Rectangle.h := (((16 + 100) - (16 - 100)) / 2)%float |} p
            = true
          ∧ (consistent d candidates = true →
             ∃ l1 l2, candidates = l1 ++ p :: l2
               ∧ (∀ c, c ∈ l1 → (0 <? d c - d p)%float = true)
               ∧ (∀ c, c ∈ l2 → (0 <? d p - d c)%float = false))
      end
    ∧ nearest five_tree 30 16 16 None five_world64
      = nearest five_tree 30 16 16 (Some 100%float) five_world64.
Proof.
  intros d.
  destruct (nearest_returns_first_closest_candidate five_tree 30
              16%float 16%float None five_world64 _
              (filled_wf _ _ _ _ five_world64_filled) five_world64_root)
    as (candidates & answer & Hrange & Hnearest & Hanswer & Hdefault).
  { vm_compute. lia. }
  exists candidates, answer. split; [exact Hrange|].
  split; [exact Hnearest|]. split; [exact Hanswer|]. by rewrite Hdefault.
Defined.

(** In the scenario the comparator is consistent on the candidates of
    [nearest(16, 16)], and the answer is (15, 15). *)
Example nearest_scenario64 :
  let d := λ a : Point.t float,
             ((Point.x a - 16) * (Point.x a - 16)
              + (Point.y a - 16) * (Point.y a - 16))%float in
  ∃ candidates,
    fst (range five_tree 30 (16 - 100) (16 - 100) (16 + 100) (16 + 100)
           five_world64) = Done candidates
    ∧ consistent d candidates = true
    ∧ fst (nearest five_tree 30 16 16 None five_world64)
      = Done (Some (Point.mk 15 15 (JStr "e"))).
Proof.
  eexists. split; [vm_compute; reflexivity|].
  split; vm_compute; reflexivity.
Qed.

(** C7, as stated, fails: the quadrant around (65.7, 65.7) with
    half-extent 50 / 2^47 contains that point, and after subdividing a root
    with this boundary none of the four children's boundaries does, so the
    children do not partition the boundary of their parent. *)
Lemma children_do_not_cover_their_parent :
  let p := Point.mk c65_7 c65_7 JNull in
  let s := bootstrapped tiny_square empty_world in
  let s' := subdivided (root_node 0 tiny_square) s in
  Rectangle.contains tiny_square p = true
  ∧ fresh_children s = {| c_ne := 1; c_nw := 2; c_se := 3; c_sw := 4 |}
  ∧ ∀ i, i ∈ [1; 2; 3; 4] →
         ∃ c, nodes s' !! i = Some c
              ∧ Rectangle.contains (boundary c) p = false.
Proof.
  intros p s s'. split; [reflexivity|]. split; [reflexivity|].
  intros i Hi.
  repeat (apply elem_of_cons in Hi as [->|Hi];
          [eexists; split; [reflexivity|vm_compute; reflexivity]|]).
  by apply elem_of_nil in Hi.
Qed.

Lemma subdivide_children_are_the_quadrants_witness :
  let quadrant := λ (i : uuid) (dx dy : float),
    {| id := i;
       boundary := {| Rectangle.x := (50 + dx * 50 / 2)%float;
                      Rectangle.y := (50 + dy * 50 / 2)%float;
                      Rectangle.w := (50 / 2)%float;
                      Rectangle.h := (50 / 2)%float |};
       points := []; divided := false; children := None |} in
  let s' := subdivided (Build_Node 0 universe64 (take 4 five_points64)
                          false None) four_world64 in
  (∀ i, i ∈ [1; 2; 3; 4] → nodes four_world64 !! i = None)
  ∧ NoDup [1; 2; 3; 4]
  ∧ nodes s' !! 1 = Some (quadrant 1 1%float (-1)%float)
  ∧ nodes s' !! 2 = Some (quadrant 2 (-1)%float (-1)%float)
  ∧ nodes s' !! 3 = Some (quadrant 3 1%float 1%float)
  ∧ nodes s' !! 4 = Some (quadrant 4 (-1)%float 1%float).
Proof.
  intros quadrant s'.
  destruct (subdivide_children_are_the_quadrants four_world64 0
              (Build_Node 0 universe64 (take 4 five_points64) false None)
              (filled_wf _ _ _ _ four_world64_filled) four_world64_root
              eq_refl)
    as (_ & Hfresh & Hdistinct & Hne & Hnw & Hse & Hsw & _).
  split; [exact Hfresh|]. split; [exact Hdistinct|].
  split; [exact Hne|]. split; [exact Hnw|]. split; [exact Hse|exact Hsw].
Defined.

(** C10, as stated, fails: with [minX = 5e-324] and [maxX = 0] the corners
    are inverted, but the half-extent [(maxX - minX) / 2] underflows to -0,
    which is not negative, and [range(5e-324, -1, 0, 1)] returns the point
    inserted at (0, 0). *)
Lemma range_inverted_corners_returns_a_point :
  (0 <? c5e_324)%float = true
  ∧ Prim2SF ((0 - c5e_324) / 2)%float = S754_zero true
  ∧ fst (insert_then_range 30 universe64 None [Point.mk 0 0 JNull]
           c5e_324 (-1) 0 1 empty_world)
    = Done [Point.mk 0 0 JNull].
Proof. repeat split; vm_compute; reflexivity. Qed.

Lemma range_inverted_corners_is_empty_witness :
  range five_tree 30 25 0 0 25 five_world64 = (Done [], five_world64)
  ∧ ∀ p, Rectangle.contains
           {| Rectangle.x := ((25 + 0) / 2)%float;
              Rectangle.y := ((0 + 25) / 2)%float;
              Rectangle.w := ((0 - 25) / 2)%float;
              Rectangle.h := ((25 - 0) / 2)%float |} p = false.
Proof.
  refine (range_inverted_corners_is_empty five_tree 30 25 0 0 25 five_world64
            _ (filled_wf _ _ _ _ five_world64_filled) five_world64_root _ _).
  - vm_compute. lia.
  - left. reflexivity.
Defined.

(** ** More of the scenario *)

Lemma _insert_accepts_exactly_the_universe_witness :
  let p := Point.mk 60 60 (JStr "f") in
  ∃ s', _insert five_tree 30 (rootId five_tree) p five_world64
        = (Done true, s')
    ∧ ∀ minX minY maxX maxY,
        let q := {| Rectangle.x := ((minX + maxX) / 2)%float;
                    Rectangle.y := ((minY + maxY) / 2)%float;
                    Rectangle.w := ((maxX - minX) / 2)%float;
                    Rectangle.h := ((maxY - minY) / 2)%float |} in
        Rectangle.contains q p = true → store_meets s' q p →
        ∃ res, range five_tree (4 + 30) minX minY maxX maxY s'
               = (Done res, s')
               ∧ p ∈ res.
Proof.
  intros p.
  destruct (_insert_accepts_exactly_the_universe five_tree 30 p five_world64
              (divide (Build_Node 0 universe64 (take 4 five_points64)
                         false None)
                 {| c_ne := 1; c_nw := 2; c_se := 3; c_sw := 4 |})
              (filled_wf _ _ _ _ five_world64_filled)
              (filled_inv _ _ _ _ five_world64_filled))
    as (s' & Hrun & _ & Haccepted).
  - simpl. lia.
  - apply (filled_store_covers _ _ _ _ _ five_world64_filled).
    vm_compute. reflexivity.
  - apply (filled_writes_survive _ _ _ _ _ five_world64_filled).
    vm_compute. reflexivity.
  - exact five_world64_root.
  - vm_compute. lia.
  - exists s'. split; [exact Hrun|]. exact (Haccepted eq_refl).
Defined.

Lemma accepted_insert_writes_one_or_six_records_witness :
  ∃ s' l,
    insert five_tree 30 15 15 (JStr "e") four_world64 = (Done tt, s')
    ∧ (puts s' = puts four_world64 ++ [NodeKey l]
       ∨ ∃ d, puts s'
              = puts four_world64
                ++ [NodeKey (next_uuid four_world64);
                    NodeKey (1 + next_uuid four_world64);
                    NodeKey (2 + next_uuid four_world64);
                    NodeKey (3 + next_uuid four_world64);
                    NodeKey l;
                    NodeKey (child (fresh_children four_world64) d)]).
Proof.
  refine (accepted_insert_writes_one_or_six_records five_tree 30
            15%float 15%float (JStr "e") four_world64 _
            (filled_wf _ _ _ _ four_world64_filled) _ _ _ four_world64_root
            _ _).
  - simpl. lia.
  - apply (filled_store_covers _ _ _ _ _ four_world64_filled).
    vm_compute. reflexivity.
  - apply (filled_writes_survive _ _ _ _ _ four_world64_filled).
    vm_compute. reflexivity.
  - reflexivity.
  - vm_compute. lia.
Defined.

Lemma _insert_with_capacity_zero_never_accepts_witness :
  fst (_insert {| rootId := 0; capacity := 0 |} 300 0
         (Point.mk c65_7 c65_7 JNull) (bootstrapped universe64 empty_world))
  ≠ Done true.
Proof.
  by apply (_insert_with_capacity_zero_never_accepts
              {| rootId := 0; capacity := 0 |} 300 0
              (Point.mk c65_7 c65_7 JNull)
              (bootstrapped universe64 empty_world)).
Defined.

Lemma range_returns_each_inserted_match_once_witness :
  ∃ res s',
    insert_then_range 30 universe64 (Some 4) five_points64 0 0 25 25
      empty_world
    = (Done res, s')
    ∧ res ≡ₚ List.filter
               (Rectangle.contains
                  {| Rectangle.x := ((0 + 25) / 2)%float;
                     Rectangle.y := ((0 + 25) / 2)%float;
                     Rectangle.w := ((25 - 0) / 2)%float;
                     Rectangle.h := ((25 - 0) / 2)%float |})
               five_points64.
Proof.
  refine (range_returns_each_inserted_match_once
            empty_world universe64 (Some 4) five_points64
            0%float 0%float 25%float 25%float 30 _ _ _ _ _ _ _ _ _).
  - reflexivity.
  - reflexivity.
  - simpl. lia.
  - apply five_points64_inside.
  - vm_compute. reflexivity.
  - vm_compute. reflexivity.
  - vm_compute. reflexivity.
  - vm_compute. reflexivity.
  - simpl. lia.
Defined.
End Binary64.
